(** * The Tadu crawler ([server.js]): a shallow embedding and its properties

    The development follows the source file top-down:
    - JavaScript strings, the two regular expressions and the number
      conversions the code relies on;
    - the document tree that [cheerio] hands back, with the selectors the
      code uses;
    - a state-and-exception monad for the [async] functions, whose state is
      the trace of network requests and timer waits of one task;
    - [Promise.all] with its completion order made explicit;
    - the crawl functions and the [/crawl] route;
    - the properties.

    Console output is left out: it has no part in what the functions return
    or request. *)

From Stdlib Require Import ZArith Ascii.
From stdpp Require Import base tactics option list strings sorting pretty.

Local Open Scope Z_scope.

(** ** JavaScript strings

    Strings are byte strings holding the UTF-8 encoding of the JavaScript
    text. All the literals the code compares against are ASCII. *)

Module Js.

Definition startsWith (s p : string) : bool := String.prefix p s.

Fixpoint includes (s p : string) : bool :=
  String.prefix p s ||
  match s with
  | "" => false
  | String _ s' => includes s' p
  end.

(** [drop_prefix p s] is the rest of [s] after its prefix [p]. *)
Fixpoint drop_prefix (p s : string) : option string :=
  match p, s with
  | "", _ => Some s
  | String a p', String b s' =>
      if decide (a = b) then drop_prefix p' s' else None
  | String _ _, "" => None
  end.

(** The class [\d]. *)
Definition is_digit (c : ascii) : bool :=
  (48 <=? Z.of_nat (nat_of_ascii c)) && (Z.of_nat (nat_of_ascii c) <=? 57).

(** The greedy [\d*]: the longest run of digits and what follows it. *)
Fixpoint span_digits (s : string) : string * string :=
  match s with
  | "" => ("", "")
  | String c s' =>
      if is_digit c then
        let '(ds, rest) := span_digits s' in (String c ds, rest)
      else ("", s)
  end.

(** [String.prototype.replace] with a string pattern: the first occurrence. *)
Fixpoint replace_first (pat rep s : string) : string :=
  match drop_prefix pat s with
  | Some rest => rep +:+ rest
  | None =>
      match s with
      | "" => ""
      | String c s' => String c (replace_first pat rep s')
      end
  end.

(** [s.replace(/\r/g, "")]. *)
Fixpoint remove_cr (s : string) : string :=
  match s with
  | "" => ""
  | String c s' =>
      if decide (c = "013"%char) then remove_cr s' else String c (remove_cr s')
  end.

(** White space and line terminators of ECMAScript, UTF-8 encoded:
    TAB, LF, VT, FF, CR, SP, U+00A0, U+1680, U+2000..U+200A, U+2028, U+2029,
    U+202F, U+205F, U+3000 and U+FEFF. *)
Definition bytes (l : list nat) : string :=
  foldr (fun n s => String (ascii_of_nat n) s) "" l.

Definition white_space : list string :=
  bytes <$> ([ [9%nat]; [10%nat]; [11%nat]; [12%nat]; [13%nat]; [32%nat];
               [194; 160]%nat; [225; 154; 128]%nat ] ++
             ((fun k => [226; 128; 128 + k]%nat) <$> seq 0 11) ++
             [ [226; 128; 168]%nat; [226; 128; 169]%nat; [226; 128; 175]%nat;
               [226; 129; 159]%nat; [227; 128; 128]%nat; [239; 187; 191]%nat ]).

(** One white-space character taken off the front, if there is one. *)
Definition strip_one (ws : list string) (s : string) : option string :=
  list_find (fun w => is_Some (drop_prefix w s)) ws ≫= fun '(_, w) => drop_prefix w s.

Fixpoint strip_go (ws : list string) (fuel : nat) (s : string) : string :=
  match fuel with
  | O => s
  | S fuel' =>
      match strip_one ws s with
      | Some rest => strip_go ws fuel' rest
      | None => s
      end
  end.

Definition trimStart (s : string) : string :=
  strip_go white_space (String.length s) s.

Definition trimEnd (s : string) : string :=
  String.rev (strip_go (String.rev <$> white_space) (String.length s) (String.rev s)).

Definition trim (s : string) : string := trimEnd (trimStart s).

(** The maximal runs without white space, as the class [\s] delimits them. *)
Fixpoint tokens_go (fuel : nat) (cur s : string) : list string :=
  match fuel with
  | O => []
  | S fuel' =>
      match s with
      | "" => if decide (cur = "") then [] else [String.rev cur]
      | String c s' =>
          match strip_one white_space s with
          | Some rest =>
              (if decide (cur = "") then [] else [String.rev cur]) ++ tokens_go fuel' "" rest
          | None => tokens_go fuel' (String c cur) s'
          end
      end
  end.

Definition tokens (s : string) : list string :=
  tokens_go (S (String.length s)) "" s.

(** [x || d] on a possibly [undefined] string: the empty string is falsy. *)
Definition or_else (x : option string) (d : string) : string :=
  match x with
  | Some s => if decide (s = "") then d else s
  | None => d
  end.

(** *** Numbers

    The numbers of this program are integers or [NaN]: they come from
    [parseInt] and from array indices. *)
Inductive number : Type :=
| NaN
| Num (z : Z).

Definition digit_value (radix : Z) (c : ascii) : option Z :=
  let n := Z.of_nat (nat_of_ascii c) in
  let v := if (48 <=? n) && (n <=? 57) then Some (n - 48)
           else if (97 <=? n) && (n <=? 122) then Some (n - 87)
           else if (65 <=? n) && (n <=? 90) then Some (n - 55)
           else None in
  v ≫= fun d => if d <? radix then Some d else None.

(** The longest prefix of radix-[radix] digits, read as an integer; [None]
    when there is no digit at all. *)
Fixpoint parse_digits (radix : Z) (acc : option Z) (s : string) : option Z :=
  match s with
  | "" => acc
  | String c s' =>
      match digit_value radix c with
      | Some d => parse_digits radix (Some (default 0 acc * radix + d)) s'
      | None => acc
      end
  end.

(** [parseInt(s)] without a radix argument. The integer is kept exact,
    which is what JavaScript does up to 2^53 in absolute value; beyond, it
    rounds to a double. The properties that read digits back are stated
    within that range. *)
Definition parseInt (s : string) : number :=
  let s := trimStart s in
  let '(sign, s) :=
    match s with
    | String "-" s' => (-1, s')
    | String "+" s' => (1, s')
    | _ => (1, s)
    end in
  let '(radix, s) :=
    match s with
    | String "0" (String "x" s') | String "0" (String "X" s') => (16, s')
    | _ => (10, s)
    end in
  match parse_digits radix None s with
  | Some z => Num (sign * z)
  | None => NaN
  end.

(** [String(n)], as a template literal or [replace] applies it: the decimal
    digits, which is what JavaScript prints for the integers it holds
    exactly, up to 2^53 in absolute value (beyond, it prints the digits of
    the double, and the exponent notation from 10^21 on). The indices of the
    chapters are array indices, far below. *)
Definition toString (n : number) : string :=
  match n with
  | NaN => "NaN"
  | Num z => pretty z
  end.

(** [ToLength], applied by [Array.from] to the [length] of an array-like. *)
Definition ToLength (n : number) : Z :=
  match n with
  | NaN => 0
  | Num z => Z.min (Z.max z 0) (2 ^ 53 - 1)
  end.

End Js.

(** ** The document tree

    [cheerio.load] returns a tree of [domhandler] nodes. Tag and attribute
    names are those the HTML parser produced (lower case). *)

#[warnings="-register-all"]
Inductive node : Type :=
| Text (data : string)
| Comment (data : string)
| Element (name : string) (attribs : list (string * string)) (children : list node).

Abbreviation document := (list node).

Module Dom.

(** The text of a node: the data of the text nodes below it, in order. *)
Fixpoint textContent (n : node) : string :=
  match n with
  | Text d => d
  | Comment _ => ""
  | Element _ _ cs =>
      (fix go (l : list node) : string :=
         match l with
         | [] => ""
         | c :: l' => textContent c +:+ go l'
         end) cs
  end.

(** A node and everything below it, in document order. *)
Fixpoint subtree (n : node) : list node :=
  n :: match n with
       | Element _ _ cs =>
           (fix go (l : list node) : list node :=
              match l with
              | [] => []
              | c :: l' => subtree c ++ go l'
              end) cs
       | _ => []
       end.

Definition nodes (doc : document) : list node := doc ≫= subtree.

Fixpoint assoc (a : string) (l : list (string * string)) : option string :=
  match l with
  | [] => None
  | (k, v) :: l' => if decide (k = a) then Some v else assoc a l'
  end.

Definition getAttribute (a : string) (n : node) : option string :=
  match n with
  | Element _ attribs _ => assoc a attribs
  | _ => None
  end.

(** Simple selectors. *)
Definition tag (t : string) (n : node) : bool :=
  match n with
  | Element name _ _ => bool_decide (name = t)
  | _ => false
  end.

Definition has_attr (a : string) (n : node) : bool :=
  bool_decide (is_Some (getAttribute a n)).

Definition attr_is (a v : string) (n : node) : bool :=
  bool_decide (getAttribute a n = Some v).

Definition has_class (c : string) (n : node) : bool :=
  match getAttribute "class" n with
  | Some cls => bool_decide (c ∈ Js.tokens cls)
  | None => false
  end.

(** [$(sel)] for a compound selector: the matching elements in document
    order. *)
Definition select (p : node → bool) (doc : document) : list node :=
  filter (fun n => p n) (nodes doc).

(** [$("anc sel")], the descendant combinator: the elements matching [p]
    that lie below an element matching [anc]. *)
Fixpoint below (anc p : node → bool) (inside : bool) (n : node) : list node :=
  (if inside && p n then [n] else []) ++
  match n with
  | Element _ _ cs =>
      (fix go (l : list node) : list node :=
         match l with
         | [] => []
         | c :: l' => below anc p (inside || anc n) c ++ go l'
         end) cs
  | _ => []
  end.

Definition select_below (anc p : node → bool) (doc : document) : list node :=
  doc ≫= below anc p false.

(** The methods of a selection. *)
Definition first (sel : list node) : list node := take 1 sel.

Definition attr (a : string) (sel : list node) : option string :=
  head sel ≫= getAttribute a.

Definition text (sel : list node) : string :=
  foldr (fun n s => textContent n +:+ s) "" sel.

End Dom.

(** ** Records of the result *)

Record ChapterRecord : Type := {
  index : Z;
  ch_title : string;
  content : string
}.

Record BookRecord : Type := {
  id : string;
  title : string;
  author : string;
  cover_image : string;
  description : string;
  genres : list string;
  url : string;
  chapters : option (list ChapterRecord)
}.

(** [info.chapters = cs]. *)
Definition set_chapters (info : BookRecord) (cs : list ChapterRecord) : BookRecord :=
  {| id := id info; title := title info; author := author info;
     cover_image := cover_image info; description := description info;
     genres := genres info; url := url info; chapters := Some cs |}.

(** ** The two regular expressions *)

(** [/\/book\/(\d+)\//] tried at the start of [s]: the captured digits. *)
Definition book_id_here (s : string) : option string :=
  rest ← Js.drop_prefix "/book/" s;
  let '(ds, rest') := Js.span_digits rest in
  if decide (ds = "") then None
  else if Js.startsWith rest' "/" then Some ds else None.

(** [href.match(/\/book\/(\d+)\//)]: group 1 of the leftmost match. *)
Fixpoint match_book_id (s : string) : option string :=
  match book_id_here s with
  | Some ds => Some ds
  | None =>
      match s with
      | "" => None
      | String _ s' => match_book_id s'
      end
  end.

(** [/https:\/\/media\d+\.tadu\.com\/?\/?$/] tried at the start of [s]. *)
Definition media_host_here (s : string) : bool :=
  match Js.drop_prefix "https://media" s with
  | Some rest =>
      let '(ds, rest') := Js.span_digits rest in
      if decide (ds = "") then false
      else
        match Js.drop_prefix ".tadu.com" rest' with
        | Some tail => bool_decide (tail ∈ [""; "/"; "//"])
        | None => false
        end
  | None => false
  end.

(** [re.test(s)]: the expression is anchored at the end only. *)
Fixpoint media_host_test (s : string) : bool :=
  media_host_here s ||
  match s with
  | "" => false
  | String _ s' => media_host_test s'
  end.

(** ** Configuration *)

Definition BASE_STORE_URL : string := "https://www.tadu.com/store/98-a-0-15-a-20-p-{page}-909".
Definition MAX_BOOK_WORKERS : nat := 10.
Definition MAX_CHAPTER_WORKERS : nat := 5.
Definition RETRY_TIMES : nat := 3.
Definition RETRY_SLEEP_MS : Z := 200.

(** ** Extraction from a parsed page *)

(** The selectors of the program. *)
Module Sel.

(** ["a.bookImg[href]"] *)
Definition book_cover_link (n : node) : bool :=
  Dom.tag "a" n && Dom.has_class "bookImg" n && Dom.has_attr "href" n.

(** ["a.bkNm[data-name]"] *)
Definition book_name (n : node) : bool :=
  Dom.tag "a" n && Dom.has_class "bkNm" n && Dom.has_attr "data-name" n.

(** ["span.author"] *)
Definition author (n : node) : bool := Dom.tag "span" n && Dom.has_class "author" n.

(** ["img[data-src]"] *)
Definition lazy_img (n : node) : bool := Dom.tag "img" n && Dom.has_attr "data-src" n.

(** ["img"] *)
Definition img (n : node) : bool := Dom.tag "img" n.

(** ['meta[property="og:image"]'] *)
Definition og_image (n : node) : bool :=
  Dom.tag "meta" n && Dom.attr_is "property" "og:image" n.

(** ["p.intro"] *)
Definition intro (n : node) : bool := Dom.tag "p" n && Dom.has_class "intro" n.

(** ["div.sortList"], the ancestor in ["div.sortList a"] *)
Definition sort_list (n : node) : bool := Dom.tag "div" n && Dom.has_class "sortList" n.

(** ["a"] *)
Definition anchor (n : node) : bool := Dom.tag "a" n.

(** ["h4"] *)
Definition h4 (n : node) : bool := Dom.tag "h4" n.

End Sel.

(** [ids.add(x)] on a [Set], which keeps insertion order. *)
Definition set_add (x : string) (ids : list string) : list string :=
  if decide (x ∈ ids) then ids else ids ++ [x].

(** The body of [getBookIds] after [cheerio.load]. The selector guarantees
    the [href], so the [None] branch of [attr] is never taken. The default
    [sort] compares strings by code units; the identifiers are runs of ASCII
    digits, on which that is the order [String.le] of byte strings. *)
Definition extract_ids (doc : document) : list string :=
  let ids :=
    foldl (fun ids el =>
             match Dom.attr "href" [el] ≫= match_book_id with
             | Some m1 => set_add m1 ids
             | None => ids
             end)
          [] (Dom.select Sel.book_cover_link doc) in
  merge_sort String.le ids.

(** Lines 59-67 of [crawlBookInfo]: the image candidate. *)
Definition cover_candidate (doc : document) : string :=
  let img_url := "" in
  let img_tag := Dom.first (Dom.select Sel.lazy_img doc) in
  let img_url :=
    if decide (length img_tag ≠ 0%nat) then Js.or_else (Dom.attr "data-src" img_tag) "" else img_url in
  if decide (img_url = "") then
    let img_tag := Dom.first (Dom.select Sel.img doc) in
    if decide (length img_tag ≠ 0%nat) then Js.or_else (Dom.attr "src" img_tag) "" else img_url
  else img_url.

(** Lines 70-71. *)
Definition normalize_url (img_url : string) : string :=
  if Js.startsWith img_url "//" then "https:" +:+ img_url
  else if Js.startsWith img_url "/" then "https://www.tadu.com" +:+ img_url
  else img_url.

(** The condition of line 74. *)
Definition is_placeholder (img_url : string) : bool :=
  bool_decide (img_url = "") || media_host_test img_url || Js.includes img_url "coverbg.jpg".

(** Lines 74-77. *)
Definition og_fallback (doc : document) (img_url : string) : string :=
  if is_placeholder img_url then
    match Dom.attr "content" (Dom.select Sel.og_image doc) with
    | Some metaImg => if decide (metaImg = "") then img_url else metaImg
    | None => img_url
    end
  else img_url.

Definition resolve_cover (doc : document) : string :=
  og_fallback doc (normalize_url (cover_candidate doc)).

Definition book_url (bookId : string) : string :=
  "https://www.tadu.com/book/" +:+ bookId +:+ "/".

(** The body of [crawlBookInfo] after [cheerio.load]. *)
Definition extract_info (bookId : string) (doc : document) : BookRecord :=
  {| id := bookId;
     title := Js.or_else (Dom.attr "data-name" (Dom.select Sel.book_name doc)) "";
     author := Js.trim (Dom.text (Dom.select Sel.author doc));
     cover_image := resolve_cover doc;
     description := Js.trim (Dom.text (Dom.select Sel.intro doc));
     genres := (fun el => Js.trim (Dom.text [el])) <$>
               Dom.select_below Sel.sort_list Sel.anchor doc;
     url := book_url bookId;
     chapters := None |}.

(** The text returned when no heading is found or every attempt failed. *)
Definition default_title (chapterIndex : Z) : string :=
  "Chương " +:+ Js.toString (Js.Num chapterIndex).

(** Lines 96-99 of [crawlChapterTitle]. *)
Definition select_title (chapterIndex : Z) (doc : document) : string :=
  let h4s := Dom.select Sel.h4 doc in
  if decide (2 ≤ length h4s)%nat then Js.trim (Dom.text (option_list (h4s !! 1%nat)))
  else if decide (1 ≤ length h4s)%nat then Js.trim (Dom.text (option_list (h4s !! 0%nat)))
  else default_title chapterIndex.

(** ** Effects

    What [axios] delivers as [resp.data]: the text of the body, or the object
    parsed from a JSON body. Of such an object the code reads [status] and
    [data.content] only. *)

Record api_payload : Type := {
  status : option Z;          (* [data.status], when it is a number *)
  data_content : option string (* [data.data?.content] *)
}.

Inductive resp_data : Type :=
| Body (text : string)
| Payload (p : api_payload).

(** The answer of the network to one request. *)
Inductive reply : Type :=
| Data (d : resp_data)
| Failure (message : string).

Inductive event : Type :=
| EvGet (url : string)
| EvSleep (ms : Z).

Abbreviation trace := (list event).

Inductive error : Type :=
| AxiosError (message : string)
| FetchError (url : string) (retries : nat)
| StatusError (status : option Z)
| RangeError
| LoadError (message : string).

(** [err.message]. *)
Definition message (e : error) : string :=
  match e with
  | AxiosError m => m
  | FetchError url retries =>
      "Không thể truy cập " +:+ url +:+ " sau " +:+ pretty retries +:+ " lần"
  | StatusError st => "Status " +:+ from_option pretty "undefined" st
  | RangeError => "Invalid array length"
  | LoadError m => m
  end.

Inductive result (A : Type) : Type :=
| Ok (a : A)
| Err (e : error).
Arguments Ok {A} a.
Arguments Err {A} e.

(** An [async] computation of one task: it extends the trace of the task and
    fulfils or rejects. *)
Definition M (A : Type) : Type := trace → result A * trace.

Definition ret {A} (a : A) : M A := fun t => (Ok a, t).

Definition throw {A} (e : error) : M A := fun t => (Err e, t).

Definition bind {A B} (m : M A) (k : A → M B) : M B := fun t =>
  match m t with
  | (Ok a, t') => k a t'
  | (Err e, t') => (Err e, t')
  end.

(** [try { m } catch (err) { h err }]. *)
Definition catch {A} (m : M A) (h : error → M A) : M A := fun t =>
  match m t with
  | (Ok a, t') => (Ok a, t')
  | (Err e, t') => h e t'
  end.

(** The notations [x ← m; k] and [m;; k] of stdpp stand for [await]. *)
Global Instance M_ret : MRet M := @ret.
Global Instance M_bind : MBind M := fun A B k m => bind m k.

(** [await new Promise(r => setTimeout(r, ms))]. *)
Definition sleep (ms : Z) : M unit := fun t => (Ok tt, t ++ [EvSleep ms]).

(** ** [Promise.all]

    [Promise.all] keeps an array [values] and a count of the promises still
    to settle. When promise [i] fulfils, its value is stored at [values[i]];
    when the count reaches zero the array is the result. The first promise
    to reject rejects the whole. Which pending promise settles next is not
    decided by the program: [choices] decides it, its head picking among
    the promises still pending (modulo their number), so that every list
    of choices is a completion order and every completion order is given by
    some list ([every_completion_order] below). *)

Fixpoint settle {A} (remaining : nat) (choices pending : list nat)
    (outcomes : list (result A)) (values : list (option A)) : result (list (option A)) :=
  match remaining with
  | O => Ok values
  | S remaining' =>
      let k := (hd 0 choices `mod` length pending)%nat in
      match pending !! k ≫= fun i => pair i <$> outcomes !! i with
      | Some (i, Ok v) =>
          settle remaining' (tl choices) (delete k pending) outcomes (<[i := Some v]> values)
      | Some (i, Err e) => Err e
      | None => Ok values
      end
  end.

(** The tasks of one fan-out share nothing: each owns its trace, which starts
    empty. The trace of the fan-out lists them in launch order. *)
Definition promise_all {A} (choices : list nat) (tasks : list (M A)) : M (list A) := fun t =>
  let runs := (fun task : M A => task []) <$> tasks in
  let n := length tasks in
  (match settle n choices (seq 0 n) (fst <$> runs) (replicate n None) with
   | Ok values => Ok (omap (fun v => v) values)
   | Err e => Err e
   end,
   t ++ mjoin (snd <$> runs)).

(** [pLimit(c)] returns [limit]; [limit(fn)] is a promise that settles as
    [fn()] does, started once fewer than [c] of the tasks given to [limit]
    are running. It bounds when a task runs, not what it computes. *)
Definition pLimit (concurrency : nat) {A} (fn : M A) : M A := fn.

(** The lengths of the arrays that an engine builds. ECMAScript refuses
    every length from 2^32 on; an engine refuses earlier, from its own limit
    on, with the same [RangeError] (V8 refuses to build the array of
    [crawlFirstNChapters] for a length of 2^27). [limit] is the largest
    length the engine accepts. *)
Definition creatable (limit : N) (len : Z) : Prop :=
  len < 2 ^ 32 ∧ len ≤ Z.of_N limit.

Global Instance creatable_dec limit len : Decision (creatable limit len).
Proof. unfold creatable. apply _. Defined.

(** [Array.from({ length: n }, (_, i) => f i)]: the length goes through
    [ToLength], and the array is built when the engine accepts the length. *)
Definition array_from {A} (limit : N) (n : Js.number) (f : Z → A) : M (list A) :=
  let len := Js.ToLength n in
  if decide (creatable limit len) then ret (f <$> seqZ 0 len) else throw RangeError.

(** ** The response of the route *)

Inductive body : Type :=
| ResultsBody (results : list BookRecord)
| ErrorBody (error : string).

(** [res.status(code).json(body)]; [res.json] alone answers 200. *)
Record response : Type := {
  code : Z;
  json : body
}.

(** ** The crawl functions *)

Section Crawler.

(** The network: its answer to a request may depend on the URL and on
    everything the requesting task has done so far. The tasks of one crawl
    address different URLs (one listing, one page per book, two endpoints
    per chapter), so a request is identified by the history of its task and
    its URL, and every behaviour of the network is one such function. *)
Variable net : trace → string → reply.

(** [cheerio.load] on a string: the HTML parser accepts every input. *)
Variable parse_html : string → document.

(** [cheerio.load] on a parsed JSON object is outside the contract of the
    library: it yields some document or throws. *)
Variable load_object : api_payload → document + string.

(** The completion orders of the book fan-out and of the chapter fan-out of
    each book. *)
Variable book_order : list nat.
Variable chapter_order : string → list nat.

(** The largest array length the engine accepts. *)
Variable array_limit : N.

(** [await axios.get(url, ...)] followed by [resp.data]. *)
Definition axios_get (url : string) : M resp_data := fun t =>
  (match net t url with
   | Data d => Ok d
   | Failure m => Err (AxiosError m)
   end, t ++ [EvGet url]).

Definition cheerio_load (d : resp_data) : M document :=
  match d with
  | Body s => ret (parse_html s)
  | Payload p =>
      match load_object p with
      | inl doc => ret doc
      | inr m => throw (LoadError m)
      end
  end.

(** The loop of [safeGet]; [todo] counts the iterations left, so that
    [attempt = retries + 1 - todo]. *)
Fixpoint safeGet_loop (url : string) (retries : nat) (sleepMs : Z)
    (todo attempt : nat) : M resp_data :=
  match todo with
  | O => throw (FetchError url retries)
  | S todo' =>
      catch (axios_get url)
        (fun err =>
           (if decide (attempt < retries)%nat then sleep sleepMs else ret tt);;
           safeGet_loop url retries sleepMs todo' (S attempt))
  end.

Definition safeGet (url : string) (retries : nat) (sleepMs : Z) : M resp_data :=
  safeGet_loop url retries sleepMs retries 1.

Definition listing_url (page : Js.number) : string :=
  Js.replace_first "{page}" (Js.toString page) BASE_STORE_URL.

Definition getBookIds (page : Js.number) : M (list string) :=
  let url := listing_url page in
  html ← safeGet url RETRY_TIMES RETRY_SLEEP_MS;
  doc ← cheerio_load html;
  ret (extract_ids doc).

Definition crawlBookInfo (bookId : string) : M BookRecord :=
  let url := book_url bookId in
  html ← safeGet url RETRY_TIMES RETRY_SLEEP_MS;
  doc ← cheerio_load html;
  ret (extract_info bookId doc).

Definition title_url (bookId : string) (chapterIndex : Z) : string :=
  "https://www.tadu.com/book/" +:+ bookId +:+ "/" +:+
  Js.toString (Js.Num chapterIndex) +:+ "/?isfirstpart=true".

(** The [try] block of [crawlChapterTitle]. *)
Definition title_attempt (bookId : string) (chapterIndex : Z) : M string :=
  let url := title_url bookId chapterIndex in
  html ← safeGet url RETRY_TIMES RETRY_SLEEP_MS;
  doc ← cheerio_load html;
  ret (select_title chapterIndex doc).

Fixpoint crawlChapterTitle_loop (bookId : string) (chapterIndex : Z) (todo : nat) : M string :=
  match todo with
  | O => ret (default_title chapterIndex)
  | S todo' =>
      catch (title_attempt bookId chapterIndex)
        (fun err => sleep RETRY_SLEEP_MS;; crawlChapterTitle_loop bookId chapterIndex todo')
  end.

Definition crawlChapterTitle (bookId : string) (chapterIndex : Z) : M string :=
  crawlChapterTitle_loop bookId chapterIndex RETRY_TIMES.

Definition content_url (bookId : string) (chapterIndex : Z) : string :=
  "https://www.tadu.com/getPartContentByCodeTable/" +:+ bookId +:+ "/" +:+
  Js.toString (Js.Num chapterIndex).

(** The [try] block of [crawlChapterContent]. A text body is falsy when
    empty and has no [status] field otherwise. *)
Definition content_attempt (bookId : string) (chapterIndex : Z) : M string :=
  let apiUrl := content_url bookId chapterIndex in
  data ← safeGet apiUrl RETRY_TIMES RETRY_SLEEP_MS;
  match data with
  | Payload p =>
      if decide (status p = Some 200) then
        doc ← cheerio_load (Body (Js.or_else (data_content p) ""));
        ret (Js.remove_cr (Dom.text doc))
      else throw (StatusError (status p))
  | Body _ => throw (StatusError None)
  end.

Fixpoint crawlChapterContent_loop (bookId : string) (chapterIndex : Z) (todo : nat) : M string :=
  match todo with
  | O => ret ""
  | S todo' =>
      catch (content_attempt bookId chapterIndex)
        (fun err => sleep RETRY_SLEEP_MS;; crawlChapterContent_loop bookId chapterIndex todo')
  end.

Definition crawlChapterContent (bookId : string) (chapterIndex : Z) : M string :=
  crawlChapterContent_loop bookId chapterIndex RETRY_TIMES.

(** The task of one chapter index. *)
Definition chapter_task (bookId : string) (i : Z) : M ChapterRecord :=
  title ← crawlChapterTitle bookId i;
  content ← crawlChapterContent bookId i;
  ret {| index := i; ch_title := title; content := content |}.

Definition crawlFirstNChapters (bookId : string) (n : Js.number) : M (list ChapterRecord) :=
  let limit := @pLimit MAX_CHAPTER_WORKERS ChapterRecord in
  indices ← array_from array_limit n (fun i => i + 1);
  chapters ← promise_all (chapter_order bookId)
               ((fun i => limit (chapter_task bookId i)) <$> indices);
  ret chapters.

(** The task of one book. *)
Definition book_task (numChapters : Js.number) (bookId : string) : M BookRecord :=
  info ← crawlBookInfo bookId;
  chapters ← crawlFirstNChapters bookId numChapters;
  ret (set_chapters info chapters).

(** [app.get("/crawl", ...)]; the arguments are [req.query.page] and
    [req.query.num_chapters]. *)
Definition crawl (query_page query_num_chapters : option string) : M response :=
  let pageNum := Js.parseInt (Js.or_else query_page "1") in
  let numChapters := Js.parseInt (Js.or_else query_num_chapters "5") in
  catch
    (bookIds ← getBookIds pageNum;
     if decide (length bookIds = 0%nat) then
       ret {| code := 404; json := ErrorBody "Không tìm thấy book nào" |}
     else
       let limit := @pLimit MAX_BOOK_WORKERS BookRecord in
       results ← promise_all book_order
                   ((fun bookId => limit (book_task numChapters bookId)) <$> bookIds);
       ret {| code := 200; json := ResultsBody results |})
    (fun err => ret {| code := 500; json := ErrorBody (message err) |}).

End Crawler.

(** ** Vocabulary of the properties *)

Global Instance event_eq_dec : EqDecision event.
Proof. solve_decision. Defined.

(** The number of requests sent to [url] in a trace. *)
Definition requests (url : string) (t : trace) : nat :=
  length (filter (fun e => e = EvGet url) t).

(** A target that fails at every request. *)
Definition always_fails (net : trace → string → reply) (url : string) : Prop :=
  ∀ t, ∃ m, net t url = Failure m.

(** The values of the fulfilled outcomes, in order. *)
Definition fulfilled {A} (outcomes : list (result A)) : list A :=
  omap (fun r => match r with Ok v => Some v | Err _ => None end) outcomes.

Definition is_ok {A} (r : result A) : Prop :=
  match r with Ok _ => True | Err _ => False end.

(** The order in which [settle] lets the promises settle. *)
Fixpoint completion_order (remaining : nat) (choices pending : list nat) : list nat :=
  match remaining with
  | O => []
  | S remaining' =>
      let k := (hd 0 choices `mod` length pending)%nat in
      match pending !! k with
      | Some i => i :: completion_order remaining' (tl choices) (delete k pending)
      | None => []
      end
  end.

(** What holds between two settlements: the promises no longer pending have
    fulfilled, and their values sit at their own indices. *)
Definition settled {A} (outcomes : list (result A)) (pending : list nat)
    (values : list (option A)) : Prop :=
  NoDup pending ∧
  (∀ i, i ∈ pending → (i < length outcomes)%nat) ∧
  length values = length outcomes ∧
  (∀ i, (i < length outcomes)%nat → i ∉ pending →
        ∃ v, outcomes !! i = Some (Ok v) ∧ values !! i = Some (Some v)).

(** [el] is the first node of the document, in document order, that matches
    the selector [p]; no node of the document matches [p]. *)
Definition first_match (p : node → bool) (doc : document) (el : node) : Prop :=
  ∃ k, Dom.nodes doc !! k = Some el ∧ p el = true ∧
       ∀ j el', (j < k)%nat → Dom.nodes doc !! j = Some el' → p el' = false.

Definition no_match (p : node → bool) (doc : document) : Prop :=
  ∀ el, el ∈ Dom.nodes doc → p el = false.

(** A string of digits. *)
Fixpoint all_digits (s : string) : bool :=
  match s with
  | "" => true
  | String c s' => Js.is_digit c && all_digits s'
  end.

(** The identifier a link contributes, if any. *)
Definition link_id (el : node) : option string :=
  Dom.getAttribute "href" el ≫= match_book_id.

(** A run of decimal digits, in the terms of the characters themselves. *)
Definition decimal_digits : list ascii :=
  ["0"; "1"; "2"; "3"; "4"; "5"; "6"; "7"; "8"; "9"]%char.

Definition decimal (s : string) : Prop :=
  Forall (fun c => c ∈ decimal_digits) (String.list_ascii_of_string s).

(** What [/\/book\/(\d+)\//] captures in [href]: [x] is not empty, is made
    of decimal digits and stands between ["/book/"] and ["/"], at the
    leftmost place of [href] where such a run stands. *)
Definition captured (href x : string) : Prop :=
  x ≠ "" ∧ decimal x ∧
  ∃ pre post,
    href = pre +:+ "/book/" +:+ x +:+ "/" +:+ post ∧
    ∀ pre' x' post',
      href = pre' +:+ "/book/" +:+ x' +:+ "/" +:+ post' → x' ≠ "" → decimal x' →
      (String.length pre ≤ String.length pre')%nat.


(** The three answers of the route. *)
Definition server_error (e : error) : response :=
  {| code := 500; json := ErrorBody (message e) |}.
Definition not_found : response :=
  {| code := 404; json := ErrorBody "Không tìm thấy book nào" |}.
Definition success (results : list BookRecord) : response :=
  {| code := 200; json := ResultsBody results |}.

(** The shape shared by the loops of [crawlChapterTitle] and
    [crawlChapterContent]: run the [try] block; when it throws, wait and go
    round again; after the last round, return the default. *)
Fixpoint retry {A} (attempt : M A) (dflt : A) (todo : nat) : M A :=
  match todo with
  | O => ret dflt
  | S todo' => catch attempt (fun err => sleep RETRY_SLEEP_MS;; retry attempt dflt todo')
  end.

(** ** A small site to run the crawler on *)

Module Fixture.

Definition link (href : string) : node :=
  Element "a" [("class", "bookImg"); ("href", href)] [Element "img" [("src", "/c.jpg")] []].

(** The listing page: books 6 and 50, the first one linked twice. *)
Definition listing_doc : document :=
  [Element "div" [("class", "list")]
     [link "/book/6/"; link "//www.tadu.com/book/50/?from=store"; link "/book/6/";
      link "/store/"]].

(** A listing page without any book link. *)
Definition empty_listing_doc : document :=
  [Element "div" [("class", "list")] [link "/store/"; Text "nothing here"]].

Definition book_doc : document :=
  [Element "head" []
     [Element "meta" [("property", "og:image"); ("content", "https://img.example/og.png")] []];
   Element "body" []
     [Element "a" [("class", "bkNm"); ("data-name", "A Book")] [Text "A Book"];
      Element "span" [("class", "author")] [Text " Someone "];
      Element "img" [("src", "/direct.jpg"); ("data-src", "//media3.tadu.com/lazy.jpg")] [];
      Element "p" [("class", "intro")] [Text "An introduction."];
      Element "div" [("class", "sortList")]
        [Element "a" [] [Text "fantasy"]; Element "a" [] [Text "drama"]]]].

Definition chapter_doc : document :=
  [Element "h4" [] [Text "A Book"];
   Element "div" [] [Element "h4" [] [Text "  The first day "]]].

Definition content_doc : document :=
  [Element "p" [] [Text ("one" +:+ String "013" (String "010" "")); Element "b" [] [Text "two"]]].

(** An image with an empty lazy-load attribute next to a direct source. *)
Definition empty_lazy_doc : document :=
  [Element "img" [("data-src", ""); ("src", "a.jpg")] []].

(** A bare media host as the only image, and no [og:image] element. *)
Definition bare_host_doc : document :=
  [Element "img" [("src", "https://media3.tadu.com/")] []].

(** The parser of the site: its pages are known by their body. *)
Definition pages (body : string) : document :=
  if decide (body = "listing") then listing_doc
  else if decide (body = "nothing") then empty_listing_doc
  else if decide (body = "book") then book_doc
  else if decide (body = "chapter") then chapter_doc
  else if decide (body = "content") then content_doc
  else [Text body].

Definition no_object (p : api_payload) : document + string :=
  inr "cheerio.load() expects a string".

(** The site when everything answers; page 2 of the listing has no book. *)
Definition site (t : trace) (url : string) : reply :=
  if decide (url = listing_url (Js.Num 1)) then Data (Body "listing")
  else if decide (url = listing_url (Js.Num 2)) then Data (Body "nothing")
  else if decide (url = book_url "6") then Data (Body "book")
  else if decide (url = book_url "50") then Data (Body "book")
  else if Js.startsWith url "https://www.tadu.com/book/" then Data (Body "chapter")
  else if Js.startsWith url "https://www.tadu.com/getPartContentByCodeTable/" then
    Data (Payload {| status := Some 200; data_content := Some "content" |})
  else Failure "Request failed with status code 404".

(** The same site with the page of book 50 out of reach and the chapter
    endpoints down. *)
Definition broken_site (t : trace) (url : string) : reply :=
  if decide (url = listing_url (Js.Num 1)) then Data (Body "listing")
  else if decide (url = book_url "6") then Data (Body "book")
  else Failure "timeout of 15000ms exceeded".

(** The same site with only the chapter endpoints down. *)
Definition chapterless_site (t : trace) (url : string) : reply :=
  if decide (url = listing_url (Js.Num 1)) then Data (Body "listing")
  else if decide (url = book_url "6") then Data (Body "book")
  else if decide (url = book_url "50") then Data (Body "book")
  else Failure "timeout of 15000ms exceeded".

(** A site that never answers. *)
Definition down (t : trace) (url : string) : reply :=
  Failure "timeout of 15000ms exceeded".

(** A content endpoint that answers with a status other than 200. *)
Definition refusing (t : trace) (url : string) : reply :=
  Data (Payload {| status := Some 500; data_content := None |}).

(** A site whose chapter pages have no heading. *)
Definition untitled (t : trace) (url : string) : reply := Data (Body "nothing").

(** A link outside the list of genres, equal to the one inside it. *)
Definition genre_doc : document :=
  [Element "a" [] [Text "g1"];
   Element "div" [("class", "sortList")] [Element "a" [] [Text "g1"]; Text "g2"]].

(** An engine that refuses arrays from 2^27 elements on. *)
Definition array_limit : N := 2 ^ 27 - 1.

End Fixture.

(** ** Vocabulary of the further properties *)

(** The requests, the waits and the time waited in a trace. *)
Fixpoint gets (t : trace) : nat :=
  match t with
  | [] => 0
  | EvGet _ :: t' => S (gets t')
  | EvSleep _ :: t' => gets t'
  end.

Fixpoint sleeps (t : trace) : nat :=
  match t with
  | [] => 0
  | EvGet _ :: t' => sleeps t'
  | EvSleep _ :: t' => S (sleeps t')
  end.

Fixpoint waited (t : trace) : Z :=
  match t with
  | [] => 0
  | EvGet _ :: t' => waited t'
  | EvSleep ms :: t' => ms + waited t'
  end.

(** A trace that requests only URLs in [urls] and waits [RETRY_SLEEP_MS]
    each time it waits. *)
Definition within (urls : string → Prop) (t : trace) : Prop :=
  Forall (fun e => match e with
                   | EvGet u => urls u
                   | EvSleep ms => ms = RETRY_SLEEP_MS
                   end) t.

(** The URLs of one chapter, of the chapters [1..len] of a book, and of a
    crawl of the books [ids] with [len] chapters each. *)
Definition chapter_urls (bookId : string) (i : Z) (u : string) : Prop :=
  u = title_url bookId i ∨ u = content_url bookId i.

Definition pipeline_urls (bookId : string) (len : Z) (u : string) : Prop :=
  ∃ i, 1 ≤ i ≤ len ∧ chapter_urls bookId i u.

Definition book_urls (bookId : string) (len : Z) (u : string) : Prop :=
  u = book_url bookId ∨ pipeline_urls bookId len u.

Definition crawl_urls (page : Js.number) (ids : list string) (len : Z) (u : string) : Prop :=
  u = listing_url page ∨ ∃ bookId, bookId ∈ ids ∧ book_urls bookId len u.

(** The errors the route can report. *)
Definition route_error (page : Js.number) (ids : list string) (e : error) : Prop :=
  e = FetchError (listing_url page) RETRY_TIMES ∨
  (∃ bookId, bookId ∈ ids ∧ e = FetchError (book_url bookId) RETRY_TIMES) ∨
  e = RangeError ∨
  (∃ m, e = LoadError m).

(** The identifiers a listing fetch has produced, none when it rejected. *)
Definition listed (r : result (list string)) : list string :=
  match r with
  | Ok ids => ids
  | Err _ => []
  end.


(** The nodes strictly below a node, in document order. *)
Definition descendants (n : node) : list node := tail (Dom.subtree n).

(** Some element matching [anc] lies above position [k] of the document:
    in document order the subtree of the node at position [j] takes the
    positions from [j] on, as many as it has nodes ([nodes_stretch] below),
    so a node below it stands at one of these positions after [j]. *)
Definition above (anc : node → bool) (l : list node) (k : nat) : Prop :=
  ∃ j a, l !! j = Some a ∧ anc a = true ∧ (j < k < j + length (Dom.subtree a))%nat.

(** Position [k] is selected by ["anc p"] ([inside] tells whether the
    listed nodes already lie below an element matching [anc]). *)
Definition selected (anc p : node → bool) (inside : bool) (l : list node) (k : nat) : Prop :=
  ∃ x, l !! k = Some x ∧ p x = true ∧ (inside = true ∨ above anc l k).

(** [ks] lists, in increasing order, the positions of [l] that are
    selected, and [out] the nodes at these positions. *)
Definition selection (anc p : node → bool) (inside : bool) (l : list node)
    (ks : list nat) (out : list node) : Prop :=
  StronglySorted lt ks ∧
  Forall2 (fun k x => l !! k = Some x) ks out ∧
  ∀ k, k ∈ ks ↔ selected anc p inside l k.

(** Induction on the tree, with the hypothesis for every child. *)
Fixpoint node_children_ind (P : node → Prop)
    (Htext : ∀ d, P (Text d)) (Hcomment : ∀ d, P (Comment d))
    (Helement : ∀ name attribs cs, Forall P cs → P (Element name attribs cs))
    (n : node) : P n :=
  match n with
  | Text d => Htext d
  | Comment d => Hcomment d
  | Element name attribs cs =>
      Helement name attribs cs
        ((fix go (l : list node) : Forall P l :=
            match l with
            | [] => @List.Forall_nil _ P
            | c :: l' =>
                @List.Forall_cons _ P c l'
                  (node_children_ind P Htext Hcomment Helement c) (go l')
            end) cs)
  end.



(** * Properties *)

(** ** Running a computation *)

Lemma run_bind {A B} (m : M A) (k : A → M B) t :
  (x ← m; k x) t =
  match m t with
  | (Ok a, t') => k a t'
  | (Err e, t') => (Err e, t')
  end.
Proof. reflexivity. Qed.

Lemma run_bind_ok {A B} (m : M A) (k : A → M B) t a t' :
  m t = (Ok a, t') → (x ← m; k x) t = k a t'.
Proof. intros H. rewrite run_bind, H. reflexivity. Qed.

Lemma run_bind_err {A B} (m : M A) (k : A → M B) t e t' :
  m t = (Err e, t') → (x ← m; k x) t = (Err e, t').
Proof. intros H. rewrite run_bind, H. reflexivity. Qed.

Lemma run_catch_ok {A} (m : M A) h t a t' :
  m t = (Ok a, t') → catch m h t = (Ok a, t').
Proof. intros H. unfold catch. rewrite H. reflexivity. Qed.

Lemma run_catch_err {A} (m : M A) h t e t' :
  m t = (Err e, t') → catch m h t = h e t'.
Proof. intros H. unfold catch. rewrite H. reflexivity. Qed.

Lemma requests_app url t1 t2 :
  requests url (t1 ++ t2) = (requests url t1 + requests url t2)%nat.
Proof. unfold requests. rewrite filter_app, length_app. reflexivity. Qed.

Lemma requests_get url t : requests url (t ++ [EvGet url]) = S (requests url t).
Proof.
  rewrite requests_app. unfold requests at 2. simpl.
  rewrite filter_cons_True by done. simpl. lia.
Qed.

Lemma requests_sleep url ms t : requests url (t ++ [EvSleep ms]) = requests url t.
Proof.
  rewrite requests_app. unfold requests at 2.
  rewrite filter_cons_False by done. simpl. lia.
Qed.

(** ** [Promise.all] *)

Section PromiseAll.
Context {A : Type}.
Implicit Types (outcomes : list (result A)) (values : list (option A)) (pending : list nat).

Lemma settled_init outcomes :
  settled outcomes (seq 0 (length outcomes)) (replicate (length outcomes) None).
Proof.
  split_and!.
  - apply NoDup_seq.
  - intros i Hi%elem_of_seq. lia.
  - apply length_replicate.
  - intros i Hi Hni. exfalso. apply Hni, elem_of_seq. lia.
Qed.

Lemma settled_step outcomes pending values k i v :
  settled outcomes pending values →
  pending !! k = Some i → outcomes !! i = Some (Ok v) →
  settled outcomes (delete k pending) (<[i := Some v]> values).
Proof.
  intros (Hnd & Hlt & Hlen & Hdone) Hk Hi.
  rewrite delete_take_drop. pose proof (take_drop_middle _ _ _ Hk) as Hsplit.
  rewrite <- Hsplit in Hnd, Hlt, Hdone.
  apply NoDup_app in Hnd as (Hnd1 & Hnd12 & [Hnd2 Hnd3]%NoDup_cons).
  split_and!.
  - apply NoDup_app. split_and!; [done| |done].
    intros x Hx1 Hx2. apply (Hnd12 x Hx1). by right.
  - intros j Hj. apply Hlt. rewrite elem_of_app, elem_of_cons.
    apply elem_of_app in Hj. tauto.
  - by rewrite length_insert.
  - intros j Hj Hnj. destruct (decide (j = i)) as [->|Hne].
    + exists v. split; [done|]. apply list_lookup_insert_eq. lia.
    + rewrite list_lookup_insert_ne by done. apply Hdone; [done|].
      rewrite elem_of_app, elem_of_cons. rewrite elem_of_app in Hnj. tauto.
Qed.

Lemma settle_spec remaining choices pending outcomes values :
  settled outcomes pending values → length pending = remaining →
  match settle remaining choices pending outcomes values with
  | Ok values' =>
      length values' = length outcomes ∧
      ∀ i, (i < length outcomes)%nat →
           ∃ v, outcomes !! i = Some (Ok v) ∧ values' !! i = Some (Some v)
  | Err e => Err e ∈ outcomes
  end.
Proof.
  revert choices pending values.
  induction remaining as [|remaining IH]; intros choices pending values Hinv Hlen; simpl.
  - destruct Hinv as (_ & _ & Hl & Hdone). split; [done|].
    intros i Hi. apply Hdone; [done|]. apply nil_length_inv in Hlen as ->.
    apply not_elem_of_nil.
  - set (k := (hd 0 choices `mod` length pending)%nat).
    assert (k < length pending)%nat as Hk by (apply Nat.mod_upper_bound; lia).
    apply lookup_lt_is_Some_2 in Hk as [i Hi]. rewrite Hi. simpl.
    assert (i < length outcomes)%nat as Hio.
    { apply Hinv. by eapply list_elem_of_lookup_2. }
    apply lookup_lt_is_Some_2 in Hio as [[v|e] Ho]; rewrite Ho; simpl.
    + apply IH; [by eapply settled_step|].
      rewrite length_delete by eauto. lia.
    + by eapply list_elem_of_lookup_2.
Qed.

Lemma settle_values outcomes values :
  length values = length outcomes →
  (∀ i, (i < length outcomes)%nat →
        ∃ v, outcomes !! i = Some (Ok v) ∧ values !! i = Some (Some v)) →
  Forall is_ok outcomes ∧ omap (fun v => v) values = fulfilled outcomes.
Proof.
  revert values. induction outcomes as [|o outcomes IH]; intros [|x values] Hlen Hall;
    simplify_eq/=; [done|].
  destruct (Hall 0%nat) as (v & ? & ?); [lia|]. simplify_eq/=.
  destruct (IH values) as [Hok Hval]; [done| |].
  { intros i Hi. apply (Hall (S i)). lia. }
  split; [by constructor|]. unfold fulfilled in *. simpl. by rewrite Hval.
Qed.

Lemma fulfilled_ok outcomes :
  Forall is_ok outcomes → outcomes = Ok <$> fulfilled outcomes.
Proof.
  induction 1 as [|[v|e] outcomes Hv _ IH]; [done| |done].
  unfold fulfilled in *. simpl. f_equal. exact IH.
Qed.

(** The outcome of [Promise.all]: all the values in launch order when
    every task fulfils, the error of one of the rejected tasks otherwise. *)
Lemma promise_all_run choices (tasks : list (M A)) t :
  (promise_all choices tasks t).2 = t ++ mjoin ((fun task : M A => (task []).2) <$> tasks) ∧
  match (promise_all choices tasks t).1 with
  | Ok vs =>
      Forall is_ok ((fun task : M A => (task []).1) <$> tasks) ∧
      vs = fulfilled ((fun task : M A => (task []).1) <$> tasks)
  | Err e => Err e ∈ (fun task : M A => (task []).1) <$> tasks
  end.
Proof.
  unfold promise_all. simpl. rewrite <- !list_fmap_compose. split; [done|].
  set (outs := (fst ∘ _) <$> tasks).
  assert (length tasks = length outs) as -> by (unfold outs; by rewrite length_fmap).
  pose proof (settle_spec (length outs) choices _ outs _ (settled_init outs)) as Hs.
  rewrite length_seq in Hs. specialize (Hs eq_refl).
  destruct (settle _ _ _ _ _) as [values|e]; [|done].
  destruct Hs as [Hlen Hall]. destruct (settle_values outs values Hlen Hall). done.
Qed.

Lemma promise_all_fulfils choices (tasks : list (M A)) t :
  Forall is_ok ((fun task : M A => (task []).1) <$> tasks) →
  (promise_all choices tasks t).1 = Ok (fulfilled ((fun task : M A => (task []).1) <$> tasks)).
Proof.
  intros Hok. destruct (promise_all_run choices tasks t) as [_ Hrun].
  destruct (promise_all choices tasks t).1 as [vs|e].
  - destruct Hrun as [_ ->]. done.
  - rewrite Forall_forall in Hok. destruct (Hok _ Hrun).
Qed.

(** The completion order has no part in a fan-out whose tasks all fulfil. *)
Lemma promise_all_order choices1 choices2 (tasks : list (M A)) t :
  Forall is_ok ((fun task : M A => (task []).1) <$> tasks) →
  promise_all choices1 tasks t = promise_all choices2 tasks t.
Proof.
  intros Hok. apply injective_projections.
  - by rewrite !promise_all_fulfils.
  - destruct (promise_all_run choices1 tasks t) as [-> _].
    destruct (promise_all_run choices2 tasks t) as [-> _]. done.
Qed.
End PromiseAll.

Lemma completion_order_S remaining choices pending :
  completion_order (S remaining) choices pending =
  let k := (hd 0 choices `mod` length pending)%nat in
  match pending !! k with
  | Some i => i :: completion_order remaining (tl choices) (delete k pending)
  | None => []
  end.
Proof. reflexivity. Qed.

(** Every order of the pending promises is the completion order of some
    list of choices. *)
Lemma every_completion_order (order pending : list nat) :
  order ≡ₚ pending →
  ∃ choices, completion_order (length pending) choices pending = order.
Proof.
  revert pending. induction order as [|i order IH]; intros pending Hperm.
  - apply Permutation_nil_l in Hperm as <-. by exists [].
  - assert (i ∈ pending) as Hin by (rewrite <- Hperm; by left).
    apply list_elem_of_lookup in Hin as [k Hk].
    pose proof (lookup_lt_Some _ _ _ Hk) as Hlt.
    destruct (IH (delete k pending)) as [choices Hchoices].
    { apply (Permutation_cons_inv (a := i)). rewrite Hperm. by apply delete_Permutation. }
    exists (k :: choices).
    assert (length pending = S (length (delete k pending))) as Hlen
      by (rewrite length_delete by eauto; lia).
    rewrite Hlen at 1. rewrite completion_order_S. cbv zeta.
    change (hd 0%nat (k :: choices)) with k. change (tl (k :: choices)) with choices.
    rewrite Nat.mod_small by done. rewrite Hk. by rewrite Hchoices.
Qed.

(** [Promise.all] rejects with the error of the first promise to reject. *)
Lemma settle_first_rejection {A} remaining choices pending
    (outcomes : list (result A)) values e :
  settle remaining choices pending outcomes values = Err e →
  ∃ k i, completion_order remaining choices pending !! k = Some i ∧
         outcomes !! i = Some (Err e) ∧
         ∀ j i', (j < k)%nat → completion_order remaining choices pending !! j = Some i' →
                 ∃ v, outcomes !! i' = Some (Ok v).
Proof.
  revert choices pending values.
  induction remaining as [|remaining IH]; intros choices pending values; simpl; [done|].
  destruct (pending !! _) as [i|]; simpl; [|done].
  destruct (outcomes !! i) as [[v|e']|] eqn:Hi; simpl; [| |done].
  - intros (k & i0 & Hk & Hi0 & Hfirst)%IH. exists (S k), i0. split_and!; [done..|].
    intros [|j] i' Hj Hi'; simplify_eq/=; [by exists v|]. eapply Hfirst; [|done]. lia.
  - intros [= ->]. exists 0%nat, i. split_and!; [done..|]. intros j i' Hj. lia.
Qed.

(** ** Strings and the regular expressions *)

Lemma app_cons c s1 s2 : String c s1 +:+ s2 = String c (s1 +:+ s2).
Proof. reflexivity. Qed.

Lemma app_nil_l s : "" +:+ s = s.
Proof. reflexivity. Qed.

Lemma string_app_assoc s1 s2 s3 : (s1 +:+ s2) +:+ s3 = s1 +:+ s2 +:+ s3.
Proof. induction s1 as [|c s1 IH]; [done|]. by rewrite !app_cons, IH. Qed.

Lemma drop_prefix_Some p s r : Js.drop_prefix p s = Some r ↔ s = p +:+ r.
Proof.
  revert s. induction p as [|a p IH]; intros s; simpl.
  - rewrite app_nil_l. split; congruence.
  - destruct s as [|b s]; rewrite app_cons; [done|].
    case_decide as Hab.
    + subst b. rewrite IH. split; congruence.
    + split; [intros [=] | congruence].
Qed.

Lemma prefix_true p s : String.prefix p s = true ↔ ∃ r, s = p +:+ r.
Proof.
  revert s. induction p as [|a p IH]; intros s.
  - split; [|by destruct s]. intros _. exists s. done.
  - destruct s as [|b s]; simpl.
    + split; [done|]. intros [r Hr]. by rewrite app_cons in Hr.
    + destruct (ascii_dec a b) as [->|Hab].
      * rewrite IH. split; intros [r Hr]; exists r; rewrite app_cons in *; congruence.
      * split; [done|]. intros [r Hr]. rewrite app_cons in Hr. congruence.
Qed.

Lemma includes_true s p : Js.includes s p = true ↔ ∃ pre post, s = pre +:+ p +:+ post.
Proof.
  induction s as [|c s IH].
  - change (Js.includes "" p) with (String.prefix p "" || false).
    rewrite orb_true_iff, prefix_true. split.
    + intros [[post Hp]|?]; [|done]. by exists "", post.
    + intros (pre & post & Hs). left. destruct pre; [by exists post|done].
  - change (Js.includes (String c s) p)
      with (String.prefix p (String c s) || Js.includes s p).
    rewrite orb_true_iff, prefix_true, IH. split.
    + intros [[post Hp]|(pre & post & ->)]; [by exists "", post|].
      by exists (String c pre), post.
    + intros ([|c' pre] & post & Hs).
      * left. by exists post.
      * right. rewrite app_cons in Hs. simplify_eq. by exists pre, post.
Qed.

Lemma span_digits_spec s :
  s = (Js.span_digits s).1 +:+ (Js.span_digits s).2 ∧
  all_digits (Js.span_digits s).1 = true ∧
  match (Js.span_digits s).2 with
  | String c _ => Js.is_digit c = false
  | "" => True
  end.
Proof.
  induction s as [|c s (IH1 & IH2 & IH3)]; simpl; [done|].
  destruct (Js.is_digit c) eqn:Hc.
  - destruct (Js.span_digits s) as [ds rest]. simpl in *.
    rewrite app_cons, Hc. split_and!; [congruence|done..].
  - simpl. by rewrite Hc.
Qed.

Lemma span_digits_app ds rest :
  all_digits ds = true →
  match rest with String c _ => Js.is_digit c = false | "" => True end →
  Js.span_digits (ds +:+ rest) = (ds, rest).
Proof.
  intros Hds Hrest. induction ds as [|c ds IH].
  - rewrite app_nil_l. destruct rest as [|c rest]; simpl; [done|]. by rewrite Hrest.
  - simpl in Hds. apply andb_true_iff in Hds as [Hc Hds].
    rewrite app_cons. simpl. rewrite Hc, IH by done. done.
Qed.

(** [/\/book\/(\d+)\//] matches at the start of [s] with group 1 = [ds]. *)
Lemma book_id_here_Some s ds :
  book_id_here s = Some ds ↔
  ∃ post, s = "/book/" +:+ ds +:+ "/" +:+ post ∧ ds ≠ "" ∧ all_digits ds = true.
Proof.
  unfold book_id_here. split.
  - destruct (Js.drop_prefix "/book/" s) as [rest|] eqn:Hdrop; [|done]. simpl.
    apply drop_prefix_Some in Hdrop as ->.
    destruct (span_digits_spec rest) as (Hrest & Hds & _).
    destruct (Js.span_digits rest) as [ds' rest']. simpl in *.
    case_decide; [done|]. unfold Js.startsWith.
    destruct (String.prefix "/" rest') eqn:Hp; [|done].
    intros [= ->]. apply prefix_true in Hp as [post ->]. exists post.
    by rewrite Hrest.
  - intros (post & -> & Hne & Hds).
    assert (Js.drop_prefix "/book/" ("/book/" +:+ ds +:+ "/" +:+ post)
            = Some (ds +:+ "/" +:+ post)) as -> by (by apply drop_prefix_Some).
    simpl. rewrite span_digits_app by done.
    rewrite decide_False by done. unfold Js.startsWith.
    assert (String.prefix "/" ("/" +:+ post) = true) as -> by (apply prefix_true; eauto).
    done.
Qed.

(** The search tries the positions from left to right. *)
Lemma match_book_id_Some s ds :
  match_book_id s = Some ds ↔
  ∃ pre rest, s = pre +:+ rest ∧ book_id_here rest = Some ds ∧
    ∀ pre' rest', s = pre' +:+ rest' → (String.length pre' < String.length pre)%nat →
                  book_id_here rest' = None.
Proof.
  induction s as [|c s IH].
  - split; [intros [=]|].
    intros ([|??] & rest & Hs & Hrest & _); [|done]. rewrite app_nil_l in Hs.
    by subst rest.
  - change (match_book_id (String c s))
      with (match book_id_here (String c s) with
            | Some ds => Some ds
            | None => match_book_id s
            end).
    destruct (book_id_here (String c s)) as [ds'|] eqn:Hhere.
    + split.
      * intros [= ->]. exists "", (String c s). split_and!; [done..|]. simpl. intros; lia.
      * intros ([|c' pre] & rest & Hs & Hrest & Hfirst).
        -- rewrite app_nil_l in Hs. subst rest. congruence.
        -- specialize (Hfirst "" (String c s) eq_refl). simpl in Hfirst.
           rewrite Hfirst in Hhere by lia. done.
    + rewrite IH. split.
      * intros (pre & rest & -> & Hrest & Hfirst).
        exists (String c pre), rest. split_and!; [done..|].
        intros [|c' pre'] rest' Hs Hlen.
        -- rewrite app_nil_l in Hs. by subst rest'.
        -- rewrite !app_cons in Hs. simplify_eq. apply (Hfirst pre'); [done|]. simpl in Hlen. lia.
      * intros ([|c' pre] & rest & Hs & Hrest & Hfirst).
        -- rewrite app_nil_l in Hs. subst rest. congruence.
        -- rewrite app_cons in Hs. simplify_eq. exists pre, rest. split_and!; [done..|].
           intros pre' rest' Hs' Hlen.
           apply (Hfirst (String c' pre')); [by rewrite !app_cons, Hs'|]. simpl. lia.
Qed.

Lemma match_book_id_None s :
  match_book_id s = None ↔ ∀ pre rest, s = pre +:+ rest → book_id_here rest = None.
Proof.
  induction s as [|c s IH].
  - split; [|done]. intros _ [|??] rest Hs; [|done]. rewrite app_nil_l in Hs. by subst.
  - change (match_book_id (String c s))
      with (match book_id_here (String c s) with
            | Some ds => Some ds
            | None => match_book_id s
            end).
    destruct (book_id_here (String c s)) eqn:Hhere.
    + split; [done|]. intros Hall. by rewrite (Hall "" (String c s)) in Hhere.
    + rewrite IH. split.
      * intros Hall [|c' pre] rest Hs.
        -- rewrite app_nil_l in Hs. by subst.
        -- rewrite app_cons in Hs. simplify_eq. by apply (Hall pre).
      * intros Hall pre rest ->. by apply (Hall (String c pre)).
Qed.

(** The class [\d] is the ten decimal digits. *)
Lemma is_digit_decimal c : Js.is_digit c = bool_decide (c ∈ decimal_digits).
Proof. by destruct c as [[] [] [] [] [] [] [] []]; vm_compute. Qed.

Lemma all_digits_decimal s : all_digits s = true ↔ decimal s.
Proof.
  unfold decimal. induction s as [|c s IH]; simpl.
  - split; [constructor|done].
  - rewrite andb_true_iff, Forall_cons, IH, is_digit_decimal, bool_decide_eq_true. done.
Qed.

(** The pattern of [getBookIds], in the terms of the strings. *)
Lemma match_book_id_captured href x : match_book_id href = Some x ↔ captured href x.
Proof.
  rewrite match_book_id_Some. unfold captured. split.
  - intros (pre & rest & -> & (post & -> & Hne & Hds)%book_id_here_Some & Hfirst).
    split_and!; [done|by apply all_digits_decimal|]. exists pre, post. split; [done|].
    intros pre' x' post' Heq Hne' Hds'%all_digits_decimal.
    destruct (decide (String.length pre' < String.length pre)%nat) as [Hlt|]; [|lia].
    assert (book_id_here ("/book/" +:+ x' +:+ "/" +:+ post') = Some x') as Hhere
      by (apply book_id_here_Some; eauto).
    by rewrite (Hfirst pre' _ Heq Hlt) in Hhere.
  - intros (Hne & Hds%all_digits_decimal & pre & post & -> & Hfirst).
    exists pre, ("/book/" +:+ x +:+ "/" +:+ post). split_and!; [done| |].
    + apply book_id_here_Some. eauto.
    + intros pre' rest' Heq Hlt.
      destruct (book_id_here rest') as [x'|] eqn:Hhere; [|done].
      apply book_id_here_Some in Hhere as (post' & -> & Hne' & Hds').
      apply all_digits_decimal in Hds'.
      specialize (Hfirst pre' x' post' Heq Hne' Hds'). lia.
Qed.

(** [/https:\/\/media\d+\.tadu\.com\/?\/?$/] matches at the start of [s]. *)
Lemma media_host_here_true s :
  media_host_here s = true ↔
  ∃ ds tail, s = "https://media" +:+ ds +:+ ".tadu.com" +:+ tail ∧
             ds ≠ "" ∧ all_digits ds = true ∧ tail ∈ [""; "/"; "//"].
Proof.
  unfold media_host_here. split.
  - destruct (Js.drop_prefix "https://media" s) as [rest|] eqn:Hdrop; [|done].
    apply drop_prefix_Some in Hdrop as ->.
    destruct (span_digits_spec rest) as (Hrest & Hds & _).
    destruct (Js.span_digits rest) as [ds rest']. simpl in Hrest, Hds.
    case_decide; [done|].
    destruct (Js.drop_prefix ".tadu.com" rest') as [tail|] eqn:Hdrop; [|done].
    apply drop_prefix_Some in Hdrop as ->. intros Htail%bool_decide_eq_true.
    exists ds, tail. by rewrite Hrest.
  - intros (ds & tail & -> & Hne & Hds & Htail).
    assert (Js.drop_prefix "https://media" ("https://media" +:+ ds +:+ ".tadu.com" +:+ tail)
            = Some (ds +:+ ".tadu.com" +:+ tail)) as -> by (by apply drop_prefix_Some).
    rewrite span_digits_app by done. rewrite decide_False by done.
    assert (Js.drop_prefix ".tadu.com" (".tadu.com" +:+ tail) = Some tail) as ->
      by (by apply drop_prefix_Some).
    by apply bool_decide_eq_true.
Qed.

Lemma media_host_test_true s :
  media_host_test s = true ↔ ∃ pre rest, s = pre +:+ rest ∧ media_host_here rest = true.
Proof.
  induction s as [|c s IH].
  - split; [done|].
    intros ([|??] & rest & Hs & Hrest); [|done]. rewrite app_nil_l in Hs. by subst.
  - change (media_host_test (String c s))
      with (media_host_here (String c s) || media_host_test s).
    rewrite orb_true_iff, IH. split.
    + intros [H|(pre & rest & -> & Hrest)]; [by exists "", (String c s)|].
      by exists (String c pre), rest.
    + intros ([|c' pre] & rest & Hs & Hrest).
      * rewrite app_nil_l in Hs. subst. by left.
      * rewrite app_cons in Hs. simplify_eq. right. by exists pre, rest.
Qed.

(** ** Selections *)

Lemma string_app_nil_r s : s +:+ "" = s.
Proof.
  induction s as [|c s IH]; [done|].
  change (String c (s +:+ "") = String c s). by rewrite IH.
Qed.

Lemma text_singleton n : Dom.text [n] = Dom.textContent n.
Proof. unfold Dom.text. simpl. apply string_app_nil_r. Qed.

(** The head of a selection is the first node of the document, in document
    order, that matches the selector. *)
Lemma head_select p doc el :
  head (Dom.select p doc) = Some el ↔ first_match p doc el.
Proof.
  unfold first_match, Dom.select. generalize (Dom.nodes doc). intros l.
  induction l as [|n l IH]; simpl.
  - split; [done|]. by intros (k & ? & _).
  - destruct (p n) eqn:Hn.
    + rewrite filter_cons_True by (by rewrite Hn). simpl. split.
      * intros [= ->]. exists 0%nat. split_and!; try done. intros j el' Hj. lia.
      * intros ([|k] & Hk & Hp & Hfirst); [by simplify_eq/=|].
        assert (p n = false) by (apply (Hfirst 0%nat); [lia|done]). congruence.
    + rewrite filter_cons_False by (rewrite Hn; intros []). rewrite IH. split.
      * intros (k & Hk & Hp & Hfirst). exists (S k). split_and!; [done..|].
        intros [|j] el' Hj Hel'; simplify_eq/=; [done|]. eapply Hfirst; [|done]. lia.
      * intros ([|k] & Hk & Hp & Hfirst); simplify_eq/=; [congruence|].
        exists k. split_and!; [done..|]. intros j el' Hj Hel'.
        apply (Hfirst (S j)); [lia|done].
Qed.

Lemma head_select_None p doc :
  head (Dom.select p doc) = None ↔ no_match p doc.
Proof.
  unfold no_match, Dom.select. rewrite head_None. split.
  - intros Hnil el Hel. destruct (p el) eqn:Hp; [|done].
    assert (el ∈ filter (fun n => p n) (Dom.nodes doc)) as Hin
      by (apply list_elem_of_filter; by rewrite Hp).
    rewrite Hnil in Hin. by apply elem_of_nil in Hin.
  - intros Hnone. apply elem_of_nil_inv. intros el [Hp Hel]%list_elem_of_filter.
    rewrite (Hnone el Hel) in Hp. done.
Qed.

Lemma attr_first a sel : Dom.attr a (Dom.first sel) = Dom.attr a sel.
Proof. by destruct sel. Qed.

Lemma length_first_ne_0 (sel : list node) :
  length (Dom.first sel) ≠ 0%nat ↔ is_Some (head sel).
Proof. destruct sel; simpl; split; intros H; try done; by destruct H. Qed.

(** ** The cover image *)

Lemma cover_candidate_lazy doc v :
  Dom.attr "data-src" (Dom.select Sel.lazy_img doc) = Some v → v ≠ "" →
  cover_candidate doc = v.
Proof.
  intros Hv Hne. unfold cover_candidate. rewrite !attr_first, Hv.
  destruct (decide (length (Dom.first (Dom.select Sel.lazy_img doc)) ≠ 0%nat)) as [Hl|Hl].
  - simpl. rewrite (decide_False (P := v = "")) by done. by rewrite decide_False.
  - exfalso. apply Hl, length_first_ne_0. unfold Dom.attr in Hv.
    destruct (head _); [done|discriminate].
Qed.

Lemma cover_candidate_direct doc :
  Js.or_else (Dom.attr "data-src" (Dom.select Sel.lazy_img doc)) "" = "" →
  cover_candidate doc = Js.or_else (Dom.attr "src" (Dom.select Sel.img doc)) "".
Proof.
  intros Hv. unfold cover_candidate. rewrite !attr_first, Hv.
  assert ((if decide (length (Dom.first (Dom.select Sel.lazy_img doc)) ≠ 0%nat)
           then "" else "") = "") as -> by (by case_decide).
  rewrite (decide_True (P := "" = "")) by done. case_decide as Hlen; [done|].
  destruct (Dom.select Sel.img doc); [done|]. simpl in Hlen. done.
Qed.

Lemma is_placeholder_true u :
  is_placeholder u = true ↔
  u = "" ∨ media_host_test u = true ∨ Js.includes u "coverbg.jpg" = true.
Proof.
  unfold is_placeholder. rewrite !orb_true_iff, bool_decide_eq_true. tauto.
Qed.

Lemma normalize_protocol_relative r : normalize_url ("//" +:+ r) = "https://" +:+ r.
Proof.
  unfold normalize_url, Js.startsWith.
  assert (String.prefix "//" ("//" +:+ r) = true) as -> by (apply prefix_true; eauto).
  reflexivity.
Qed.

Lemma normalize_root_relative r :
  (∀ r', r ≠ "/" +:+ r') → normalize_url ("/" +:+ r) = "https://www.tadu.com/" +:+ r.
Proof.
  intros Hr. unfold normalize_url, Js.startsWith.
  destruct (String.prefix "//" ("/" +:+ r)) eqn:Hp.
  - apply prefix_true in Hp as [r' Hp]. destruct (Hr r'). by simplify_eq/=.
  - assert (String.prefix "/" ("/" +:+ r) = true) as -> by (apply prefix_true; eauto).
    reflexivity.
Qed.

Lemma normalize_other u : (∀ r, u ≠ "/" +:+ r) → normalize_url u = u.
Proof.
  intros Hu. unfold normalize_url, Js.startsWith.
  destruct (String.prefix "//" u) eqn:Hp2.
  { apply prefix_true in Hp2 as [r ->]. destruct (Hu ("/" +:+ r)). reflexivity. }
  destruct (String.prefix "/" u) eqn:Hp1; [|done].
  apply prefix_true in Hp1 as [r ->]. by destruct (Hu r).
Qed.

(** C6 (amended). The candidate is the [data-src] value of the first
    [img[data-src]] element of the document when that value is not empty;
    when there is no such element or its value is empty, it is the [src]
    value of the first [img] element (empty when it has none, or when there
    is no image). The candidate is then prefixed with ["https:"] when it
    starts with ["//"] and with the site origin when it starts with a single
    ["/"], and the result is the cover image unless it is a placeholder. *)
Theorem cover_precedence (bookId : string) (doc : document) :
  let no_lazy_value :=
    no_match Sel.lazy_img doc ∨
    ∃ el, first_match Sel.lazy_img doc el ∧ Dom.getAttribute "data-src" el = Some "" in
  (∀ el v, first_match Sel.lazy_img doc el → Dom.getAttribute "data-src" el = Some v →
           v ≠ "" → cover_candidate doc = v) ∧
  (∀ el, no_lazy_value → first_match Sel.img doc el →
         cover_candidate doc = Js.or_else (Dom.getAttribute "src" el) "") ∧
  (no_match Sel.img doc → cover_candidate doc = "") ∧
  (∀ r, normalize_url ("//" +:+ r) = "https://" +:+ r) ∧
  (∀ r, (∀ r', r ≠ "/" +:+ r') → normalize_url ("/" +:+ r) = "https://www.tadu.com/" +:+ r) ∧
  (∀ u, (∀ r, u ≠ "/" +:+ r) → normalize_url u = u) ∧
  (is_placeholder (normalize_url (cover_candidate doc)) = false →
   cover_image (extract_info bookId doc) = normalize_url (cover_candidate doc)).
Proof.
  intros no_lazy_value. split_and!.
  - intros el v Hel%head_select Hv Hne. apply cover_candidate_lazy; [|done].
    unfold Dom.attr. by rewrite Hel.
  - intros el Hlazy Hel%head_select. rewrite cover_candidate_direct.
    + unfold Dom.attr. by rewrite Hel.
    + unfold Dom.attr.
      destruct Hlazy as [->%head_select_None|(el0 & ->%head_select & Hv)]; simpl;
        [done|by rewrite Hv].
  - intros Hnone. rewrite cover_candidate_direct.
    + unfold Dom.attr. apply head_select_None in Hnone. by rewrite Hnone.
    + unfold Dom.attr.
      destruct (head (Dom.select Sel.lazy_img doc)) as [el|] eqn:Hel; [|done].
      apply head_select in Hel as (k & Hk & Hp & _). exfalso.
      apply list_elem_of_lookup_2, Hnone in Hk.
      unfold Sel.lazy_img in Hp. unfold Sel.img in Hk. by rewrite Hk in Hp.
  - apply normalize_protocol_relative.
  - apply normalize_root_relative.
  - apply normalize_other.
  - intros Hph. simpl. unfold resolve_cover, og_fallback. by rewrite Hph.
Qed.

(** C3 (amended). The normalized candidate is set aside exactly when it is
    empty, or ends with [https://media<digits>.tadu.com] followed by at
    most two slashes, or contains [coverbg.jpg]. It is then replaced by the
    [content] of the first [og:image] meta element when that content exists
    and is not empty; otherwise the candidate is kept as it is. *)
Theorem cover_fallback (bookId : string) (doc : document) :
  let u := normalize_url (cover_candidate doc) in
  let og := Dom.attr "content" (Dom.select Sel.og_image doc) in
  (is_placeholder u = true ↔
   u = "" ∨
   (∃ pre ds tail, u = pre +:+ "https://media" +:+ ds +:+ ".tadu.com" +:+ tail ∧
                   ds ≠ "" ∧ all_digits ds = true ∧ tail ∈ [""; "/"; "//"]) ∨
   (∃ pre post, u = pre +:+ "coverbg.jpg" +:+ post)) ∧
  (is_placeholder u = true → ∀ m, og = Some m → m ≠ "" →
   cover_image (extract_info bookId doc) = m) ∧
  (is_placeholder u = true → og = None ∨ og = Some "" →
   cover_image (extract_info bookId doc) = u) ∧
  (is_placeholder u = false → cover_image (extract_info bookId doc) = u).
Proof.
  intros u og. split_and!.
  - rewrite is_placeholder_true, media_host_test_true, includes_true.
    split; (intros [?|[Hm|?]]; [by left| |by right; right]); right; left.
    + destruct Hm as (pre & rest & -> & (ds & tail & -> & ?)%media_host_here_true).
      by exists pre, ds, tail.
    + destruct Hm as (pre & ds & tail & -> & ?).
      eexists pre, _. split; [done|]. apply media_host_here_true. by exists ds, tail.
  - intros Hph m Hm Hne. simpl. unfold resolve_cover, og_fallback. fold u og.
    rewrite Hph, Hm. by rewrite decide_False.
  - intros Hph Hog. simpl. unfold resolve_cover, og_fallback. fold u og.
    rewrite Hph. by destruct Hog as [->| ->].
  - intros Hph. simpl. unfold resolve_cover, og_fallback. fold u. by rewrite Hph.
Qed.

(** ** The chapter title *)

Lemma select_title_cases i doc :
  select_title i doc =
  match Dom.select Sel.h4 doc with
  | _ :: second :: _ => Js.trim (Dom.textContent second)
  | [first] => Js.trim (Dom.textContent first)
  | [] => default_title i
  end.
Proof.
  unfold select_title.
  destruct (Dom.select Sel.h4 doc) as [|h1 [|h2 l]];
    repeat case_decide; simpl in *; try lia; by rewrite ?string_app_nil_r.
Qed.

(** ** The chapter content *)

Lemma remove_cr_get s k : String.get k (Js.remove_cr s) ≠ Some "013"%char.
Proof.
  revert k. induction s as [|c s IH]; intros k; simpl; [done|].
  case_decide as Hc; [apply IH|]. destruct k; simpl; [congruence|apply IH].
Qed.

Lemma text_cons_text d rest : Dom.text (Text d :: rest) = d +:+ Dom.text rest.
Proof. reflexivity. Qed.

Lemma text_cons_comment d rest : Dom.text (Comment d :: rest) = Dom.text rest.
Proof. reflexivity. Qed.

Lemma text_cons_element name attribs cs rest :
  Dom.text (Element name attribs cs :: rest) = Dom.text cs +:+ Dom.text rest.
Proof.
  reflexivity.
Qed.







(** ** The listing extractor *)

Lemma elem_of_set_add x y ids : x ∈ set_add y ids ↔ x = y ∨ x ∈ ids.
Proof.
  unfold set_add. case_decide as Hy.
  - split; [by right | by intros [->|?]].
  - rewrite elem_of_app, list_elem_of_singleton. tauto.
Qed.

Lemma NoDup_set_add y ids : NoDup ids → NoDup (set_add y ids).
Proof.
  intros Hnd. unfold set_add. case_decide as Hy; [done|].
  apply NoDup_app. split_and!; [done| |apply NoDup_singleton].
  intros x Hx ->%list_elem_of_singleton. done.
Qed.

(** The loop over the links, started from any set. *)
Lemma collect_ids links ids :
  let ids' :=
    foldl (fun ids el =>
             match Dom.attr "href" [el] ≫= match_book_id with
             | Some m1 => set_add m1 ids
             | None => ids
             end) ids links in
  (NoDup ids → NoDup ids') ∧
  (∀ x, x ∈ ids' ↔ x ∈ ids ∨ ∃ el, el ∈ links ∧ link_id el = Some x).
Proof.
  revert ids. induction links as [|el links IH]; intros ids; simpl.
  - split; [done|]. intros x. split; [by left|].
    intros [?|(el & Hel & _)]; [done|]. by apply elem_of_nil in Hel.
  - change (Dom.attr "href" [el]) with (Dom.getAttribute "href" el).
    fold (link_id el). destruct (link_id el) as [m1|] eqn:Hm.
    + destruct (IH (set_add m1 ids)) as [IH1 IH2]. split.
      * intros Hnd. by apply IH1, NoDup_set_add.
      * intros x. rewrite IH2, elem_of_set_add. split.
        -- intros [[->|?]|(el' & Hel' & Hx)]; [right|by left|right].
           ++ exists el. split; [by left|done].
           ++ exists el'. split; [by right|done].
        -- intros [?|(el' & [->|Hel']%elem_of_cons & Hx)]; [by left; right| |].
           ++ left; left. congruence.
           ++ right. by exists el'.
    + destruct (IH ids) as [IH1 IH2]. split; [done|].
      intros x. rewrite IH2. split.
      * intros [?|(el' & Hel' & Hx)]; [by left|]. right. exists el'. split; [by right|done].
      * intros [?|(el' & [->|Hel']%elem_of_cons & Hx)]; [by left|congruence|].
        right. by exists el'.
Qed.

Lemma extract_ids_spec doc :
  NoDup (extract_ids doc) ∧
  StronglySorted String.le (extract_ids doc) ∧
  (∀ x, x ∈ extract_ids doc ↔
        ∃ el, el ∈ Dom.select Sel.book_cover_link doc ∧ link_id el = Some x).
Proof.
  unfold extract_ids.
  destruct (collect_ids (Dom.select Sel.book_cover_link doc) []) as [Hnd Hin].
  simpl in Hnd, Hin. split_and!.
  - rewrite merge_sort_Permutation. apply Hnd, NoDup_nil_2.
  - apply StronglySorted_merge_sort; apply _.
  - intros x. rewrite merge_sort_Permutation, Hin. split; [|by right].
    intros [Hx|?]; [by apply elem_of_nil in Hx|done].
Qed.

Lemma extract_ids_none doc :
  (∀ el, el ∈ Dom.select Sel.book_cover_link doc → link_id el = None) →
  extract_ids doc = [].
Proof.
  intros Hnone. destruct (extract_ids_spec doc) as (_ & _ & Hin).
  destruct (extract_ids doc) as [|x l]; [done|].
  destruct (proj1 (Hin x)) as (el & Hel & Hx); [by left|].
  rewrite (Hnone el Hel) in Hx. done.
Qed.

(** ** The resilient fetcher *)

Section Crawl.

Variable net : trace → string → reply.
Variable parse_html : string → document.
Variable load_object : api_payload → document + string.
Variable book_order : list nat.
Variable chapter_order : string → list nat.
Variable array_limit : N.

Local Abbreviation safeGet' := (safeGet net).
Local Abbreviation safeGet_loop' := (safeGet_loop net).
Local Abbreviation getBookIds' := (getBookIds net parse_html load_object).
Local Abbreviation crawlBookInfo' := (crawlBookInfo net parse_html load_object).
Local Abbreviation crawlFirstNChapters' :=
  (crawlFirstNChapters net parse_html load_object chapter_order array_limit).
Local Abbreviation book_task' := (book_task net parse_html load_object chapter_order array_limit).
Local Abbreviation crawl' := (crawl net parse_html load_object book_order chapter_order array_limit).

(** [safeGet] fulfils with the data of a request or rejects with its own
    error, never with the error of [axios]. *)
Lemma safeGet_loop_outcome url retries ms todo attempt t :
  ∃ t', (∃ d, safeGet_loop' url retries ms todo attempt t = (Ok d, t')) ∨
        safeGet_loop' url retries ms todo attempt t = (Err (FetchError url retries), t').
Proof.
  revert attempt t. induction todo as [|todo IH]; intros attempt t; simpl.
  - eexists. right. reflexivity.
  - unfold catch, axios_get. destruct (net t url) as [d|m].
    + eexists. left. eexists. reflexivity.
    + rewrite run_bind. destruct (decide (attempt < retries)%nat); simpl; apply IH.
Qed.

Lemma safeGet_outcome url retries ms t :
  ∃ t', (∃ d, safeGet' url retries ms t = (Ok d, t')) ∨
        safeGet' url retries ms t = (Err (FetchError url retries), t').
Proof. apply safeGet_loop_outcome. Qed.

(** Against a target that always fails, every iteration left sends one
    request, and the loop ends in [FetchError]. *)
Lemma safeGet_loop_exhaust url retries ms todo attempt t :
  always_fails net url →
  ∃ t', safeGet_loop' url retries ms todo attempt t = (Err (FetchError url retries), t') ∧
        requests url t' = (requests url t + todo)%nat.
Proof.
  intros Hfail. revert attempt t. induction todo as [|todo IH]; intros attempt t; simpl.
  - exists t. split; [reflexivity | lia].
  - unfold catch, axios_get. destruct (Hfail t) as [m ->].
    rewrite run_bind. destruct (decide (attempt < retries)%nat); simpl.
    + destruct (IH (S attempt) ((t ++ [EvGet url]) ++ [EvSleep ms])) as (t' & -> & Hn).
      exists t'. split; [reflexivity|]. rewrite Hn, requests_sleep, requests_get. lia.
    + destruct (IH (S attempt) (t ++ [EvGet url])) as (t' & -> & Hn).
      exists t'. split; [reflexivity|]. rewrite Hn, requests_get. lia.
Qed.

Lemma safeGet_exhaust url retries ms t :
  always_fails net url →
  ∃ t', safeGet' url retries ms t = (Err (FetchError url retries), t') ∧
        requests url t' = (requests url t + retries)%nat.
Proof. apply safeGet_loop_exhaust. Qed.

(** ** Loops that absorb their failures *)

Lemma retry_success {A} (attempt : M A) dflt todo t a t' :
  attempt t = (Ok a, t') → retry attempt dflt (S todo) t = (Ok a, t').
Proof. intros H. simpl. unfold catch. rewrite H. reflexivity. Qed.

Lemma retry_failure {A} (attempt : M A) dflt todo t e t' :
  attempt t = (Err e, t') →
  retry attempt dflt (S todo) t = retry attempt dflt todo (t' ++ [EvSleep RETRY_SLEEP_MS]).
Proof. intros H. simpl. unfold catch. rewrite H. reflexivity. Qed.

Lemma retry_fulfils {A} (attempt : M A) dflt todo t :
  ∃ a t', retry attempt dflt todo t = (Ok a, t').
Proof.
  revert t. induction todo as [|todo IH]; intros t.
  - eexists _, _. reflexivity.
  - destruct (attempt t) as [[a|e] t'] eqn:Hrun.
    + eexists _, _. eapply retry_success, Hrun.
    + erewrite retry_failure by exact Hrun. apply IH.
Qed.

Lemma retry_exhaust {A} (attempt : M A) dflt url k todo t :
  (∀ t, ∃ e t', attempt t = (Err e, t') ∧ requests url t' = (requests url t + k)%nat) →
  ∃ t', retry attempt dflt todo t = (Ok dflt, t') ∧
        requests url t' = (requests url t + todo * k)%nat.
Proof.
  intros Hfail. revert t. induction todo as [|todo IH]; intros t.
  - exists t. split; [reflexivity | lia].
  - destruct (Hfail t) as (e & t1 & Hrun & Hn1).
    erewrite retry_failure by exact Hrun.
    destruct (IH (t1 ++ [EvSleep RETRY_SLEEP_MS])) as (t' & -> & Hn).
    exists t'. split; [reflexivity|]. rewrite Hn, requests_sleep, Hn1. lia.
Qed.

Lemma retry_all_fail {A} (attempt : M A) dflt todo t :
  (∀ t, ∃ e t', attempt t = (Err e, t')) →
  ∃ t', retry attempt dflt todo t = (Ok dflt, t').
Proof.
  intros Hfail. revert t. induction todo as [|todo IH]; intros t.
  - exists t. reflexivity.
  - destruct (Hfail t) as (e & t1 & Hrun).
    erewrite retry_failure by exact Hrun. apply IH.
Qed.

Lemma crawlChapterTitle_loop_retry bookId i todo :
  crawlChapterTitle_loop net parse_html load_object bookId i todo =
  retry (title_attempt net parse_html load_object bookId i) (default_title i) todo.
Proof. induction todo as [|todo IH]; simpl; [reflexivity|]. rewrite IH. reflexivity. Qed.

Lemma crawlChapterContent_loop_retry bookId i todo :
  crawlChapterContent_loop net parse_html load_object bookId i todo =
  retry (content_attempt net parse_html load_object bookId i) "" todo.
Proof. induction todo as [|todo IH]; simpl; [reflexivity|]. rewrite IH. reflexivity. Qed.

(** A failed fetch fails the code that awaits it. *)
Lemma fetch_then_exhaust {A} url (k : resp_data → M A) t :
  always_fails net url →
  ∃ t', (data ← safeGet' url RETRY_TIMES RETRY_SLEEP_MS; k data) t =
          (Err (FetchError url RETRY_TIMES), t') ∧
        requests url t' = (requests url t + RETRY_TIMES)%nat.
Proof.
  intros Hfail.
  destruct (safeGet_exhaust url RETRY_TIMES RETRY_SLEEP_MS t Hfail) as (t' & Hrun & Hn).
  exists t'. split; [|exact Hn]. eapply run_bind_err, Hrun.
Qed.

(** C1 (amended). Against a target that fails at every request, with
    [RETRY_TIMES = 3]: [safeGet] sends exactly 3 requests and rejects with
    its [FetchError], and so do [getBookIds] and [crawlBookInfo], which call
    it once. [crawlChapterTitle] and [crawlChapterContent] run their own loop
    of 3 rounds around [safeGet], so they send exactly 3 * 3 = 9 requests
    before they fulfil with the default title and the empty string. *)
Theorem exhaustion_attempts (url : string) (t : trace) :
  always_fails net url →
  (∃ t', safeGet' url RETRY_TIMES RETRY_SLEEP_MS t = (Err (FetchError url 3), t') ∧
         requests url t' = (requests url t + 3)%nat) ∧
  (∀ page, url = listing_url page →
     ∃ t', getBookIds net parse_html load_object page t = (Err (FetchError url 3), t') ∧
           requests url t' = (requests url t + 3)%nat) ∧
  (∀ bookId, url = book_url bookId →
     ∃ t', crawlBookInfo net parse_html load_object bookId t = (Err (FetchError url 3), t') ∧
           requests url t' = (requests url t + 3)%nat) ∧
  (∀ bookId i, url = title_url bookId i →
     ∃ t', crawlChapterTitle net parse_html load_object bookId i t = (Ok (default_title i), t') ∧
           requests url t' = (requests url t + 9)%nat) ∧
  (∀ bookId i, url = content_url bookId i →
     ∃ t', crawlChapterContent net parse_html load_object bookId i t = (Ok "", t') ∧
           requests url t' = (requests url t + 9)%nat).
Proof.
  intros Hfail. repeat split.
  - apply safeGet_exhaust, Hfail.
  - intros page ->. apply fetch_then_exhaust, Hfail.
  - intros bookId ->. apply fetch_then_exhaust, Hfail.
  - intros bookId i ->. unfold crawlChapterTitle.
    rewrite crawlChapterTitle_loop_retry.
    apply (retry_exhaust _ _ _ 3 3). intros t0. unfold title_attempt.
    destruct (fetch_then_exhaust (title_url bookId i)
                (fun html => doc ← cheerio_load parse_html load_object html;
                             ret (select_title i doc)) t0 Hfail) as (t' & Hrun & Hn).
    eauto.
  - intros bookId i ->. unfold crawlChapterContent.
    rewrite crawlChapterContent_loop_retry.
    apply (retry_exhaust _ _ _ 3 3). intros t0. unfold content_attempt.
    edestruct (@fetch_then_exhaust string (content_url bookId i)) as (t' & Hrun & Hn);
      [exact Hfail|]. eexists _, t'. split; [exact Hrun | exact Hn].
Qed.

(** ** The chapter pipeline *)

Lemma chapter_task_fulfils bookId i t :
  ∃ title content t',
    chapter_task net parse_html load_object bookId i t =
    (Ok {| index := i; ch_title := title; content := content |}, t').
Proof.
  unfold chapter_task, crawlChapterTitle, crawlChapterContent.
  rewrite crawlChapterTitle_loop_retry, crawlChapterContent_loop_retry.
  destruct (retry_fulfils (title_attempt net parse_html load_object bookId i)
              (default_title i) RETRY_TIMES t) as (title & t1 & H1).
  destruct (retry_fulfils (content_attempt net parse_html load_object bookId i)
              "" RETRY_TIMES t1) as (content & t2 & H2).
  exists title, content, t2.
  erewrite run_bind_ok by exact H1. erewrite run_bind_ok by exact H2. reflexivity.
Qed.

(** Every chapter task fulfils, with the index it was launched for. *)
Lemma chapter_outcomes bookId (indices : list Z) :
  let outcomes :=
    (fun task : M ChapterRecord => (task []).1) <$>
    ((fun i => pLimit MAX_CHAPTER_WORKERS (chapter_task net parse_html load_object bookId i))
       <$> indices) in
  Forall is_ok outcomes ∧ index <$> fulfilled outcomes = indices.
Proof.
  induction indices as [|i indices [IH1 IH2]]; simpl; [by split|].
  unfold pLimit at 1 3.
  destruct (chapter_task_fulfils bookId i []) as (title & content & t' & ->).
  split; [by constructor|]. unfold fulfilled in *. simpl. f_equal. exact IH2.
Qed.

Lemma crawlFirstNChapters_run order bookId n t :
  creatable array_limit (Js.ToLength n) →
  ∃ cs t',
    crawlFirstNChapters net parse_html load_object order array_limit bookId n t = (Ok cs, t') ∧
    index <$> cs = (fun i => i + 1) <$> seqZ 0 (Js.ToLength n).
Proof.
  intros Hlen. unfold crawlFirstNChapters, array_from.
  rewrite decide_True by done. rewrite run_bind. simpl.
  set (indices := (fun i => i + 1) <$> seqZ 0 (Js.ToLength n)).
  destruct (chapter_outcomes bookId indices) as [Hok Hidx].
  pose proof (promise_all_fulfils (order bookId) _ t Hok) as Hrun.
  rewrite run_bind.
  destruct (promise_all _ _ t) as [r t'] eqn:Hp. simpl in Hrun. subst r.
  eexists _, t'. split; [reflexivity | exact Hidx].
Qed.

Lemma crawlFirstNChapters_range order bookId n t :
  ¬ creatable array_limit (Js.ToLength n) →
  crawlFirstNChapters net parse_html load_object order array_limit bookId n t = (Err RangeError, t).
Proof.
  intros Hlen. unfold crawlFirstNChapters, array_from.
  rewrite decide_False by done. reflexivity.
Qed.

(** The chapter pipeline does not depend on the completion order. *)
Lemma crawlFirstNChapters_order order1 order2 bookId n t :
  crawlFirstNChapters net parse_html load_object order1 array_limit bookId n t =
  crawlFirstNChapters net parse_html load_object order2 array_limit bookId n t.
Proof.
  destruct (decide (creatable array_limit (Js.ToLength n))) as [Hlen|Hlen];
    [|by rewrite !crawlFirstNChapters_range].
  unfold crawlFirstNChapters, array_from. rewrite decide_True by done.
  rewrite !run_bind. simpl. rewrite !run_bind.
  erewrite (promise_all_order (order1 bookId) (order2 bookId)); [reflexivity|].
  apply chapter_outcomes.
Qed.

(** C4 (amended). For a chapter count [N >= 0] that is an array length the
    engine accepts, the chapter pipeline fulfils with exactly [N] records,
    the one at position [i] carrying the index [i + 1], and it fulfils with
    the same records under every completion order of the chapter tasks. For
    any other [N >= 0] it rejects with [RangeError] before any request. *)
Theorem chapter_pipeline_indices (N : Z) (bookId : string) (t : trace) :
  0 ≤ N →
  (creatable array_limit N →
   ∃ cs t',
     crawlFirstNChapters net parse_html load_object chapter_order array_limit
       bookId (Js.Num N) t = (Ok cs, t') ∧
     length cs = Z.to_nat N ∧
     (∀ i, (i < Z.to_nat N)%nat → index <$> cs !! i = Some (Z.of_nat i + 1)) ∧
     (∀ order, crawlFirstNChapters net parse_html load_object order array_limit
                 bookId (Js.Num N) t = (Ok cs, t'))) ∧
  (¬ creatable array_limit N →
   ∀ order, crawlFirstNChapters net parse_html load_object order array_limit
              bookId (Js.Num N) t = (Err RangeError, t)).
Proof.
  intros HN. split.
  - intros Hok.
    assert (Js.ToLength (Js.Num N) = N) as HL by (destruct Hok; simpl; lia).
    destruct (crawlFirstNChapters_run chapter_order bookId (Js.Num N) t)
      as (cs & t' & Hrun & Hidx); [by rewrite HL|].
    rewrite HL in Hidx. exists cs, t'. split_and!.
    + exact Hrun.
    + rewrite <- (length_fmap index), Hidx, length_fmap, length_seqZ. reflexivity.
    + intros i Hi. rewrite <- list_lookup_fmap, Hidx, list_lookup_fmap.
      rewrite lookup_seqZ_lt by lia. simpl. f_equal; lia.
    + intros order. rewrite <- Hrun. apply crawlFirstNChapters_order.
  - intros Hno order. apply crawlFirstNChapters_range.
    intros [Hlt Hle]. apply Hno. simpl in Hlt, Hle. split; lia.
Qed.

(** ** The book pipeline *)

Lemma crawlBookInfo_id bookId t info t' :
  crawlBookInfo' bookId t = (Ok info, t') → id info = bookId.
Proof.
  unfold crawlBookInfo. rewrite run_bind.
  destruct (safeGet' _ _ _ t) as [[d|e] t1]; [|done].
  rewrite run_bind. destruct (cheerio_load _ _ d t1) as [[doc|e] t2]; [|done].
  intros [= <- <-]. reflexivity.
Qed.

(** The three ways a book task ends. *)
Lemma book_task_outcome n bookId t :
  match (crawlBookInfo' bookId t).1 with
  | Err e => (book_task' n bookId t).1 = Err e
  | Ok info =>
      if decide (creatable array_limit (Js.ToLength n)) then
        ∃ cs, (book_task' n bookId t).1 = Ok (set_chapters info cs) ∧
              index <$> cs = (fun i => i + 1) <$> seqZ 0 (Js.ToLength n)
      else (book_task' n bookId t).1 = Err RangeError
  end.
Proof.
  unfold book_task. rewrite run_bind.
  destruct (crawlBookInfo' bookId t) as [[info|e] t1]; [|done]. simpl.
  rewrite run_bind. case_decide as Hlen.
  - destruct (crawlFirstNChapters_run chapter_order bookId n t1 Hlen)
      as (cs & t2 & -> & Hidx). eauto.
  - by rewrite crawlFirstNChapters_range.
Qed.

Lemma book_task_id n bookId t r :
  (book_task' n bookId t).1 = Ok r → id r = bookId.
Proof.
  intros Hrun. pose proof (book_task_outcome n bookId t) as Hout.
  destruct (crawlBookInfo' bookId t) as [[info|e] t1] eqn:Hinfo; simpl in Hout;
    [|congruence].
  apply crawlBookInfo_id in Hinfo. case_decide; [|congruence].
  destruct Hout as (cs & Hr & _). rewrite Hr in Hrun. by simplify_eq/=.
Qed.

(** The values of a fan-out line up with the arguments of its tasks. *)
Lemma fulfilled_fmap {A B} (f : A → M B) (l : list A) :
  Forall is_ok ((fun task : M B => (task []).1) <$> (f <$> l)) →
  Forall2 (fun a b => (f a []).1 = Ok b) l
    (fulfilled ((fun task : M B => (task []).1) <$> (f <$> l))).
Proof.
  induction l as [|a l IH]; simpl; [constructor|].
  intros [Ha Hl]%Forall_cons. unfold fulfilled in *. simpl.
  destruct (f a []).1 as [b|e] eqn:Hb; [|done]. constructor; [done|]. by apply IH.
Qed.

(** ** The route *)

Lemma crawl_listing_rejects qp qn t e t' :
  getBookIds' (Js.parseInt (Js.or_else qp "1")) t = (Err e, t') →
  crawl' qp qn t = (Ok (server_error e), t').
Proof.
  intros Hids. unfold crawl.
  erewrite run_catch_err; [reflexivity|]. eapply run_bind_err, Hids.
Qed.

Lemma crawl_no_book qp qn t t' :
  getBookIds' (Js.parseInt (Js.or_else qp "1")) t = (Ok [], t') →
  crawl' qp qn t = (Ok not_found, t').
Proof.
  intros Hids. unfold crawl.
  erewrite run_catch_ok; [reflexivity|]. erewrite run_bind_ok by exact Hids. reflexivity.
Qed.

Lemma crawl_fan_out qp qn t ids t' :
  getBookIds' (Js.parseInt (Js.or_else qp "1")) t = (Ok ids, t') → ids ≠ [] →
  (crawl' qp qn t).1 =
  match (promise_all book_order
           ((fun bookId => pLimit MAX_BOOK_WORKERS
                             (book_task' (Js.parseInt (Js.or_else qn "5")) bookId)) <$> ids) t').1 with
  | Ok results => Ok (success results)
  | Err e => Ok (server_error e)
  end.
Proof.
  intros Hids Hne. unfold crawl, catch.
  erewrite run_bind_ok by exact Hids.
  rewrite decide_False by (by destruct ids).
  rewrite run_bind. by destruct (promise_all _ _ t') as [[rs|e] t1].
Qed.

(** Once the listing has produced identifiers, the route answers with the
    records of all the book tasks, in the order of the identifiers, or with
    the error of a book task that rejected. *)
Lemma crawl_outcome qp qn t ids t' :
  getBookIds' (Js.parseInt (Js.or_else qp "1")) t = (Ok ids, t') → ids ≠ [] →
  (∃ rs, (crawl' qp qn t).1 = Ok (success rs) ∧
         Forall2 (fun bookId r =>
                    (book_task' (Js.parseInt (Js.or_else qn "5")) bookId []).1 = Ok r) ids rs) ∨
  (∃ bookId e, bookId ∈ ids ∧
         (book_task' (Js.parseInt (Js.or_else qn "5")) bookId []).1 = Err e ∧
         (crawl' qp qn t).1 = Ok (server_error e)).
Proof.
  intros Hids Hne. rewrite (crawl_fan_out qp qn t ids t' Hids Hne).
  set (n := Js.parseInt (Js.or_else qn "5")).
  set (tasks := (fun bookId => pLimit MAX_BOOK_WORKERS (book_task' n bookId)) <$> ids).
  destruct (promise_all_run book_order tasks t') as [_ Hrun].
  destruct (promise_all book_order tasks t').1 as [rs|e].
  - left. exists rs. split; [done|]. destruct Hrun as [Hok ->].
    by apply (fulfilled_fmap (fun bookId => pLimit MAX_BOOK_WORKERS (book_task' n bookId))).
  - right. apply list_elem_of_fmap in Hrun as (task & He & Htask).
    apply list_elem_of_fmap in Htask as (bookId & -> & Hin). by exists bookId, e.
Qed.

Lemma Forall2_ids n ids rs :
  Forall2 (fun bookId r => (book_task' n bookId []).1 = Ok r) ids rs → id <$> rs = ids.
Proof.
  induction 1 as [|bookId r ids rs Hr _ IH]; simpl; [done|].
  f_equal; [by eapply book_task_id | exact IH].
Qed.

(** C2. A rejected listing fetch or a rejected metadata fetch of any book
    makes the route answer 500 with the message of a rejection. The chapter
    title and chapter content fetches never reject: when each of their
    rounds fails they fulfil with the default title and with the empty
    string. So the route answers 200 as soon as the listing and every
    metadata fetch fulfil (and the chapter count is an array length the
    engine accepts), whatever happens to the chapter fetches. *)
Theorem failure_asymmetry (qp qn : option string) (t : trace) :
  let page := Js.parseInt (Js.or_else qp "1") in
  let n := Js.parseInt (Js.or_else qn "5") in
  (∀ e t', getBookIds' page t = (Err e, t') → (crawl' qp qn t).1 = Ok (server_error e)) ∧
  (∀ ids t' bookId e,
     getBookIds' page t = (Ok ids, t') → bookId ∈ ids →
     (crawlBookInfo' bookId []).1 = Err e →
     ∃ bookId' e', bookId' ∈ ids ∧ (book_task' n bookId' []).1 = Err e' ∧
                   (crawl' qp qn t).1 = Ok (server_error e')) ∧
  (∀ bookId i t0,
     (∃ s t1, crawlChapterTitle net parse_html load_object bookId i t0 = (Ok s, t1)) ∧
     (∃ s t1, crawlChapterContent net parse_html load_object bookId i t0 = (Ok s, t1))) ∧
  (∀ bookId i t0,
     (∀ t1, ∃ e t2, title_attempt net parse_html load_object bookId i t1 = (Err e, t2)) →
     (crawlChapterTitle net parse_html load_object bookId i t0).1 = Ok (default_title i)) ∧
  (∀ bookId i t0,
     (∀ t1, ∃ e t2, content_attempt net parse_html load_object bookId i t1 = (Err e, t2)) →
     (crawlChapterContent net parse_html load_object bookId i t0).1 = Ok "") ∧
  (∀ ids t',
     getBookIds' page t = (Ok ids, t') → ids ≠ [] →
     (∀ bookId, bookId ∈ ids → is_ok (crawlBookInfo' bookId []).1) →
     creatable array_limit (Js.ToLength n) →
     ∃ rs, (crawl' qp qn t).1 = Ok (success rs)).
Proof.
  intros page n. split_and!.
  - intros e t' Hids. by rewrite (crawl_listing_rejects qp qn t e t' Hids).
  - intros ids t' bookId e Hids Hin Hinfo.
    destruct (crawl_outcome qp qn t ids t' Hids) as [(rs & _ & Hall)|Hrej];
      [by destruct ids; [apply elem_of_nil in Hin|] | | exact Hrej].
    exfalso. apply list_elem_of_lookup in Hin as [k Hk].
    destruct (Forall2_lookup_l _ _ _ _ _ Hall Hk) as (r & _ & Hr).
    pose proof (book_task_outcome n bookId []) as Hout.
    rewrite Hinfo in Hout. fold n in Hr. congruence.
  - intros bookId i t0. unfold crawlChapterTitle, crawlChapterContent.
    rewrite crawlChapterTitle_loop_retry, crawlChapterContent_loop_retry.
    split; apply retry_fulfils.
  - intros bookId i t0 Hfail. unfold crawlChapterTitle.
    rewrite crawlChapterTitle_loop_retry.
    by destruct (retry_all_fail _ (default_title i) RETRY_TIMES t0 Hfail) as (t1 & ->).
  - intros bookId i t0 Hfail. unfold crawlChapterContent.
    rewrite crawlChapterContent_loop_retry.
    by destruct (retry_all_fail _ "" RETRY_TIMES t0 Hfail) as (t1 & ->).
  - intros ids t' Hids Hne Hinfo Hlen.
    destruct (crawl_outcome qp qn t ids t' Hids Hne) as [(rs & Hrs & _)|(bookId & e & Hin & He & _)];
      [by exists rs|].
    exfalso. pose proof (book_task_outcome n bookId []) as Hout.
    specialize (Hinfo bookId Hin).
    destruct (crawlBookInfo' bookId []).1 as [info|e']; [|done].
    rewrite decide_True in Hout by done. destruct Hout as (cs & Hcs & _).
    fold n in He. congruence.
Qed.

Lemma book_task_fulfils n bookId :
  is_ok (crawlBookInfo' bookId []).1 → creatable array_limit (Js.ToLength n) →
  ∃ info cs, (crawlBookInfo' bookId []).1 = Ok info ∧
             (book_task' n bookId []).1 = Ok (set_chapters info cs) ∧
             index <$> cs = (fun i => i + 1) <$> seqZ 0 (Js.ToLength n).
Proof.
  intros Hinfo Hlen. pose proof (book_task_outcome n bookId []) as Hout.
  destruct (crawlBookInfo' bookId []).1 as [info|e]; [|done].
  rewrite decide_True in Hout by done. destruct Hout as (cs & Hcs & Hidx).
  by exists info, cs.
Qed.



(** C10. When [num_chapters] parses to [NaN] or to a value that is not
    positive, the chapter pipeline fulfils with no record and sends no
    request, and the route, once the listing is not empty and every
    metadata fetch fulfils, answers 200 with one record per identifier, each
    with an empty [chapters]. *)
Theorem no_chapters_without_positive_count (qp qn : option string) (t : trace) :
  let page := Js.parseInt (Js.or_else qp "1") in
  let n := Js.parseInt (Js.or_else qn "5") in
  (n = Js.NaN ∨ ∃ z, n = Js.Num z ∧ z ≤ 0) →
  (∀ bookId t0, crawlFirstNChapters' bookId n t0 = (Ok [], t0)) ∧
  (∀ ids t',
     getBookIds' page t = (Ok ids, t') → ids ≠ [] →
     (∀ bookId, bookId ∈ ids → is_ok (crawlBookInfo' bookId []).1) →
     ∃ rs, (crawl' qp qn t).1 = Ok (success rs) ∧ id <$> rs = ids ∧
           Forall (fun r => chapters r = Some []) rs).
Proof.
  intros page n Hn.
  assert (Js.ToLength n = 0) as Hlen.
  { destruct Hn as [->|(z & -> & Hz)]; simpl; lia. }
  assert (creatable array_limit (Js.ToLength n)) as Hok
    by (rewrite Hlen; unfold creatable; lia).
  split.
  - intros bookId t0. unfold crawlFirstNChapters, array_from.
    rewrite decide_True by done. rewrite Hlen. simpl.
    rewrite run_bind. simpl. rewrite run_bind. unfold promise_all. simpl.
    by rewrite app_nil_r.
  - intros ids t' Hids Hne Hinfo.
    assert (∀ bookId, bookId ∈ ids →
              ∃ info, (book_task' n bookId []).1 = Ok (set_chapters info [])) as Htask.
    { intros bookId Hin.
      destruct (book_task_fulfils n bookId (Hinfo bookId Hin) Hok)
        as (info & cs & _ & Hcs & Hidx).
      rewrite Hlen in Hidx. apply fmap_nil_inv in Hidx as ->. by exists info. }
    destruct (crawl_outcome qp qn t ids t' Hids Hne)
      as [(rs & Hrs & Hall)|(bookId & e & Hin & He & _)]; fold n in Hall || fold n in He.
    + exists rs. split_and!; [done | by eapply Forall2_ids |].
      apply Forall_lookup_2. intros k r Hk.
      destruct (Forall2_lookup_r _ _ _ _ _ Hall Hk) as (bookId & Hb & Hr).
      destruct (Htask bookId) as (info & Hi); [by eapply list_elem_of_lookup_2|].
      rewrite Hi in Hr. by injection Hr as <-.
    + destruct (Htask bookId Hin) as (info & Hi). congruence.
Qed.

(** ** The pages *)

(** C7. When the listing page is fetched, [getBookIds] fulfils with exactly
    the identifiers that the pattern captures in the [href] of the
    [a.bookImg[href]] links (for each such [href], the run of decimal digits
    at the leftmost place where ["/book/"], one digit or more and ["/"]
    follow one another), each once, in lexicographic order of strings (so
    ["50"] comes before ["6"]); when no [href] has such a place it fulfils
    with the empty list. *)
Theorem listing_identifiers (page : Js.number) (t t' : trace) (html : string) :
  safeGet net (listing_url page) RETRY_TIMES RETRY_SLEEP_MS t = (Ok (Body html), t') →
  let links := Dom.select Sel.book_cover_link (parse_html html) in
  ∃ ids,
    getBookIds' page t = (Ok ids, t') ∧
    NoDup ids ∧
    StronglySorted String.le ids ∧
    (∀ x, x ∈ ids ↔
          ∃ el href, el ∈ links ∧ Dom.getAttribute "href" el = Some href ∧
                     captured href x) ∧
    ((∀ el href x, el ∈ links → Dom.getAttribute "href" el = Some href →
                   ¬ captured href x) → ids = []) ∧
    (String.le "50" "6" ∧ ¬ String.le "6" "50").
Proof.
  intros Hget links. exists (extract_ids (parse_html html)).
  destruct (extract_ids_spec (parse_html html)) as (Hnd & Hsorted & Hin).
  split_and!; try done.
  - unfold getBookIds. erewrite run_bind_ok by exact Hget. reflexivity.
  - intros x. rewrite Hin. unfold link_id. fold links. split.
    + intros (el & Hel & Hx). destruct (Dom.getAttribute "href" el) as [href|] eqn:Hhref; [|done].
      exists el, href. split_and!; [done..|]. by apply match_book_id_captured.
    + intros (el & href & Hel & Hhref & Hx%match_book_id_captured). exists el.
      by rewrite Hhref.
  - intros Hnone. apply extract_ids_none. intros el Hel. unfold link_id.
    destruct (Dom.getAttribute "href" el) as [href|] eqn:Hhref; [|done]. simpl.
    destruct (match_book_id href) as [x|] eqn:Hx; [|done].
    apply match_book_id_captured in Hx. by destruct (Hnone el href x).
  - intros Hle. by vm_compute in Hle.
Qed.

(** C8 (amended). When the chapter page is fetched, the title is the
    trimmed text of the second [h4] element if the page has at least two, of
    the only one if it has one, and otherwise the word of the source,
    ["Chương"] (not ["Chapter"]), followed by the chapter index; this holds
    in every round of the loop. *)
Theorem chapter_title_selection (bookId : string) (i : Z) (todo : nat)
    (t t' : trace) (html : string) :
  safeGet net (title_url bookId i) RETRY_TIMES RETRY_SLEEP_MS t = (Ok (Body html), t') →
  let title :=
    match Dom.select Sel.h4 (parse_html html) with
    | _ :: second :: _ => Js.trim (Dom.textContent second)
    | [first] => Js.trim (Dom.textContent first)
    | [] => "Chương " +:+ pretty i
    end in
  crawlChapterTitle_loop net parse_html load_object bookId i (S todo) t = (Ok title, t') ∧
  crawlChapterTitle net parse_html load_object bookId i t = (Ok title, t').
Proof.
  intros Hget title.
  assert (title_attempt net parse_html load_object bookId i t = (Ok title, t')) as Hatt.
  { assert (title = select_title i (parse_html html)) as ->
      by (unfold title; by rewrite select_title_cases).
    unfold title_attempt. erewrite run_bind_ok by exact Hget. reflexivity. }
  split.
  - rewrite crawlChapterTitle_loop_retry. by apply retry_success.
  - unfold crawlChapterTitle. rewrite crawlChapterTitle_loop_retry.
    by apply retry_success.
Qed.


End Crawl.

(** * The properties on the fixture site *)

Lemma down_always_fails url : always_fails Fixture.down url.
Proof. intros t. eexists. reflexivity. Qed.

(** The engine of the fixture builds the arrays shorter than 2^27. *)
Lemma fixture_creatable (len : Z) :
  creatable Fixture.array_limit len ↔ len < 2 ^ 27.
Proof. unfold creatable, Fixture.array_limit. lia. Qed.

(** C1, as stated, fails on the chapter path: against a site that never
    answers, [crawlChapterTitle] sends 9 requests, not 3, before it returns
    the default title. *)
Lemma chapter_path_attempts_counterexample :
  let run := crawlChapterTitle Fixture.down Fixture.pages Fixture.no_object "5" 1 [] in
  always_fails Fixture.down (title_url "5" 1) ∧
  run.1 = Ok (default_title 1) ∧
  requests (title_url "5" 1) run.2 = 9%nat ∧
  requests (title_url "5" 1) run.2 ≠ 3%nat.
Proof.
  split; [apply down_always_fails|]. by vm_compute.
Qed.

Lemma exhaustion_attempts_witness :
  always_fails Fixture.down (content_url "5" 1) ∧
  ∃ t', crawlChapterContent Fixture.down Fixture.pages Fixture.no_object "5" 1 [] = (Ok "", t') ∧
        requests (content_url "5" 1) t' = 9%nat.
Proof.
  split; [intros t; eexists; reflexivity|].
  apply (exhaustion_attempts Fixture.down Fixture.pages Fixture.no_object
           (content_url "5" 1) []); [intros t; eexists; reflexivity | reflexivity].
Defined.

Lemma failure_asymmetry_witness :
  ("50" ∈ ["50"; "6"] ∧
   ∃ bookId e,
     (crawl Fixture.broken_site Fixture.pages Fixture.no_object [1; 0]%nat (fun _ => [])
        Fixture.array_limit None None []).1 = Ok (server_error e) ∧
     (book_task Fixture.broken_site Fixture.pages Fixture.no_object (fun _ => [])
        Fixture.array_limit (Js.Num 5) bookId []).1 = Err e) ∧
  (always_fails Fixture.chapterless_site (title_url "6" 1) ∧
   always_fails Fixture.chapterless_site (content_url "6" 1) ∧
   creatable Fixture.array_limit (Js.ToLength (Js.parseInt (Js.or_else (Some "1") "5"))) ∧
   ∃ rs, (crawl Fixture.chapterless_site Fixture.pages Fixture.no_object [1; 0]%nat
            (fun _ => []) Fixture.array_limit None (Some "1") []).1 = Ok (success rs)).
Proof.
  split.
  - split; [by left|].
    destruct (failure_asymmetry Fixture.broken_site Fixture.pages Fixture.no_object
                [1; 0]%nat (fun _ => []) Fixture.array_limit None None []) as (_ & Hmeta & _).
    destruct (Hmeta ["50"; "6"] [EvGet (listing_url (Js.Num 1))] "50"
                (FetchError (book_url "50") 3))
      as (bookId & e & _ & Htask & Hrun);
      [reflexivity | by left | reflexivity |].
    exists bookId, e. split; [exact Hrun | exact Htask].
  - assert (creatable Fixture.array_limit
              (Js.ToLength (Js.parseInt (Js.or_else (Some "1") "5")))) as Hlen.
    { apply fixture_creatable. vm_compute. reflexivity. }
    split; [intros t; eexists; vm_compute; reflexivity|].
    split; [intros t; eexists; vm_compute; reflexivity|].
    split; [exact Hlen|].
    destruct (failure_asymmetry Fixture.chapterless_site Fixture.pages Fixture.no_object
                [1; 0]%nat (fun _ => []) Fixture.array_limit None (Some "1") [])
      as (_ & _ & _ & _ & _ & Hok).
    apply (Hok ["50"; "6"] [EvGet (listing_url (Js.Num 1))]).
    + vm_compute. reflexivity.
    + discriminate.
    + intros bookId Hin. apply elem_of_cons in Hin as [->|Hin].
      * vm_compute. exact I.
      * apply elem_of_cons in Hin as [->|Hin].
        -- vm_compute. exact I.
        -- apply elem_of_nil in Hin. destruct Hin.
    + exact Hlen.
Defined.

(** C3, as stated, fails when the [og:image] element is absent: the bare
    media host is kept as the cover image. *)
Lemma cover_fallback_counterexample :
  is_placeholder (normalize_url (cover_candidate Fixture.bare_host_doc)) = true ∧
  Dom.select Sel.og_image Fixture.bare_host_doc = [] ∧
  cover_image (extract_info "5" Fixture.bare_host_doc) = "https://media3.tadu.com/" ∧
  cover_image (extract_info "5" Fixture.bare_host_doc) ≠ "".
Proof. by vm_compute. Qed.

Lemma cover_fallback_witness :
  is_placeholder (normalize_url (cover_candidate Fixture.bare_host_doc)) = true ∧
  cover_image (extract_info "5" Fixture.bare_host_doc) = "https://media3.tadu.com/".
Proof.
  split; [reflexivity|].
  destruct (cover_fallback "5" Fixture.bare_host_doc) as (_ & _ & Hkeep & _).
  apply Hkeep; [reflexivity | left; reflexivity].
Defined.

(** C4, as stated, fails for a chapter count of 2^32: no array of that
    length exists, and the pipeline rejects. *)
Lemma chapter_pipeline_counterexample :
  0 ≤ 2 ^ 32 ∧
  crawlFirstNChapters Fixture.site Fixture.pages Fixture.no_object (fun _ => [])
    Fixture.array_limit "6" (Js.Num (2 ^ 32)) [] = (Err RangeError, []).
Proof. split; [done|]. by vm_compute. Qed.

Lemma chapter_pipeline_indices_witness :
  0 ≤ 2 ∧ creatable Fixture.array_limit 2 ∧
  0 ≤ 2 ^ 27 ∧ ¬ creatable Fixture.array_limit (2 ^ 27) ∧
  (∃ cs t',
     crawlFirstNChapters Fixture.site Fixture.pages Fixture.no_object (fun _ => [1; 0]%nat)
       Fixture.array_limit "6" (Js.Num 2) [] = (Ok cs, t') ∧
     length cs = 2%nat ∧
     (∀ i, (i < 2)%nat → index <$> cs !! i = Some (Z.of_nat i + 1))) ∧
  crawlFirstNChapters Fixture.site Fixture.pages Fixture.no_object (fun _ => [1; 0]%nat)
    Fixture.array_limit "6" (Js.Num (2 ^ 27)) [] = (Err RangeError, []).
Proof.
  assert (creatable Fixture.array_limit 2) as Hok by (apply fixture_creatable; lia).
  assert (¬ creatable Fixture.array_limit (2 ^ 27)) as Hno
    by (rewrite fixture_creatable; lia).
  split; [lia|]. split; [exact Hok|]. split; [lia|]. split; [exact Hno|]. split.
  - destruct (chapter_pipeline_indices Fixture.site Fixture.pages Fixture.no_object
                (fun _ => [1; 0]%nat) Fixture.array_limit 2 "6" []) as [Hsome _]; [lia|].
    destruct (Hsome Hok) as (cs & t' & Hrun & Hlen & Hidx & _).
    exists cs, t'. split; [exact Hrun|]. split; [exact Hlen | exact Hidx].
  - destruct (chapter_pipeline_indices Fixture.site Fixture.pages Fixture.no_object
                (fun _ => [1; 0]%nat) Fixture.array_limit (2 ^ 27) "6" []) as [_ Hnone]; [lia|].
    apply (Hnone Hno).
Defined.


(** C6, as stated, fails when the lazy-load attribute is empty: the direct
    source wins. *)
Lemma cover_precedence_counterexample :
  ∃ el v,
    first_match Sel.lazy_img Fixture.empty_lazy_doc el ∧
    Dom.getAttribute "data-src" el = Some v ∧
    Dom.getAttribute "src" el = Some "a.jpg" ∧
    cover_candidate Fixture.empty_lazy_doc = "a.jpg" ∧
    cover_candidate Fixture.empty_lazy_doc ≠ v.
Proof.
  eexists _, _. split; [apply head_select; reflexivity|]. by vm_compute.
Qed.

Lemma cover_precedence_witness :
  ∃ el,
    first_match Sel.lazy_img Fixture.book_doc el ∧
    Dom.getAttribute "data-src" el = Some "//media3.tadu.com/lazy.jpg" ∧
    Dom.getAttribute "src" el = Some "/direct.jpg" ∧
    cover_candidate Fixture.book_doc = "//media3.tadu.com/lazy.jpg".
Proof.
  eexists. split; [apply head_select; reflexivity|].
  split; [reflexivity|]. split; [reflexivity|].
  destruct (cover_precedence "6" Fixture.book_doc) as [Hlazy _].
  eapply Hlazy; [apply head_select; reflexivity | reflexivity | discriminate].
Defined.

Lemma listing_identifiers_witness :
  safeGet Fixture.site (listing_url (Js.Num 1)) RETRY_TIMES RETRY_SLEEP_MS []
  = (Ok (Body "listing"), [EvGet (listing_url (Js.Num 1))]) ∧
  getBookIds Fixture.site Fixture.pages Fixture.no_object (Js.Num 1) []
  = (Ok ["50"; "6"], [EvGet (listing_url (Js.Num 1))]) ∧
  ∃ el, el ∈ Dom.select Sel.book_cover_link (Fixture.pages "listing") ∧
        Dom.getAttribute "href" el = Some "//www.tadu.com/book/50/?from=store" ∧
        captured "//www.tadu.com/book/50/?from=store" "50".
Proof.
  split; [reflexivity|].
  destruct (listing_identifiers Fixture.site Fixture.pages Fixture.no_object (Js.Num 1) []
              [EvGet (listing_url (Js.Num 1))] "listing") as (ids & Hrun & _ & _ & Hin & _);
    [reflexivity|].
  assert (ids = ["50"; "6"]) as ->.
  { assert (getBookIds Fixture.site Fixture.pages Fixture.no_object (Js.Num 1) []
            = (Ok ["50"; "6"], [EvGet (listing_url (Js.Num 1))])) as Hrun'
      by (vm_compute; reflexivity).
    rewrite Hrun in Hrun'. by injection Hrun'. }
  split; [exact Hrun|].
  destruct (proj1 (Hin "50")) as (el & href & Hel & Hhref & Hcap); [by left|].
  assert (href = "//www.tadu.com/book/50/?from=store") as ->.
  { assert (Dom.select Sel.book_cover_link (Fixture.pages "listing") =
            [Fixture.link "/book/6/"; Fixture.link "//www.tadu.com/book/50/?from=store";
             Fixture.link "/book/6/"; Fixture.link "/store/"]) as Hlinks
      by (vm_compute; reflexivity).
    rewrite Hlinks in Hel.
    assert (∀ h, Dom.getAttribute "href" (Fixture.link h) = Some h) as Hlink by done.
    assert (match_book_id href = Some "50") as Hm by (by apply match_book_id_captured).
    repeat (apply elem_of_cons in Hel as [->|Hel]);
      [rewrite Hlink in Hhref; injection Hhref as <-..|by apply elem_of_nil in Hel];
      try done; by vm_compute in Hm. }
  by exists el.
Defined.

(** C8, as stated, fails on a chapter page without a heading: the default
    title is the word of the source, ["Chương"], followed by the index, not
    ["Chapter"] followed by the index. *)
Lemma chapter_title_counterexample :
  let run := crawlChapterTitle Fixture.untitled Fixture.pages Fixture.no_object "6" 1 [] in
  safeGet Fixture.untitled (title_url "6" 1) RETRY_TIMES RETRY_SLEEP_MS []
  = (Ok (Body "nothing"), [EvGet (title_url "6" 1)]) ∧
  Dom.select Sel.h4 (Fixture.pages "nothing") = [] ∧
  run.1 = Ok "Chương 1" ∧
  run.1 ≠ Ok "Chapter 1".
Proof. by vm_compute. Qed.

Lemma chapter_title_selection_witness :
  safeGet Fixture.site (title_url "6" 1) RETRY_TIMES RETRY_SLEEP_MS []
  = (Ok (Body "chapter"), [EvGet (title_url "6" 1)]) ∧
  crawlChapterTitle Fixture.site Fixture.pages Fixture.no_object "6" 1 []
  = (Ok "The first day", [EvGet (title_url "6" 1)]).
Proof.
  split; [reflexivity|].
  apply (chapter_title_selection Fixture.site Fixture.pages Fixture.no_object "6" 1 0%nat []
           [EvGet (title_url "6" 1)] "chapter"). reflexivity.
Defined.


Lemma no_chapters_without_positive_count_witness :
  (Js.parseInt (Js.or_else (Some "-3") "5") = Js.NaN ∨
   ∃ z, Js.parseInt (Js.or_else (Some "-3") "5") = Js.Num z ∧ z ≤ 0) ∧
  ∃ rs, (crawl Fixture.site Fixture.pages Fixture.no_object [1; 0]%nat (fun _ => []) Fixture.array_limit
           None (Some "-3") []).1 = Ok (success rs) ∧
        id <$> rs = ["50"; "6"] ∧ Forall (fun r => chapters r = Some []) rs.
Proof.
  assert (Js.parseInt (Js.or_else (Some "-3") "5") = Js.NaN ∨
          ∃ z, Js.parseInt (Js.or_else (Some "-3") "5") = Js.Num z ∧ z ≤ 0) as Hn.
  { right. exists (-3). split; [vm_compute; reflexivity | lia]. }
  split; [exact Hn|].
  destruct (no_chapters_without_positive_count Fixture.site Fixture.pages Fixture.no_object
              [1; 0]%nat (fun _ => []) Fixture.array_limit None (Some "-3") [] Hn) as [_ Hroute].
  apply (Hroute ["50"; "6"] [EvGet (listing_url (Js.Num 1))]).
  - vm_compute. reflexivity.
  - discriminate.
  - intros bookId Hin. apply elem_of_cons in Hin as [->|Hin].
    + vm_compute. exact I.
    + apply elem_of_cons in Hin as [->|Hin].
      * vm_compute. exact I.
      * apply elem_of_nil in Hin. destruct Hin.
Defined.

(** The end-to-end run of the fixture: page 1 with two chapters per book
    gives two records, each with the chapters 1 and 2. *)
Example end_to_end :
  ∃ rs : list BookRecord,
    (crawl Fixture.site Fixture.pages Fixture.no_object [1; 0]%nat (fun _ => [1; 0]%nat) Fixture.array_limit
       (Some "1") (Some "2") []).1 = Ok (success rs) ∧
    id <$> rs = ["50"; "6"] ∧
    (fun r : BookRecord => option_map (List.map index) (chapters r)) <$> rs
    = [Some [1; 2]; Some [1; 2]].
Proof. eexists. by vm_compute. Qed.

(** The listing sort is the order of strings, not of numbers. *)
Example listing_order : extract_ids Fixture.listing_doc = ["50"; "6"].
Proof. by vm_compute. Qed.

Example parseInt_examples :
  Js.parseInt "5" = Js.Num 5 ∧ Js.parseInt " -12px" = Js.Num (-12) ∧
  Js.parseInt "0x1f" = Js.Num 31 ∧ Js.parseInt "abc" = Js.NaN ∧
  Js.parseInt "" = Js.NaN.
Proof. by vm_compute. Qed.

Example media_host_examples :
  media_host_test <$> ["https://media3.tadu.com"; "https://media3.tadu.com/";
                       "https://media12.tadu.com//"; "https://media3.tadu.com///";
                       "https://media.tadu.com/"; "https://media3.tadu.com/a.jpg"]
  = [true; true; true; false; false; false].
Proof. by vm_compute. Qed.
(** * Further properties *)

(** ** Traces *)

Lemma gets_app t1 t2 : gets (t1 ++ t2) = (gets t1 + gets t2)%nat.
Proof. induction t1 as [|[u|ms] t1 IH]; simpl; lia. Qed.

Lemma sleeps_app t1 t2 : sleeps (t1 ++ t2) = (sleeps t1 + sleeps t2)%nat.
Proof. induction t1 as [|[u|ms] t1 IH]; simpl; lia. Qed.

Lemma waited_app t1 t2 : waited (t1 ++ t2) = waited t1 + waited t2.
Proof. induction t1 as [|[u|ms] t1 IH]; simpl; lia. Qed.

Lemma within_app urls t1 t2 : within urls (t1 ++ t2) ↔ within urls t1 ∧ within urls t2.
Proof. apply Forall_app. Qed.

Lemma within_mono (urls1 urls2 : string → Prop) t :
  (∀ u, urls1 u → urls2 u) → within urls1 t → within urls2 t.
Proof.
  intros Hsub Hin. unfold within in *. eapply Forall_impl; [exact Hin|].
  intros [u|ms]; [apply Hsub|done].
Qed.

Lemma within_waited urls t : within urls t → waited t = Z.of_nat (sleeps t) * RETRY_SLEEP_MS.
Proof.
  induction 1 as [|[u|ms] t He _ IH]; simpl; [done|done|]. rewrite IH, He. lia.
Qed.

Section Traces.

Variable net : trace → string → reply.
Variable parse_html : string → document.
Variable load_object : api_payload → document + string.

(** What one call of the loop of [safeGet] adds to the trace. *)
Lemma safeGet_loop_trace url retries ms todo attempt t :
  (attempt + todo = S retries)%nat →
  ∃ dt,
    (safeGet_loop net url retries ms todo attempt t).2 = t ++ dt ∧
    Forall (fun e => e = EvGet url ∨ e = EvSleep ms) dt ∧
    (gets dt ≤ todo)%nat ∧ (0 < todo → 0 < gets dt)%nat ∧
    sleeps dt = (gets dt - 1)%nat ∧
    match (safeGet_loop net url retries ms todo attempt t).1 with
    | Ok d => ∃ t0, t ++ dt = t0 ++ [EvGet url] ∧ net t0 url = Data d
    | Err e => e = FetchError url retries ∧ gets dt = todo
    end.
Proof.
  revert attempt t. induction todo as [|todo IH]; intros attempt t Hatt; simpl.
  - exists []. rewrite app_nil_r. split_and!; try done; lia.
  - unfold catch, axios_get. destruct (net t url) as [d|m] eqn:Hnet.
    + exists [EvGet url]. simpl. split_and!.
      * done.
      * rewrite Forall_singleton. by left.
      * lia.
      * lia.
      * done.
      * by exists t.
    + rewrite run_bind. case_decide as Hlast; simpl.
      * destruct (IH (S attempt) ((t ++ [EvGet url]) ++ [EvSleep ms])) as
          (dt & Htr & Hev & Hle & Hpos & Hsl & Hres); [lia|].
        exists (EvGet url :: EvSleep ms :: dt).
        split_and!.
        -- rewrite Htr, <- !app_assoc. done.
        -- rewrite !Forall_cons. auto.
        -- simpl. lia.
        -- simpl. lia.
        -- simpl. rewrite Hsl. assert (0 < gets dt)%nat by (apply Hpos; lia). lia.
        -- destruct (safeGet_loop _ _ _ _ _ _ _).1 as [d|e].
           ++ destruct Hres as (t0 & Ht0 & Hd). exists t0. split; [|done].
              rewrite <- Ht0, <- !app_assoc. done.
           ++ destruct Hres as [-> Hg]. simpl. by rewrite Hg.
      * assert (todo = 0%nat) as -> by lia. simpl.
        exists [EvGet url]. simpl.
        split_and!; try done; try lia. rewrite Forall_singleton. by left.
Qed.

(** X1. The resilient fetcher sends at most [retries] requests, all to [url],
    and waits [sleepMs] between two requests and at no other time. When it
    fulfils, its value is the answer to the last request it sent; when it
    rejects, it has sent [retries] requests and the error is its own. *)
Theorem safeGet_trace (url : string) (retries : nat) (ms : Z) (t : trace) :
  ∃ dt,
    (safeGet net url retries ms t).2 = t ++ dt ∧
    Forall (fun e => e = EvGet url ∨ e = EvSleep ms) dt ∧
    (gets dt ≤ retries)%nat ∧
    sleeps dt = (gets dt - 1)%nat ∧
    match (safeGet net url retries ms t).1 with
    | Ok d => ∃ t0, t ++ dt = t0 ++ [EvGet url] ∧ net t0 url = Data d
    | Err e => e = FetchError url retries ∧ gets dt = retries
    end.
Proof.
  destruct (safeGet_loop_trace url retries ms retries 1 t) as
    (dt & Htr & Hev & Hle & _ & Hsl & Hres); [lia|].
  exists dt. done.
Qed.

(** The same for the fetches of the program, in the terms of [within]. *)
Lemma safeGet_cost url t :
  ∃ dt,
    (safeGet net url RETRY_TIMES RETRY_SLEEP_MS t).2 = t ++ dt ∧
    (gets dt ≤ 3)%nat ∧ (sleeps dt ≤ 2)%nat ∧ within (eq url) dt ∧
    ((∃ e, (safeGet net url RETRY_TIMES RETRY_SLEEP_MS t).1 = Err e) →
     gets dt = 3%nat ∧ sleeps dt = 2%nat).
Proof.
  destruct (safeGet_loop_trace url RETRY_TIMES RETRY_SLEEP_MS RETRY_TIMES 1 t) as
    (dt & Htr & Hev & Hle & _ & Hsl & Hres); [done|].
  fold (safeGet net url RETRY_TIMES RETRY_SLEEP_MS t) in Htr, Hres.
  exists dt. unfold RETRY_TIMES in *. split_and!; [done|lia|lia| |].
  - unfold within. eapply Forall_impl; [exact Hev|]. by intros e [->| ->].
  - intros [e He]. rewrite He in Hres. destruct Hres as [_ Hg]. lia.
Qed.

(** Code that awaits a fetch and then only computes. *)
Lemma fetch_then_pure {A} url (k : resp_data → M A) t :
  (∀ d t', (k d t').2 = t') →
  ((data ← safeGet net url RETRY_TIMES RETRY_SLEEP_MS; k data) t).2 =
  (safeGet net url RETRY_TIMES RETRY_SLEEP_MS t).2 ∧
  (∀ e, (safeGet net url RETRY_TIMES RETRY_SLEEP_MS t).1 = Err e →
        ((data ← safeGet net url RETRY_TIMES RETRY_SLEEP_MS; k data) t).1 = Err e).
Proof.
  intros Hk. rewrite run_bind.
  destruct (safeGet net url RETRY_TIMES RETRY_SLEEP_MS t) as [[d|e] t'] eqn:Hrun; simpl.
  - split; [apply Hk|done].
  - split; [done|]. by intros e' [= ->].
Qed.

Lemma cheerio_load_pure d t : (cheerio_load parse_html load_object d t).2 = t.
Proof. destruct d as [s|p]; simpl; [done|]. by destruct (load_object p). Qed.

Lemma title_attempt_pure bookId i t :
  (title_attempt net parse_html load_object bookId i t).2 =
  (safeGet net (title_url bookId i) RETRY_TIMES RETRY_SLEEP_MS t).2 ∧
  (∀ e, (safeGet net (title_url bookId i) RETRY_TIMES RETRY_SLEEP_MS t).1 = Err e →
        (title_attempt net parse_html load_object bookId i t).1 = Err e).
Proof.
  apply fetch_then_pure. intros d t'. rewrite run_bind.
  pose proof (cheerio_load_pure d t') as Hl.
  by destruct (cheerio_load parse_html load_object d t') as [[doc|e] t''].
Qed.

Lemma content_attempt_pure bookId i t :
  (content_attempt net parse_html load_object bookId i t).2 =
  (safeGet net (content_url bookId i) RETRY_TIMES RETRY_SLEEP_MS t).2 ∧
  (∀ e, (safeGet net (content_url bookId i) RETRY_TIMES RETRY_SLEEP_MS t).1 = Err e →
        (content_attempt net parse_html load_object bookId i t).1 = Err e).
Proof.
  apply fetch_then_pure. intros [s|p] t'; [done|]. case_decide; [|done].
  rewrite run_bind. simpl. done.
Qed.

(** What a loop that absorbs its failures adds to the trace, when one round
    costs at most [c] requests and [s] waits. *)
Lemma retry_cost {A} (attempt : M A) dflt urls c s todo t :
  (∀ t, ∃ dt, (attempt t).2 = t ++ dt ∧ (gets dt ≤ c)%nat ∧ (sleeps dt ≤ s)%nat ∧
              within urls dt) →
  ∃ dt, (retry attempt dflt todo t).2 = t ++ dt ∧
        (gets dt ≤ todo * c)%nat ∧ (sleeps dt ≤ todo * S s)%nat ∧ within urls dt.
Proof.
  intros Hatt. revert t. induction todo as [|todo IH]; intros t.
  - exists []. simpl. rewrite app_nil_r. split_and!; [done|lia|lia|constructor].
  - destruct (Hatt t) as (dt1 & Htr1 & Hg1 & Hs1 & Hw1).
    destruct (attempt t) as [[a|e] t1] eqn:Hrun; simpl in Htr1; subst t1.
    + exists dt1. erewrite retry_success by exact Hrun. simpl. split_and!; [done|lia|lia|done].
    + erewrite retry_failure by exact Hrun.
      destruct (IH ((t ++ dt1) ++ [EvSleep RETRY_SLEEP_MS])) as (dt2 & Htr2 & Hg2 & Hs2 & Hw2).
      exists (dt1 ++ EvSleep RETRY_SLEEP_MS :: dt2). rewrite Htr2, <- !app_assoc.
      split_and!; [done| | |].
      * rewrite gets_app. simpl. lia.
      * rewrite sleeps_app. simpl. lia.
      * apply within_app. split; [done|]. by constructor.
Qed.

(** The same when every round fails at the same cost. *)
Lemma retry_cost_exact {A} (attempt : M A) dflt urls c s todo t :
  (∀ t, ∃ e dt, attempt t = (Err e, t ++ dt) ∧ gets dt = c ∧ sleeps dt = s ∧
                within urls dt) →
  ∃ dt, retry attempt dflt todo t = (Ok dflt, t ++ dt) ∧
        gets dt = (todo * c)%nat ∧ sleeps dt = (todo * S s)%nat ∧ within urls dt.
Proof.
  intros Hatt. revert t. induction todo as [|todo IH]; intros t.
  - exists []. simpl. rewrite app_nil_r. split_and!; [done..|constructor].
  - destruct (Hatt t) as (e & dt1 & Hrun & Hg1 & Hs1 & Hw1).
    erewrite retry_failure by exact Hrun.
    destruct (IH ((t ++ dt1) ++ [EvSleep RETRY_SLEEP_MS])) as (dt2 & -> & Hg2 & Hs2 & Hw2).
    exists (dt1 ++ EvSleep RETRY_SLEEP_MS :: dt2). rewrite <- !app_assoc.
    split_and!; [done| | |].
    + rewrite gets_app. simpl. lia.
    + rewrite sleeps_app. simpl. lia.
    + apply within_app. split; [done|]. by constructor.
Qed.

End Traces.

(** ** The cost of a crawl *)

Lemma gets_mjoin_le (c : nat) (l : list trace) :
  Forall (fun dt => (gets dt ≤ c)%nat) l → (gets (mjoin l) ≤ length l * c)%nat.
Proof.
  induction 1 as [|dt l Hdt _ IH]; simpl; [lia|]. rewrite gets_app. lia.
Qed.

Lemma within_mjoin urls (l : list trace) :
  Forall (within urls) l → within urls (mjoin l).
Proof.
  induction 1 as [|dt l Hdt _ IH]; simpl; [constructor|]. by apply within_app.
Qed.

Section Cost.

Variable net : trace → string → reply.
Variable parse_html : string → document.
Variable load_object : api_payload → document + string.
Variable book_order : list nat.
Variable chapter_order : string → list nat.
Variable array_limit : N.

Lemma title_cost bookId i t :
  ∃ dt, (crawlChapterTitle net parse_html load_object bookId i t).2 = t ++ dt ∧
        (gets dt ≤ 9)%nat ∧ (sleeps dt ≤ 9)%nat ∧ within (eq (title_url bookId i)) dt.
Proof.
  unfold crawlChapterTitle. rewrite crawlChapterTitle_loop_retry.
  apply (retry_cost _ _ _ 3 2 3). intros t0.
  destruct (title_attempt_pure net parse_html load_object bookId i t0) as [-> _].
  destruct (safeGet_cost net (title_url bookId i) t0) as (dt & ? & ? & ? & ? & _). by exists dt.
Qed.

Lemma content_cost bookId i t :
  ∃ dt, (crawlChapterContent net parse_html load_object bookId i t).2 = t ++ dt ∧
        (gets dt ≤ 9)%nat ∧ (sleeps dt ≤ 9)%nat ∧ within (eq (content_url bookId i)) dt.
Proof.
  unfold crawlChapterContent. rewrite crawlChapterContent_loop_retry.
  apply (retry_cost _ _ _ 3 2 3). intros t0.
  destruct (content_attempt_pure net parse_html load_object bookId i t0) as [-> _].
  destruct (safeGet_cost net (content_url bookId i) t0) as (dt & ? & ? & ? & ? & _). by exists dt.
Qed.

(** A chapter task runs the title loop, then the content loop. *)
Lemma chapter_task_trace bookId i t :
  ∃ dt1 dt2,
    (chapter_task net parse_html load_object bookId i t).2 = t ++ dt1 ++ dt2 ∧
    within (eq (title_url bookId i)) dt1 ∧ within (eq (content_url bookId i)) dt2 ∧
    (gets dt1 ≤ 9)%nat ∧ (sleeps dt1 ≤ 9)%nat ∧ (gets dt2 ≤ 9)%nat ∧ (sleeps dt2 ≤ 9)%nat.
Proof.
  destruct (title_cost bookId i t) as (dt1 & Htr1 & Hg1 & Hs1 & Hw1).
  destruct (content_cost bookId i (t ++ dt1)) as (dt2 & Htr2 & Hg2 & Hs2 & Hw2).
  exists dt1, dt2. unfold chapter_task. rewrite run_bind.
  destruct (chapter_task_fulfils net parse_html load_object bookId i t) as (ti & co & t' & Hrun).
  unfold chapter_task in Hrun. rewrite run_bind in Hrun.
  destruct (crawlChapterTitle net parse_html load_object bookId i t) as [[title|e] t1];
    [|done]. simpl in Htr1. subst t1.
  rewrite run_bind in Hrun |- *.
  destruct (crawlChapterContent net parse_html load_object bookId i (t ++ dt1))
    as [[content|e] t2]; [|done]. simpl in Htr2. subst t2. simpl.
  split_and!; [by rewrite app_assoc|done..].
Qed.

(** X2. One chapter costs at most 18 requests, all to its two URLs, and at most
    3600 ms of waiting; its title is fetched before its content. *)
Theorem chapter_task_cost (bookId : string) (i : Z) (t : trace) :
  ∃ dt1 dt2,
    (chapter_task net parse_html load_object bookId i t).2 = t ++ dt1 ++ dt2 ∧
    within (eq (title_url bookId i)) dt1 ∧ within (eq (content_url bookId i)) dt2 ∧
    (gets (dt1 ++ dt2) ≤ 18)%nat ∧ waited (dt1 ++ dt2) ≤ 3600.
Proof.
  destruct (chapter_task_trace bookId i t)
    as (dt1 & dt2 & Htr & Hw1 & Hw2 & Hg1 & Hs1 & Hg2 & Hs2).
  exists dt1, dt2. split_and!; [done..| |].
  - rewrite gets_app. lia.
  - rewrite waited_app, (within_waited _ _ Hw1), (within_waited _ _ Hw2).
    unfold RETRY_SLEEP_MS. lia.
Qed.

Lemma promise_all_trace {A} choices (tasks : list (M A)) t :
  (promise_all choices tasks t).2 = t ++ mjoin ((fun task : M A => (task []).2) <$> tasks).
Proof. by destruct (promise_all_run choices tasks t). Qed.

Lemma indices_range (len x : Z) :
  x ∈ (fun i => i + 1) <$> seqZ 0 len → 1 ≤ x ≤ len.
Proof.
  intros (i & -> & Hi%elem_of_seqZ)%list_elem_of_fmap. lia.
Qed.

Lemma pipeline_cost order bookId n t :
  ∃ dt,
    (crawlFirstNChapters net parse_html load_object order array_limit bookId n t).2 = t ++ dt ∧
    (gets dt ≤ Z.to_nat (Js.ToLength n) * 18)%nat ∧
    within (pipeline_urls bookId (Js.ToLength n)) dt.
Proof.
  destruct (decide (creatable array_limit (Js.ToLength n))) as [Hlen|Hlen].
  - unfold crawlFirstNChapters, array_from. rewrite decide_True by done.
    rewrite run_bind. simpl. rewrite run_bind.
    set (indices := (fun i => i + 1) <$> seqZ 0 (Js.ToLength n)).
    set (tasks := (fun i => pLimit MAX_CHAPTER_WORKERS
                              (chapter_task net parse_html load_object bookId i)) <$> indices).
    pose proof (promise_all_trace (order bookId) tasks t) as Htr.
    exists (mjoin ((fun task : M ChapterRecord => (task []).2) <$> tasks)).
    split; [by destruct (promise_all (order bookId) tasks t) as [[cs|e] t']|].
    assert (Forall (fun dt => (gets dt ≤ 18)%nat ∧
                              within (pipeline_urls bookId (Js.ToLength n)) dt)
              ((fun task : M ChapterRecord => (task []).2) <$> tasks)) as Hall.
    { unfold tasks. rewrite <- list_fmap_compose. apply Forall_fmap, Forall_forall.
      intros i Hi%indices_range. simpl. unfold pLimit.
      destruct (chapter_task_trace bookId i []) as (dt1 & dt2 & -> & Hw1 & Hw2 & Hg1 & _ & Hg2 & _).
      simpl. split; [rewrite gets_app; lia|]. apply within_app. split.
      - eapply within_mono; [|exact Hw1]. intros u <-. exists i. split; [done|by left].
      - eapply within_mono; [|exact Hw2]. intros u <-. exists i. split; [done|by right]. }
    split.
    + etrans; [apply gets_mjoin_le; eapply Forall_impl; [exact Hall|]; by intros dt []|].
      unfold tasks, indices. rewrite !length_fmap, length_seqZ. done.
    + apply within_mjoin. eapply Forall_impl; [exact Hall|]. by intros dt [].
  - rewrite crawlFirstNChapters_range by done. exists []. simpl.
    rewrite app_nil_r. split_and!; [done|lia|constructor].
Qed.

Lemma crawlBookInfo_cost bookId t :
  ∃ dt, (crawlBookInfo net parse_html load_object bookId t).2 = t ++ dt ∧
        (gets dt ≤ 3)%nat ∧ within (eq (book_url bookId)) dt.
Proof.
  unfold crawlBookInfo.
  destruct (fetch_then_pure net (book_url bookId)
              (fun html => doc ← cheerio_load parse_html load_object html;
                           ret (extract_info bookId doc)) t) as [-> _].
  { intros d t'. rewrite run_bind.
    pose proof (cheerio_load_pure parse_html load_object d t') as Hl.
    by destruct (cheerio_load parse_html load_object d t') as [[doc|e] t'']. }
  destruct (safeGet_cost net (book_url bookId) t) as (dt & ? & ? & ? & ? & _). by exists dt.
Qed.

Lemma getBookIds_cost page t :
  ∃ dt, (getBookIds net parse_html load_object page t).2 = t ++ dt ∧
        (gets dt ≤ 3)%nat ∧ within (eq (listing_url page)) dt.
Proof.
  unfold getBookIds.
  destruct (fetch_then_pure net (listing_url page)
              (fun html => doc ← cheerio_load parse_html load_object html;
                           ret (extract_ids doc)) t) as [-> _].
  { intros d t'. rewrite run_bind.
    pose proof (cheerio_load_pure parse_html load_object d t') as Hl.
    by destruct (cheerio_load parse_html load_object d t') as [[doc|e] t'']. }
  destruct (safeGet_cost net (listing_url page) t) as (dt & ? & ? & ? & ? & _). by exists dt.
Qed.

Lemma book_task_cost n bookId t :
  ∃ dt, (book_task net parse_html load_object chapter_order array_limit n bookId t).2 = t ++ dt ∧
        (gets dt ≤ 3 + Z.to_nat (Js.ToLength n) * 18)%nat ∧
        within (book_urls bookId (Js.ToLength n)) dt.
Proof.
  destruct (crawlBookInfo_cost bookId t) as (dt1 & Htr1 & Hg1 & Hw1).
  destruct (pipeline_cost chapter_order bookId n (t ++ dt1)) as (dt2 & Htr2 & Hg2 & Hw2).
  unfold book_task. rewrite run_bind.
  destruct (crawlBookInfo net parse_html load_object bookId t) as [[info|e] t1];
    simpl in Htr1; subst t1.
  - exists (dt1 ++ dt2). rewrite run_bind.
    destruct (crawlFirstNChapters _ _ _ _ _ _ _) as [[cs|e] t2]; simpl in Htr2 |- *; subst t2.
    all: split_and!; [by rewrite app_assoc|rewrite gets_app; lia|].
    all: apply within_app; split;
      [eapply within_mono; [|exact Hw1]; intros u <-; by left
      |eapply within_mono; [|exact Hw2]; intros u Hu; by right].
  - exists dt1. simpl. split_and!; [done|lia|].
    eapply within_mono; [|exact Hw1]. intros u <-. by left.
Qed.

(** X3. A crawl sends at most 3 requests for the listing and, per listed book,
    3 for its page and 18 per chapter. It requests the listing URL, the
    pages of the listed books and the two endpoints of their chapters
    [1..len], and nothing else; every wait is of [RETRY_SLEEP_MS]. *)
Theorem crawl_cost (qp qn : option string) (t : trace) :
  let page := Js.parseInt (Js.or_else qp "1") in
  let len := Js.ToLength (Js.parseInt (Js.or_else qn "5")) in
  let ids := listed (getBookIds net parse_html load_object page t).1 in
  ∃ dt,
    (crawl net parse_html load_object book_order chapter_order array_limit qp qn t).2 = t ++ dt ∧
    (gets dt ≤ 3 + length ids * (3 + Z.to_nat len * 18))%nat ∧
    within (crawl_urls page ids len) dt.
Proof.
  intros page len ids.
  destruct (getBookIds_cost page t) as (dt0 & Htr0 & Hg0 & Hw0).
  assert (within (crawl_urls page ids len) dt0) as Hw0'
    by (eapply within_mono; [|exact Hw0]; intros u <-; by left).
  unfold crawl, catch. rewrite run_bind. fold page.
  destruct (getBookIds net parse_html load_object page t) as [[bookIds|e] t0] eqn:Hids;
    simpl in Htr0, ids; subst t0.
  - case_decide as Hempty.
    + exists dt0. simpl. split_and!; [done|lia|done].
    + rewrite run_bind.
      set (tasks := (fun bookId => pLimit MAX_BOOK_WORKERS
                       (book_task net parse_html load_object chapter_order array_limit
                          (Js.parseInt (Js.or_else qn "5")) bookId)) <$> bookIds).
      pose proof (promise_all_trace book_order tasks (t ++ dt0)) as Htr.
      exists (dt0 ++ mjoin ((fun task : M BookRecord => (task []).2) <$> tasks)).
      split; [by destruct (promise_all book_order tasks (t ++ dt0)) as [[rs|e] t'];
                simpl in Htr |- *; rewrite Htr, app_assoc|].
      assert (Forall (fun dt => (gets dt ≤ 3 + Z.to_nat len * 18)%nat ∧
                                within (crawl_urls page ids len) dt)
                ((fun task : M BookRecord => (task []).2) <$> tasks)) as Hall.
      { unfold tasks. rewrite <- list_fmap_compose. apply Forall_fmap, Forall_forall.
        intros bookId Hin. simpl. unfold pLimit.
        destruct (book_task_cost (Js.parseInt (Js.or_else qn "5")) bookId [])
          as (dt & -> & Hg & Hw). simpl. split; [done|].
        eapply within_mono; [|exact Hw]. intros u Hu. right. by exists bookId. }
      split.
      * rewrite gets_app.
        assert (gets (mjoin ((fun task : M BookRecord => (task []).2) <$> tasks))
                ≤ length bookIds * (3 + Z.to_nat len * 18))%nat; [|unfold ids; lia].
        etrans; [apply gets_mjoin_le; eapply Forall_impl; [exact Hall|]; by intros dt []|].
        unfold tasks. by rewrite !length_fmap.
      * apply within_app. split; [done|]. apply within_mjoin.
        eapply Forall_impl; [exact Hall|]. by intros dt [].
  - exists dt0. simpl. split_and!; [done|lia|done].
Qed.

(** A fetch that fails against a dead target, with its trace. *)
Lemma fetch_then_down {A} url (k : resp_data → M A) t :
  always_fails net url → (∀ d t', (k d t').2 = t') →
  ∃ e dt, (data ← safeGet net url RETRY_TIMES RETRY_SLEEP_MS; k data) t = (Err e, t ++ dt) ∧
          gets dt = 3%nat ∧ sleeps dt = 2%nat ∧ within (eq url) dt.
Proof.
  intros Hfail Hk.
  destruct (safeGet_exhaust net url RETRY_TIMES RETRY_SLEEP_MS t Hfail) as (t' & Hrun & _).
  destruct (safeGet_cost net url t) as (dt & Htr & _ & _ & Hw & Hexact).
  destruct Hexact as [Hg Hs]; [rewrite Hrun; eauto|].
  rewrite Hrun in Htr. simpl in Htr. subst t'.
  exists (FetchError url RETRY_TIMES), dt. split; [|done].
  eapply run_bind_err, Hrun.
Qed.

(** X4. A chapter whose two endpoints are down costs exactly 18 requests
    and 3600 ms of waiting, and still gives a record: the default title and
    an empty content. *)
Theorem chapter_task_down (bookId : string) (i : Z) (t : trace) :
  always_fails net (title_url bookId i) →
  always_fails net (content_url bookId i) →
  ∃ dt,
    chapter_task net parse_html load_object bookId i t =
    (Ok {| index := i; ch_title := default_title i; content := "" |}, t ++ dt) ∧
    gets dt = 18%nat ∧ waited dt = 3600.
Proof.
  intros Htitle Hcontent. unfold chapter_task, crawlChapterTitle, crawlChapterContent.
  rewrite crawlChapterTitle_loop_retry, crawlChapterContent_loop_retry.
  destruct (retry_cost_exact (title_attempt net parse_html load_object bookId i)
              (default_title i) (eq (title_url bookId i)) 3 2 RETRY_TIMES t)
    as (dt1 & Hrun1 & Hg1 & Hs1 & Hw1).
  { intros t0. unfold title_attempt. apply fetch_then_down; [done|].
    intros d t'. rewrite run_bind.
    pose proof (cheerio_load_pure parse_html load_object d t') as Hl.
    by destruct (cheerio_load parse_html load_object d t') as [[doc|e] t'']. }
  destruct (retry_cost_exact (content_attempt net parse_html load_object bookId i)
              "" (eq (content_url bookId i)) 3 2 RETRY_TIMES (t ++ dt1))
    as (dt2 & Hrun2 & Hg2 & Hs2 & Hw2).
  { intros t0. unfold content_attempt. apply fetch_then_down; [done|].
    intros [s|p] t'; [done|]. case_decide; [|done]. rewrite run_bind. simpl. done. }
  exists (dt1 ++ dt2).
  erewrite run_bind_ok by exact Hrun1. erewrite run_bind_ok by exact Hrun2.
  rewrite app_assoc. split_and!; [done| |].
  - rewrite gets_app, Hg1, Hg2. done.
  - rewrite waited_app, (within_waited _ _ Hw1), (within_waited _ _ Hw2), Hs1, Hs2. done.
Qed.

(** X5. A content endpoint that answers every request, but never with the
    status 200, is requested exactly 3 times (once per round, [safeGet] being
    satisfied with any answer), with 600 ms of waiting, before the content
    is given up as empty. *)
Theorem content_refused (bookId : string) (i : Z) (t : trace) :
  (∀ t0, ∃ d, net t0 (content_url bookId i) = Data d ∧
              ∀ p, d = Payload p → status p ≠ Some 200) →
  ∃ dt,
    crawlChapterContent net parse_html load_object bookId i t = (Ok "", t ++ dt) ∧
    gets dt = 3%nat ∧ waited dt = 600.
Proof.
  intros Hrefuse. unfold crawlChapterContent. rewrite crawlChapterContent_loop_retry.
  destruct (retry_cost_exact (content_attempt net parse_html load_object bookId i)
              "" (eq (content_url bookId i)) 1 0 RETRY_TIMES t)
    as (dt & Hrun & Hg & Hs & Hw).
  { intros t0. destruct (Hrefuse t0) as (d & Hd & Hstatus).
    assert (safeGet net (content_url bookId i) RETRY_TIMES RETRY_SLEEP_MS t0
            = (Ok d, t0 ++ [EvGet (content_url bookId i)])) as Hget.
    { unfold safeGet, RETRY_TIMES. simpl. unfold catch, axios_get. by rewrite Hd. }
    exists (StatusError (match d with Payload p => status p | Body _ => None end)),
      [EvGet (content_url bookId i)].
    split_and!; [|done|done|by repeat constructor].
    unfold content_attempt. erewrite run_bind_ok by exact Hget.
    destruct d as [s|p]; [done|]. case_decide as Hp; [|done]. by destruct (Hstatus p). }
  exists dt. split_and!; [done|done|].
  rewrite (within_waited _ _ Hw), Hs. done.
Qed.

End Cost.

(** ** The answers of the route *)

Section Answers.

Variable net : trace → string → reply.
Variable parse_html : string → document.
Variable load_object : api_payload → document + string.
Variable book_order : list nat.
Variable chapter_order : string → list nat.
Variable array_limit : N.

(** A page fetch rejects with the error of [safeGet] or with that of
    [cheerio.load], never with the error of [axios]. *)
Lemma page_fetch_error {A} url (f : document → A) t e :
  ((html ← safeGet net url RETRY_TIMES RETRY_SLEEP_MS;
    doc ← cheerio_load parse_html load_object html;
    ret (f doc)) t).1 = Err e →
  e = FetchError url RETRY_TIMES ∨ ∃ m, e = LoadError m.
Proof.
  rewrite run_bind.
  destruct (safeGet_outcome net url RETRY_TIMES RETRY_SLEEP_MS t) as (t' & [[d ->]| ->]).
  - rewrite run_bind. destruct d as [s|p]; simpl; [done|].
    destruct (load_object p) as [doc|m]; simpl; [done|]. intros [= <-]. right. by exists m.
  - simpl. intros [= <-]. by left.
Qed.

Lemma crawlBookInfo_url bookId t info t' :
  crawlBookInfo net parse_html load_object bookId t = (Ok info, t') →
  url info = book_url bookId.
Proof.
  unfold crawlBookInfo. rewrite run_bind.
  destruct (safeGet net _ _ _ t) as [[d|e] t1]; [|done].
  rewrite run_bind. destruct (cheerio_load _ _ d t1) as [[doc|e] t2]; [|done].
  intros [= <- <-]. reflexivity.
Qed.

Lemma book_task_error n bookId t e :
  (book_task net parse_html load_object chapter_order array_limit n bookId t).1 = Err e →
  e = FetchError (book_url bookId) RETRY_TIMES ∨ e = RangeError ∨ ∃ m, e = LoadError m.
Proof.
  intros He. pose proof (book_task_outcome net parse_html load_object chapter_order array_limit n bookId t)
    as Hout.
  destruct (crawlBookInfo net parse_html load_object bookId t).1 as [info|e'] eqn:Hinfo.
  - case_decide.
    + destruct Hout as (cs & Hcs & _). congruence.
    + right; left. congruence.
  - assert (e' = e) as -> by congruence.
    apply page_fetch_error in Hinfo as [->|Hm]; [by left|by right; right].
Qed.

(** X6. The route always answers: with 200 and records, with 404 when the
    listing is empty, or with 500 and the message of an error of the
    listing fetch, of the metadata fetch of a listed book, of
    [cheerio.load] or of the array length. It never reports a failure of a
    chapter endpoint, a status of the content API or an error of [axios]. *)
Theorem crawl_answers (qp qn : option string) (t : trace) :
  let page := Js.parseInt (Js.or_else qp "1") in
  let ids := listed (getBookIds net parse_html load_object page t).1 in
  ∃ resp,
    (crawl net parse_html load_object book_order chapter_order array_limit qp qn t).1 = Ok resp ∧
    ((∃ rs, resp = success rs ∧ ids ≠ []) ∨
     (resp = not_found ∧ (getBookIds net parse_html load_object page t).1 = Ok []) ∨
     (∃ e, resp = server_error e ∧ route_error page ids e)).
Proof.
  intros page ids.
  destruct (getBookIds net parse_html load_object page t) as [[bookIds|e] t'] eqn:Hids;
    simpl in ids.
  - destruct (decide (bookIds = [])) as [->|Hne].
    + exists not_found. rewrite (crawl_no_book _ _ _ _ _ _ qp qn t t' Hids). auto.
    + destruct (crawl_outcome net parse_html load_object book_order chapter_order array_limit
                  qp qn t bookIds t' Hids Hne)
        as [(rs & -> & _)|(bookId & e & Hin & He & ->)].
      * exists (success rs). split; [done|]. left. by exists rs.
      * exists (server_error e). split; [done|]. right; right. exists e. split; [done|].
        apply book_task_error in He as [->|[->|Hm]].
        -- right; left. by exists bookId.
        -- by right; right; left.
        -- by right; right; right.
  - exists (server_error e).
    rewrite (crawl_listing_rejects _ _ _ _ _ _ qp qn t e t' Hids). split; [done|].
    right; right. exists e. split; [done|].
    assert ((getBookIds net parse_html load_object page t).1 = Err e) as He
      by (by rewrite Hids).
    apply page_fetch_error in He as [->|Hm]; [by left|by right; right; right].
Qed.

(** The record of a book task that fulfils. *)
Lemma book_task_record n bookId r :
  (book_task net parse_html load_object chapter_order array_limit n bookId []).1 = Ok r →
  creatable array_limit (Js.ToLength n) ∧ id r = bookId ∧ url r = book_url bookId ∧
  ∃ cs, chapters r = Some cs ∧
        index <$> cs = (fun i => i + 1) <$> seqZ 0 (Js.ToLength n).
Proof.
  intros Hr.
  pose proof (book_task_outcome net parse_html load_object chapter_order array_limit
                n bookId []) as Hout.
  destruct (crawlBookInfo net parse_html load_object bookId []) as [[info|e] t1] eqn:Hinfo;
    simpl in Hout; [|congruence].
  case_decide as Hlen; [|congruence]. destruct Hout as (cs & Hcs & Hidx).
  assert (r = set_chapters info cs) as -> by congruence. simpl.
  rewrite (crawlBookInfo_id _ _ _ _ _ _ _ Hinfo), (crawlBookInfo_url _ _ _ _ Hinfo).
  split_and!; [done..|]. by exists cs.
Qed.

(** A 200 answer carries the records of the book tasks, in listing order. *)
Lemma crawl_success_tasks qp qn t rs :
  (crawl net parse_html load_object book_order chapter_order array_limit qp qn t).1 = Ok (success rs) →
  ∃ ids t',
    getBookIds net parse_html load_object (Js.parseInt (Js.or_else qp "1")) t = (Ok ids, t') ∧
    ids ≠ [] ∧
    Forall2 (fun bookId r =>
               (book_task net parse_html load_object chapter_order array_limit
                  (Js.parseInt (Js.or_else qn "5")) bookId []).1 = Ok r) ids rs.
Proof.
  intros Hrs.
  destruct (getBookIds net parse_html load_object (Js.parseInt (Js.or_else qp "1")) t)
    as [[ids|e] t'] eqn:Hids.
  2: { by rewrite (crawl_listing_rejects _ _ _ _ _ _ qp qn t e t' Hids) in Hrs. }
  destruct (decide (ids = [])) as [->|Hne].
  { by rewrite (crawl_no_book _ _ _ _ _ _ qp qn t t' Hids) in Hrs. }
  destruct (crawl_outcome net parse_html load_object book_order chapter_order array_limit
              qp qn t ids t' Hids Hne)
    as [(rs' & Hrs' & Hall)|(bookId & e & _ & _ & Hrej)]; [|by rewrite Hrej in Hrs].
  assert (rs' = rs) as -> by (rewrite Hrs in Hrs'; by injection Hrs').
  by exists ids, t'.
Qed.

(** X7. Every record of a 200 answer belongs to a listed book, carries the URL
    of that book and has its chapters attached: as many as the chapter count
    asks for, indexed from 1 in order; the count is then an array length. *)
Theorem success_records (qp qn : option string) (t : trace) (rs : list BookRecord) :
  let page := Js.parseInt (Js.or_else qp "1") in
  let len := Js.ToLength (Js.parseInt (Js.or_else qn "5")) in
  let ids := listed (getBookIds net parse_html load_object page t).1 in
  (crawl net parse_html load_object book_order chapter_order array_limit qp qn t).1 = Ok (success rs) →
  len < 2 ^ 32 ∧
  Forall (fun r => id r ∈ ids ∧ url r = book_url (id r) ∧
                   ∃ cs, chapters r = Some cs ∧
                         index <$> cs = (fun i => i + 1) <$> seqZ 0 len) rs.
Proof.
  intros page len ids Hrs.
  destruct (crawl_success_tasks qp qn t rs Hrs) as (bookIds & t' & Hids & Hne & Hall).
  unfold ids, page. rewrite Hids. simpl. split.
  - destruct bookIds as [|bookId bookIds]; [done|].
    inversion Hall as [|? r ? ? Hr _]; subst.
    by destruct (book_task_record _ _ _ Hr) as [[? _] _].
  - apply Forall_lookup_2. intros k r Hk.
    destruct (Forall2_lookup_r _ _ _ _ _ Hall Hk) as (bookId & Hb & Hr).
    destruct (book_task_record _ _ _ Hr) as (_ & -> & -> & Hcs).
    split_and!; [by eapply list_elem_of_lookup_2|done..].
Qed.

(** X8. A chapter count of 2^32 or more makes every crawl of a non-empty
    listing answer 500; when every metadata fetch fulfils, the message is
    that of the array length. *)
Theorem crawl_range_error (qp qn : option string) (t : trace)
    (ids : list string) (t' : trace) :
  let page := Js.parseInt (Js.or_else qp "1") in
  let n := Js.parseInt (Js.or_else qn "5") in
  getBookIds net parse_html load_object page t = (Ok ids, t') → ids ≠ [] →
  2 ^ 32 ≤ Js.ToLength n →
  ∃ e,
    (crawl net parse_html load_object book_order chapter_order array_limit qp qn t).1
    = Ok (server_error e) ∧
    ((∀ bookId, bookId ∈ ids →
        is_ok (crawlBookInfo net parse_html load_object bookId []).1) →
     e = RangeError ∧ message e = "Invalid array length").
Proof.
  intros page n Hids Hne Hlen.
  assert (∀ bookId, ¬ is_ok (book_task net parse_html load_object chapter_order array_limit n bookId []).1)
    as Hrej.
  { intros bookId Hok.
    pose proof (book_task_outcome net parse_html load_object chapter_order array_limit n bookId []) as Hout.
    destruct (crawlBookInfo net parse_html load_object bookId []).1 as [info|e].
    - rewrite decide_False in Hout by (unfold creatable; lia). by rewrite Hout in Hok.
    - by rewrite Hout in Hok. }
  destruct (crawl_outcome net parse_html load_object book_order chapter_order array_limit
              qp qn t ids t' Hids Hne)
    as [(rs & _ & Hall)|(bookId & e & Hin & He & Hrun)]; fold n in Hall || fold n in He.
  - exfalso. destruct ids as [|bookId ids]; [done|].
    inversion Hall as [|? r ? ? Hr _]; subst. apply (Hrej bookId). by rewrite Hr.
  - exists e. split; [done|]. intros Hinfo. specialize (Hinfo bookId Hin).
    pose proof (book_task_outcome net parse_html load_object chapter_order array_limit n bookId []) as Hout.
    destruct (crawlBookInfo net parse_html load_object bookId []).1 as [info|e']; [|done].
    rewrite decide_False in Hout by (unfold creatable; lia).
    assert (e = RangeError) as -> by congruence. done.
Qed.

(** X20. The same holds for every chapter count that is not an array
    length the engine accepts, such as 2^27 on V8: every crawl of a
    non-empty listing answers 500, and when every metadata fetch fulfils the
    message is that of the array length. *)
Theorem count_refused (qp qn : option string) (t : trace)
    (ids : list string) (t' : trace) :
  let page := Js.parseInt (Js.or_else qp "1") in
  let n := Js.parseInt (Js.or_else qn "5") in
  getBookIds net parse_html load_object page t = (Ok ids, t') → ids ≠ [] →
  ¬ creatable array_limit (Js.ToLength n) →
  ∃ e,
    (crawl net parse_html load_object book_order chapter_order array_limit qp qn t).1
    = Ok (server_error e) ∧
    ((∀ bookId, bookId ∈ ids →
        is_ok (crawlBookInfo net parse_html load_object bookId []).1) →
     e = RangeError ∧ message e = "Invalid array length").
Proof.
  intros page n Hids Hne Hlen.
  assert (∀ bookId e,
            (book_task net parse_html load_object chapter_order array_limit n bookId []).1
            = Err e →
            is_ok (crawlBookInfo net parse_html load_object bookId []).1 →
            e = RangeError) as Hrange.
  { intros bookId e He Hok.
    pose proof (book_task_outcome net parse_html load_object chapter_order array_limit
                  n bookId []) as Hout.
    destruct (crawlBookInfo net parse_html load_object bookId []).1 as [info|e']; [|done].
    rewrite decide_False in Hout by done. congruence. }
  destruct (crawl_outcome net parse_html load_object book_order chapter_order array_limit
              qp qn t ids t' Hids Hne)
    as [(rs & _ & Hall)|(bookId & e & Hin & He & Hrun)]; fold n in Hall || fold n in He.
  - exfalso. destruct ids as [|bookId ids]; [done|].
    inversion Hall as [|? r ? ? Hr _]; subst.
    pose proof (book_task_outcome net parse_html load_object chapter_order array_limit
                  n bookId []) as Hout.
    destruct (crawlBookInfo net parse_html load_object bookId []).1 as [info|e].
    + rewrite decide_False in Hout by done. congruence.
    + congruence.
  - exists e. split; [done|]. intros Hinfo.
    rewrite (Hrange bookId e He (Hinfo bookId Hin)). done.
Qed.

End Answers.

(** ** Which rejection is reported *)

(** [Promise.all] rejects with the error of the first promise to reject, in
    completion order. *)
Lemma promise_all_first_rejection {A} choices (tasks : list (M A)) t e :
  (promise_all choices tasks t).1 = Err e →
  ∃ k i (task : M A),
    completion_order (length tasks) choices (seq 0 (length tasks)) !! k = Some i ∧
    tasks !! i = Some task ∧ (task []).1 = Err e ∧
    ∀ j i' (task' : M A),
      (j < k)%nat →
      completion_order (length tasks) choices (seq 0 (length tasks)) !! j = Some i' →
      tasks !! i' = Some task' → is_ok (task' []).1.
Proof.
  unfold promise_all. simpl.
  destruct (settle _ _ _ _ _) as [values|e'] eqn:Hsettle; [done|]. intros [= ->].
  apply settle_first_rejection in Hsettle as (k & i & Hk & Hi & Hfirst).
  rewrite !list_lookup_fmap in Hi.
  destruct (tasks !! i) as [task|] eqn:Htask; [|done]. simpl in Hi.
  exists k, i, task. split_and!; [done|done|congruence|].
  intros j i' task' Hj Hj' Htask'.
  destruct (Hfirst j i' Hj Hj') as (v & Hv).
  rewrite !list_lookup_fmap, Htask' in Hv. simpl in Hv.
  assert ((task' []).1 = Ok v) as -> by congruence. done.
Qed.

Section Rejections.

Variable net : trace → string → reply.
Variable parse_html : string → document.
Variable load_object : api_payload → document + string.
Variable book_order : list nat.
Variable chapter_order : string → list nat.
Variable array_limit : N.

(** X9. After a listing with books, a 500 answer carries the message of the
    first book task to reject, in the order in which the tasks settle: every
    task that settled before it had fulfilled. Which error is reported thus
    depends on the completion order. *)
Theorem first_rejection_reported (qp qn : option string) (t : trace)
    (ids : list string) (t' : trace) (resp : response) :
  let page := Js.parseInt (Js.or_else qp "1") in
  let n := Js.parseInt (Js.or_else qn "5") in
  let order := completion_order (length ids) book_order (seq 0 (length ids)) in
  getBookIds net parse_html load_object page t = (Ok ids, t') → ids ≠ [] →
  (crawl net parse_html load_object book_order chapter_order array_limit qp qn t).1 = Ok resp →
  code resp = 500 →
  ∃ e k i bookId,
    resp = server_error e ∧
    order !! k = Some i ∧ ids !! i = Some bookId ∧
    (book_task net parse_html load_object chapter_order array_limit n bookId []).1 = Err e ∧
    ∀ j i' bookId',
      (j < k)%nat → order !! j = Some i' → ids !! i' = Some bookId' →
      is_ok (book_task net parse_html load_object chapter_order array_limit n bookId' []).1.
Proof.
  intros page n order Hids Hne Hresp Hcode.
  rewrite (crawl_fan_out net parse_html load_object book_order chapter_order array_limit
             qp qn t ids t' Hids Hne) in Hresp. fold n in Hresp.
  set (tasks := (fun bookId => pLimit MAX_BOOK_WORKERS
                   (book_task net parse_html load_object chapter_order array_limit n bookId)) <$> ids)
    in Hresp.
  destruct (promise_all book_order tasks t').1 as [rs|e] eqn:Hall.
  { injection Hresp as <-. done. }
  injection Hresp as <-.
  apply promise_all_first_rejection in Hall as (k & i & task & Hk & Hi & He & Hfirst).
  unfold tasks in Hk, Hi, Hfirst. rewrite length_fmap in Hk, Hfirst.
  rewrite list_lookup_fmap in Hi.
  destruct (ids !! i) as [bookId|] eqn:Hb; [|done]. simpl in Hi. injection Hi as <-.
  exists e, k, i, bookId. split_and!; [done..|].
  intros j i' bookId' Hj Hj' Hb'.
  apply (Hfirst j i' (pLimit MAX_BOOK_WORKERS
           (book_task net parse_html load_object chapter_order array_limit n bookId')) Hj Hj').
  by rewrite list_lookup_fmap, Hb'.
Qed.

End Rejections.

(** ** The listing extractor, again *)

(** X11. The identifiers depend on the set of identifiers the links carry, not
    on the order of the links in the page nor on how often a book is
    linked. *)
Theorem extract_ids_by_set (doc1 doc2 : document) :
  (∀ x, (∃ el, el ∈ Dom.select Sel.book_cover_link doc1 ∧ link_id el = Some x) ↔
        (∃ el, el ∈ Dom.select Sel.book_cover_link doc2 ∧ link_id el = Some x)) →
  extract_ids doc1 = extract_ids doc2.
Proof.
  intros Hsame.
  destruct (extract_ids_spec doc1) as (Hnd1 & Hs1 & Hin1).
  destruct (extract_ids_spec doc2) as (Hnd2 & Hs2 & Hin2).
  apply (StronglySorted_unique String.le); [done..|].
  apply NoDup_Permutation; [done..|]. intros x. by rewrite Hin1, Hin2.
Qed.

(** X12. The pattern of line 40: a link is left out exactly when its [href] has
    no ["/book/"], digits, ["/"] in a row; otherwise the identifier is the
    run of digits of the leftmost such place. *)
Theorem href_pattern (href : string) :
  (match_book_id href = None ↔
   ∀ pre ds post, href = pre +:+ "/book/" +:+ ds +:+ "/" +:+ post →
                  all_digits ds = true → ds = "") ∧
  (∀ x, match_book_id href = Some x ↔
        x ≠ "" ∧ all_digits x = true ∧
        ∃ pre post,
          href = pre +:+ "/book/" +:+ x +:+ "/" +:+ post ∧
          ∀ pre' x' post',
            href = pre' +:+ "/book/" +:+ x' +:+ "/" +:+ post' →
            x' ≠ "" → all_digits x' = true →
            (String.length pre ≤ String.length pre')%nat).
Proof.
  split.
  - rewrite match_book_id_None. split.
    + intros Hnone pre ds post -> Hds. destruct (decide (ds = "")) as [|Hne]; [done|].
      assert (book_id_here ("/book/" +:+ ds +:+ "/" +:+ post) = Some ds) as Hhere
        by (apply book_id_here_Some; eauto).
      by rewrite (Hnone pre _ eq_refl) in Hhere.
    + intros Hnone pre rest ->.
      destruct (book_id_here rest) as [ds|] eqn:Hhere; [|done].
      apply book_id_here_Some in Hhere as (post & -> & Hne & Hds).
      by destruct Hne, (Hnone pre ds post).
  - intros x. rewrite match_book_id_Some. split.
    + intros (pre & rest & -> & (post & -> & Hne & Hds)%book_id_here_Some & Hfirst).
      split_and!; [done..|]. exists pre, post. split; [done|].
      intros pre' x' post' Heq Hne' Hds'.
      destruct (decide (String.length pre' < String.length pre)%nat) as [Hlt|]; [|lia].
      assert (book_id_here ("/book/" +:+ x' +:+ "/" +:+ post') = Some x') as Hhere
        by (apply book_id_here_Some; eauto).
      by rewrite (Hfirst pre' _ Heq Hlt) in Hhere.
    + intros (Hne & Hds & pre & post & -> & Hfirst).
      exists pre, ("/book/" +:+ x +:+ "/" +:+ post). split_and!; [done| |].
      * apply book_id_here_Some. eauto.
      * intros pre' rest' Heq Hlt.
        destruct (book_id_here rest') as [x'|] eqn:Hhere; [|done].
        apply book_id_here_Some in Hhere as (post' & -> & Hne' & Hds').
        specialize (Hfirst pre' x' post' Heq Hne' Hds'). lia.
Qed.

(** ** The cover image, again *)

(** X13. A normalized image URL is never relative, and normalizing is
    idempotent. *)
Theorem normalize_absolute (u : string) :
  Js.startsWith (normalize_url u) "/" = false ∧
  normalize_url (normalize_url u) = normalize_url u.
Proof.
  assert (Js.startsWith (normalize_url u) "/" = false) as Habs.
  { unfold normalize_url, Js.startsWith.
    destruct (String.prefix "//" u) eqn:H2; [done|].
    destruct (String.prefix "/" u) eqn:H1; done. }
  split; [done|].
  apply normalize_other. intros r Hr. unfold Js.startsWith in Habs.
  assert (String.prefix "/" (normalize_url u) = true) as Hp
    by (apply prefix_true; eauto). congruence.
Qed.

(** ** Completion orders *)

Lemma promise_all_ext {A} choices (tasks1 tasks2 : list (M A)) t :
  Forall2 (fun task1 task2 : M A => task1 [] = task2 []) tasks1 tasks2 →
  promise_all choices tasks1 t = promise_all choices tasks2 t.
Proof.
  intros Hext. unfold promise_all. cbv zeta.
  assert ((fun task : M A => task []) <$> tasks1 = (fun task : M A => task []) <$> tasks2)
    as ->.
  { induction Hext as [|task1 task2 l1 l2 Heq _ IH]; simpl; [done|]. by f_equal. }
  by rewrite (Forall2_length _ _ _ Hext).
Qed.

Section Orders.

Variable net : trace → string → reply.
Variable parse_html : string → document.
Variable load_object : api_payload → document + string.
Variable array_limit : N.

Lemma book_task_order c1 c2 n bookId t :
  book_task net parse_html load_object c1 array_limit n bookId t =
  book_task net parse_html load_object c2 array_limit n bookId t.
Proof.
  unfold book_task. rewrite !run_bind.
  destruct (crawlBookInfo net parse_html load_object bookId t) as [[info|e] t1]; [|done].
  rewrite !run_bind.
  by rewrite (crawlFirstNChapters_order net parse_html load_object array_limit c1 c2).
Qed.

(** X10. The status code of the answer does not depend on the order in
    which the book tasks and the chapter tasks settle, and a 200 or 404
    answer is the same answer under every order: of the whole answer, only
    the message of a 500 can depend on the order. *)
Theorem status_code_order_independent (o1 o2 : list nat) (c1 c2 : string → list nat)
    (qp qn : option string) (t : trace) :
  let r1 := crawl net parse_html load_object o1 c1 array_limit qp qn t in
  let r2 := crawl net parse_html load_object o2 c2 array_limit qp qn t in
  ∃ resp1 resp2, r1.1 = Ok resp1 ∧ r2.1 = Ok resp2 ∧ code resp1 = code resp2 ∧
                 (code resp1 ≠ 500 → resp1 = resp2).
Proof.
  intros r1 r2. unfold r1, r2, crawl, catch. rewrite !run_bind.
  destruct (getBookIds net parse_html load_object _ t) as [[ids|e] t0]; [|simpl; eauto 10].
  case_decide; [simpl; eauto 10|]. rewrite !run_bind.
  set (n := Js.parseInt (Js.or_else qn "5")).
  set (tasks1 := (fun bookId => pLimit MAX_BOOK_WORKERS
                    (book_task net parse_html load_object c1 array_limit n bookId)) <$> ids).
  set (tasks2 := (fun bookId => pLimit MAX_BOOK_WORKERS
                    (book_task net parse_html load_object c2 array_limit n bookId)) <$> ids).
  rewrite (promise_all_ext o2 tasks2 tasks1).
  2:{ unfold tasks1, tasks2. apply Forall2_fmap, Forall_Forall2_diag, Forall_forall.
      intros bookId _. unfold pLimit. apply book_task_order. }
  destruct (promise_all_run o1 tasks1 t0) as [_ Hr1].
  destruct (promise_all_run o2 tasks1 t0) as [_ Hr2].
  destruct (promise_all o1 tasks1 t0) as [[rs1|e1] t1];
    destruct (promise_all o2 tasks1 t0) as [[rs2|e2] t2]; simpl in *.
  - destruct Hr1 as [_ ->], Hr2 as [_ ->]. eauto 10.
  - destruct Hr1 as [Hok _]. rewrite Forall_forall in Hok. destruct (Hok _ Hr2).
  - destruct Hr2 as [Hok _]. rewrite Forall_forall in Hok. destruct (Hok _ Hr1).
  - eexists _, _. split_and!; [done..|]. by intros [].
Qed.

End Orders.

(** ** The book page *)

Lemma subtree_element name attribs cs :
  Dom.subtree (Element name attribs cs) = Element name attribs cs :: (cs ≫= Dom.subtree).
Proof.
  reflexivity.
Qed.

Lemma below_element anc p inside name attribs cs :
  Dom.below anc p inside (Element name attribs cs) =
  (if inside && p (Element name attribs cs) then [Element name attribs cs] else []) ++
  (cs ≫= Dom.below anc p (inside || anc (Element name attribs cs))).
Proof.
  reflexivity.
Qed.

Lemma below_leaf anc p n inside x :
  Dom.subtree n = [n] →
  x ∈ (if inside && p n then [n] else []) ↔
  p x = true ∧
  ((inside = true ∧ x ∈ [n]) ∨ ∃ a, a ∈ [n] ∧ anc a = true ∧ x ∈ descendants a).
Proof.
  intros Hn. split.
  - destruct inside, (p n) eqn:Hp; simpl; intros Hx; try by apply elem_of_nil in Hx.
    apply list_elem_of_singleton in Hx as ->. split; [done|]. left. split; [done|].
    by apply list_elem_of_singleton.
  - intros [Hp [[-> Hx]|(a & Ha & _ & Hx)]].
    + apply list_elem_of_singleton in Hx as ->. simpl. rewrite Hp.
      by apply list_elem_of_singleton.
    + apply list_elem_of_singleton in Ha as ->. unfold descendants in Hx.
      rewrite Hn in Hx. by apply elem_of_nil in Hx.
Qed.

Lemma below_spec anc p n :
  ∀ inside x,
    x ∈ Dom.below anc p inside n ↔
    p x = true ∧
    ((inside = true ∧ x ∈ Dom.subtree n) ∨
     ∃ a, a ∈ Dom.subtree n ∧ anc a = true ∧ x ∈ descendants a).
Proof.
  induction n as [d|d|name attribs cs IH] using node_children_ind; intros inside x.
  - simpl. rewrite app_nil_r. by apply below_leaf.
  - simpl. rewrite app_nil_r. by apply below_leaf.
  - rewrite below_element, subtree_element. set (n := Element name attribs cs).
    rewrite Forall_forall in IH.
    rewrite elem_of_app, list_elem_of_bind. split.
    + intros [Hx|(c & Hx & Hc)].
      * destruct inside, (p n) eqn:Hp; simpl in Hx; try by apply elem_of_nil in Hx.
        apply list_elem_of_singleton in Hx as ->. split; [done|]. left. split; [done|]. by left.
      * apply (IH c Hc) in Hx as [Hp [[Hin Hx]|(a & Ha & Hanc & Hx)]]; split; try done.
        -- apply orb_true_iff in Hin as [->|Hanc].
           ++ left. split; [done|]. right. apply list_elem_of_bind. eauto.
           ++ right. exists n. split_and!; [by left|done|].
              unfold descendants, n. rewrite subtree_element. simpl.
              apply list_elem_of_bind. eauto.
        -- right. exists a. split_and!; [|done..]. right. apply list_elem_of_bind. eauto.
    + intros [Hp [[-> Hx]|(a & Ha & Hanc & Hx)]].
      * apply elem_of_cons in Hx as [->|Hx].
        -- left. simpl. rewrite Hp. by left.
        -- apply list_elem_of_bind in Hx as (c & Hx & Hc). right. exists c. split; [|done].
           apply (IH c Hc). split; [done|]. left. by split.
      * apply elem_of_cons in Ha as [->|Ha].
        -- unfold descendants, n in Hx. rewrite subtree_element in Hx. simpl in Hx.
           apply list_elem_of_bind in Hx as (c & Hx & Hc). right. exists c. split; [|done].
           apply (IH c Hc). split; [done|]. left. fold n. rewrite Hanc.
           split; [by destruct inside|done].
        -- apply list_elem_of_bind in Ha as (c & Ha & Hc). right. exists c. split; [|done].
           apply (IH c Hc). split; [done|]. right. eauto.
Qed.

Lemma sublist_bind {A B} (f g : A → list B) (l : list A) :
  Forall (fun a => f a `sublist_of` g a) l → l ≫= f `sublist_of` l ≫= g.
Proof.
  induction 1 as [|a l Ha _ IH]; [done|]. rewrite !bind_cons. by apply sublist_app.
Qed.

Lemma filter_bind {A B} (P : B → Prop) `{!∀ b, Decision (P b)} (g : A → list B) (l : list A) :
  filter P (l ≫= g) = l ≫= (fun a => filter P (g a)).
Proof.
  induction l as [|a l IH]; [done|]. by rewrite !bind_cons, filter_app, IH.
Qed.

Lemma below_sublist anc p n :
  ∀ inside, Dom.below anc p inside n `sublist_of` filter (fun x => p x) (Dom.subtree n).
Proof.
  induction n as [d|d|name attribs cs IH] using node_children_ind; intros inside.
  - simpl. rewrite app_nil_r.
    destruct inside, (p (Text d)) eqn:Hp; simpl;
      try (rewrite filter_cons_True by (by rewrite Hp)); try done; apply sublist_nil_l.
  - simpl. rewrite app_nil_r.
    destruct inside, (p (Comment d)) eqn:Hp; simpl;
      try (rewrite filter_cons_True by (by rewrite Hp)); try done; apply sublist_nil_l.
  - rewrite below_element, subtree_element. set (n := Element name attribs cs).
    change (n :: cs ≫= Dom.subtree) with ([n] ++ cs ≫= Dom.subtree).
    rewrite filter_app. apply sublist_app.
    + destruct inside, (p n) eqn:Hp; simpl;
        try (rewrite filter_cons_True by (by rewrite Hp)); try done; apply sublist_nil_l.
    + rewrite filter_bind. apply sublist_bind. eapply Forall_impl; [exact IH|].
      intros c Hc. apply Hc.
Qed.

Lemma select_below_spec anc p doc x :
  x ∈ Dom.select_below anc p doc ↔
  p x = true ∧ ∃ a, a ∈ Dom.nodes doc ∧ anc a = true ∧ x ∈ descendants a.
Proof.
  unfold Dom.select_below, Dom.nodes. rewrite list_elem_of_bind. split.
  - intros (n & (Hp & [[? _]|(a & Ha & Hanc & Hx)])%below_spec & Hn); [done|].
    split; [done|]. exists a. split_and!; [|done..]. apply list_elem_of_bind. eauto.
  - intros (Hp & a & (n & Ha & Hn)%list_elem_of_bind & Hanc & Hx).
    exists n. split; [|done]. apply below_spec. split; [done|]. right. eauto.
Qed.

Lemma select_below_sublist anc p doc :
  Dom.select_below anc p doc `sublist_of` Dom.select p doc.
Proof.
  unfold Dom.select_below, Dom.select, Dom.nodes. rewrite filter_bind.
  apply sublist_bind, Forall_forall. intros n _. apply below_sublist.
Qed.

Lemma select_no_match p doc : no_match p doc → Dom.select p doc = [].
Proof. intros Hnone%head_select_None. by apply head_None. Qed.

(** ** The descendant selector, by positions *)

Lemma length_subtree_element name attribs cs :
  length (Dom.subtree (Element name attribs cs)) = S (length (cs ≫= Dom.subtree)).
Proof. by rewrite subtree_element. Qed.

(** Subtrees nest: the stretch of a node of a subtree lies inside the
    stretch of the subtree. *)
Lemma forest_nested (F : list node) :
  Forall (fun n => ∀ j a, Dom.subtree n !! j = Some a →
                          (j + length (Dom.subtree a) ≤ length (Dom.subtree n))%nat) F →
  ∀ j a, (F ≫= Dom.subtree) !! j = Some a →
         (j + length (Dom.subtree a) ≤ length (F ≫= Dom.subtree))%nat.
Proof.
  induction 1 as [|c F Hc _ IH]; intros j a Hj; [done|].
  rewrite bind_cons in Hj |- *. rewrite length_app.
  destruct (decide (j < length (Dom.subtree c))%nat) as [Hlt|Hge].
  - rewrite lookup_app_l in Hj by done. specialize (Hc j a Hj). lia.
  - rewrite lookup_app_r in Hj by lia. specialize (IH _ a Hj). lia.
Qed.

Lemma subtree_nested n :
  ∀ j a, Dom.subtree n !! j = Some a →
         (j + length (Dom.subtree a) ≤ length (Dom.subtree n))%nat.
Proof.
  induction n as [d|d|name attribs cs IH] using node_children_ind; intros j a Hj.
  - destruct j as [|j]; [|done]. injection Hj as <-. simpl. lia.
  - destruct j as [|j]; [|done]. injection Hj as <-. simpl. lia.
  - rewrite subtree_element in Hj. rewrite length_subtree_element.
    destruct j as [|j].
    + injection Hj as <-. rewrite length_subtree_element. lia.
    + simpl in Hj. pose proof (forest_nested cs IH j a Hj). lia.
Qed.

(** In document order the subtree of a node stands in one stretch, from the
    position of the node on. *)
Lemma forest_stretch (F : list node) :
  Forall (fun n => ∀ j a, Dom.subtree n !! j = Some a →
                          take (length (Dom.subtree a)) (drop j (Dom.subtree n))
                          = Dom.subtree a) F →
  ∀ j a, (F ≫= Dom.subtree) !! j = Some a →
         take (length (Dom.subtree a)) (drop j (F ≫= Dom.subtree)) = Dom.subtree a.
Proof.
  induction 1 as [|c F Hc _ IH]; intros j a Hj; [done|].
  rewrite bind_cons in Hj |- *.
  destruct (decide (j < length (Dom.subtree c))%nat) as [Hlt|Hge].
  - rewrite lookup_app_l in Hj by done.
    pose proof (subtree_nested c j a Hj) as Hn.
    rewrite drop_app_le by lia. rewrite take_app_le by (rewrite length_drop; lia).
    by apply Hc.
  - rewrite lookup_app_r in Hj by lia. rewrite drop_app_ge by lia. by apply IH.
Qed.

Lemma subtree_stretch n :
  ∀ j a, Dom.subtree n !! j = Some a →
         take (length (Dom.subtree a)) (drop j (Dom.subtree n)) = Dom.subtree a.
Proof.
  induction n as [d|d|name attribs cs IH] using node_children_ind; intros j a Hj.
  - destruct j as [|j]; [|done]. by injection Hj as <-.
  - destruct j as [|j]; [|done]. by injection Hj as <-.
  - destruct j as [|j].
    + injection Hj as <-. by rewrite drop_0, take_ge.
    + rewrite subtree_element in Hj |- *. simpl in Hj |- *.
      by apply (forest_stretch cs IH).
Qed.

Lemma nodes_stretch (doc : document) j a :
  Dom.nodes doc !! j = Some a →
  take (length (Dom.subtree a)) (drop j (Dom.nodes doc)) = Dom.subtree a.
Proof.
  apply forest_stretch, Forall_forall. intros n _. apply subtree_stretch.
Qed.

Lemma selection_nil anc p inside : selection anc p inside [] [] [].
Proof.
  split_and!; [constructor|constructor|]. intros k. split.
  - by intros ?%elem_of_nil.
  - by intros (x & ? & _).
Qed.

(** A node in front of a forest whose selection is known, the forest being
    what lies below the node. *)
Lemma selection_cons anc p inside n (L : list node) ks out :
  length (Dom.subtree n) = S (length L) →
  selection anc p (inside || anc n) L ks out →
  selection anc p inside (n :: L)
    ((if inside && p n then [0%nat] else []) ++ (S <$> ks))
    ((if inside && p n then [n] else []) ++ out).
Proof.
  intros Hlen (Hsorted & Hout & Hin). split_and!.
  - apply StronglySorted_app_2.
    + intros k1 k2 Hk1 (k & -> & _)%list_elem_of_fmap.
      destruct (inside && p n); [|by apply elem_of_nil in Hk1].
      apply list_elem_of_singleton in Hk1 as ->. lia.
    + destruct (inside && p n); repeat constructor.
    + eapply StronglySorted_fmap; [|exact Hsorted]. intros x y. lia.
  - apply Forall2_app.
    + destruct (inside && p n); by repeat constructor.
    + apply Forall2_fmap_l. eapply Forall2_impl; [exact Hout|]. by intros k x.
  - intros k. rewrite elem_of_app, list_elem_of_fmap. split.
    + intros [Hk|(k' & -> & Hk')].
      * destruct inside eqn:Hi, (p n) eqn:Hp; simpl in Hk; try by apply elem_of_nil in Hk.
        apply list_elem_of_singleton in Hk as ->. exists n. split_and!; [done|done|by left].
      * apply Hin in Hk' as (x & Hx & Hp & Habove). exists x. split_and!; [done|done|].
        destruct Habove as [Hb|(j & a & Hj & Ha & Hjk)].
        -- apply orb_true_iff in Hb as [->|Hanc]; [by left|]. right.
           exists 0%nat, n. split_and!; [done|done|lia|].
           apply lookup_lt_Some in Hx. lia.
        -- right. exists (S j), a. split_and!; [done|done|lia|lia].
    + intros (x & Hx & Hp & Habove). destruct k as [|k].
      * left. injection Hx as <-.
        destruct Habove as [->|(j & a & _ & _ & Hjk)]; [|lia].
        simpl. rewrite Hp. by left.
      * right. exists k. split; [done|]. apply Hin. exists x. split_and!; [done|done|].
        destruct Habove as [->|(j & a & Hj & Ha & Hjk)]; [by left|].
        destruct j as [|j].
        -- left. injection Hj as <-. rewrite Ha. by destruct inside.
        -- right. exists j, a. split_and!; [done|done|lia|lia].
Qed.

(** Two forests side by side. *)
Lemma selection_app anc p inside (L1 L2 : list node) ks1 ks2 out1 out2 :
  (∀ j a, L1 !! j = Some a → (j + length (Dom.subtree a) ≤ length L1)%nat) →
  selection anc p inside L1 ks1 out1 →
  selection anc p inside L2 ks2 out2 →
  selection anc p inside (L1 ++ L2)
    (ks1 ++ ((fun k => length L1 + k)%nat <$> ks2)) (out1 ++ out2).
Proof.
  intros Hnested (Hs1 & Ho1 & Hin1) (Hs2 & Ho2 & Hin2).
  assert (∀ k, k ∈ ks1 → (k < length L1)%nat) as Hlt1.
  { intros k (x & Hx & _)%Hin1. by eapply lookup_lt_Some. }
  split_and!.
  - apply StronglySorted_app_2; [|done|].
    + intros k1 k2 Hk1%Hlt1 (k & -> & _)%list_elem_of_fmap. lia.
    + eapply StronglySorted_fmap; [|exact Hs2]. intros x y. lia.
  - apply Forall2_app.
    + eapply Forall2_impl; [exact Ho1|]. intros k x Hx. by apply lookup_app_l_Some.
    + apply Forall2_fmap_l. eapply Forall2_impl; [exact Ho2|]. intros k x Hx. simpl.
      rewrite lookup_app_r by lia. by replace (length L1 + k - length L1)%nat with k by lia.
  - intros k. rewrite elem_of_app, list_elem_of_fmap. split.
    + intros [Hk|(k2 & -> & Hk2)].
      * apply Hin1 in Hk as (x & Hx & Hp & Habove). exists x.
        split_and!; [by apply lookup_app_l_Some|done|].
        destruct Habove as [?|(j & a & Hj & Ha & Hjk)]; [by left|]. right.
        exists j, a. split_and!; [by apply lookup_app_l_Some|done|lia|lia].
      * apply Hin2 in Hk2 as (x & Hx & Hp & Habove). exists x. split_and!; [|done|].
        -- rewrite lookup_app_r by lia.
           by replace (length L1 + k2 - length L1)%nat with k2 by lia.
        -- destruct Habove as [?|(j & a & Hj & Ha & Hjk)]; [by left|]. right.
           exists (length L1 + j)%nat, a. split_and!; [|done|lia|lia].
           rewrite lookup_app_r by lia.
           by replace (length L1 + j - length L1)%nat with j by lia.
    + intros (x & Hx & Hp & Habove).
      destruct (decide (k < length L1)%nat) as [Hlt|Hge].
      * left. apply Hin1. rewrite lookup_app_l in Hx by done. exists x.
        split_and!; [done|done|].
        destruct Habove as [?|(j & a & Hj & Ha & Hjk)]; [by left|]. right.
        exists j, a. rewrite lookup_app_l in Hj by lia. split_and!; [done|done|lia|lia].
      * right. exists (k - length L1)%nat. split; [lia|]. apply Hin2.
        rewrite lookup_app_r in Hx by lia. exists x. split_and!; [done|done|].
        destruct Habove as [?|(j & a & Hj & Ha & Hjk)]; [by left|]. right.
        destruct (decide (j < length L1)%nat) as [Hj1|Hj2].
        -- rewrite lookup_app_l in Hj by done. specialize (Hnested j a Hj). lia.
        -- rewrite lookup_app_r in Hj by lia.
           exists (j - length L1)%nat, a. split_and!; [done|done|lia|lia].
Qed.

Lemma selection_forest anc p (F : list node) :
  Forall (fun n => ∀ inside, ∃ ks,
            selection anc p inside (Dom.subtree n) ks (Dom.below anc p inside n)) F →
  ∀ inside, ∃ ks,
    selection anc p inside (F ≫= Dom.subtree) ks (F ≫= Dom.below anc p inside).
Proof.
  induction 1 as [|c F Hc _ IH]; intros inside.
  - exists []. apply selection_nil.
  - destruct (Hc inside) as (ks1 & H1). destruct (IH inside) as (ks2 & H2).
    eexists. rewrite !bind_cons. apply selection_app; [apply subtree_nested|done..].
Qed.

Lemma selection_node anc p n :
  ∀ inside, ∃ ks, selection anc p inside (Dom.subtree n) ks (Dom.below anc p inside n).
Proof.
  induction n as [d|d|name attribs cs IH] using node_children_ind; intros inside.
  - eexists. apply (selection_cons anc p inside (Text d) [] [] []); [done|].
    apply selection_nil.
  - eexists. apply (selection_cons anc p inside (Comment d) [] [] []); [done|].
    apply selection_nil.
  - destruct (selection_forest anc p cs IH (inside || anc (Element name attribs cs)))
      as (ks & Hks).
    eexists. rewrite below_element, subtree_element.
    apply selection_cons; [by rewrite length_subtree_element|done].
Qed.

(** [$("anc p")] selects the nodes at the positions that match [p] and lie
    below a node matching [anc]: each position once, in document order. *)
Lemma select_below_positions anc p doc :
  ∃ ks, selection anc p false (Dom.nodes doc) ks (Dom.select_below anc p doc).
Proof.
  apply selection_forest, Forall_forall. intros n _. apply selection_node.
Qed.

(** X15. The genres of a book (line 82) are the trimmed texts of the [a]
    elements that lie below some [div.sortList] element: one genre for each
    position of the document, in document order, at which such an element
    stands, and nothing else. *)
Theorem genres_links (bookId : string) (doc : document) :
  ∃ ks : list nat,
    StronglySorted lt ks ∧
    (∀ k, k ∈ ks ↔
          ∃ el, Dom.nodes doc !! k = Some el ∧ Sel.anchor el = true ∧
                above Sel.sort_list (Dom.nodes doc) k) ∧
    Forall2 (fun k genre =>
               ∃ el, Dom.nodes doc !! k = Some el ∧
                     genre = Js.trim (Dom.textContent el))
            ks (genres (extract_info bookId doc)).
Proof.
  destruct (select_below_positions Sel.sort_list Sel.anchor doc) as (ks & Hs & Hout & Hin).
  exists ks. split_and!; [done| |].
  - intros k. rewrite Hin. unfold selected. split.
    + intros (el & Hel & Hp & [?|Habove]); [done|]. by exists el.
    + intros (el & Hel & Hp & Habove). exists el. auto.
  - change (genres (extract_info bookId doc))
      with ((fun el => Js.trim (Dom.text [el])) <$>
            Dom.select_below Sel.sort_list Sel.anchor doc).
    apply Forall2_fmap_r. eapply Forall2_impl; [exact Hout|].
    intros k el Hel. exists el. split; [exact Hel|]. by rewrite <- text_singleton.
Qed.

(** X16. A book page that lacks the elements the code looks for gives empty
    fields, never an error. *)
Theorem missing_elements (bookId : string) (doc : document) :
  let info := extract_info bookId doc in
  (no_match Sel.book_name doc → title info = "") ∧
  (no_match Sel.author doc → author info = "") ∧
  (no_match Sel.intro doc → description info = "") ∧
  (no_match Sel.sort_list doc ∨ no_match Sel.anchor doc → genres info = []) ∧
  (no_match Sel.img doc → no_match Sel.og_image doc → cover_image info = "").
Proof.
  intros info. split_and!.
  - intros Hnone%select_no_match. simpl. by rewrite Hnone.
  - intros Hnone%select_no_match. simpl. rewrite Hnone. by vm_compute.
  - intros Hnone%select_no_match. simpl. rewrite Hnone. by vm_compute.
  - intros Hnone. simpl.
    assert (Dom.select_below Sel.sort_list Sel.anchor doc = []) as ->; [|done].
    destruct Hnone as [Hnone|Hnone%select_no_match].
    + apply elem_of_nil_inv. intros x (_ & d & Hd & Hs & _)%select_below_spec.
      by rewrite (Hnone d Hd) in Hs.
    + apply sublist_nil_r. rewrite <- Hnone. apply select_below_sublist.
  - intros Himg Hog%select_no_match. simpl. unfold resolve_cover, og_fallback.
    rewrite Hog. simpl.
    assert (cover_candidate doc = "") as ->; [|by vm_compute].
    rewrite cover_candidate_direct.
    + apply select_no_match in Himg. by rewrite Himg.
    + assert (Dom.select Sel.lazy_img doc = []) as ->; [|done].
      apply select_no_match. intros el Hel. specialize (Himg el Hel).
      unfold Sel.lazy_img. unfold Sel.img in Himg. by rewrite Himg.
Qed.

Lemma normalize_url_empty u : normalize_url u = "" ↔ u = "".
Proof.
  split; [|by intros ->]. unfold normalize_url.
  destruct (Js.startsWith u "//"); [by rewrite app_cons|].
  destruct (Js.startsWith u "/"); [by rewrite app_cons|done].
Qed.

(** X14. The cover image of a record is empty only when the page has no image
    address at all: the candidate is empty and there is no [og:image]
    content to fall back on. *)
Theorem cover_image_empty (bookId : string) (doc : document) :
  cover_image (extract_info bookId doc) = "" ↔
  cover_candidate doc = "" ∧
  ∀ m, Dom.attr "content" (Dom.select Sel.og_image doc) = Some m → m = "".
Proof.
  simpl. unfold resolve_cover, og_fallback.
  destruct (is_placeholder (normalize_url (cover_candidate doc))) eqn:Hph.
  - destruct (Dom.attr "content" (Dom.select Sel.og_image doc)) as [m|].
    + case_decide as Hm.
      * subst m. rewrite normalize_url_empty. split; [|by intros []].
        intros ->. split; [done|]. by intros m [= <-].
      * split; [done|]. intros [_ Hall]. by apply Hall.
    + rewrite normalize_url_empty. split; [|by intros []]. by intros ->.
  - split.
    + intros Hu. by rewrite Hu in Hph.
    + intros [Hc _]. rewrite Hc in Hph. by vm_compute in Hph.
Qed.

(** ** The addresses *)

Lemma string_length_app s1 s2 :
  String.length (s1 +:+ s2) = (String.length s1 + String.length s2)%nat.
Proof. induction s1 as [|c s1 IH]; [done|]. rewrite app_cons. simpl. by rewrite IH. Qed.

Lemma string_app_inj_r s1 s2 r : s1 +:+ r = s2 +:+ r → s1 = s2.
Proof.
  revert s2. induction s1 as [|c s1 IH]; intros [|c' s2] Heq; [done| | |].
  - apply (f_equal String.length) in Heq.
    rewrite app_nil_l, app_cons in Heq. simpl in Heq. rewrite string_length_app in Heq. lia.
  - apply (f_equal String.length) in Heq.
    rewrite app_nil_l, app_cons in Heq. simpl in Heq. rewrite string_length_app in Heq. lia.
  - rewrite !app_cons in Heq. injection Heq as -> Heq. f_equal. by apply IH.
Qed.

Lemma string_app_inj_l s r1 r2 : s +:+ r1 = s +:+ r2 → r1 = r2.
Proof.
  induction s as [|c s IH]; [done|]. rewrite !app_cons. intros [= Heq]. by apply IH.
Qed.

Lemma listing_url_eq page :
  listing_url page =
  "https://www.tadu.com/store/98-a-0-15-a-20-p-" +:+ Js.toString page +:+ "-909".
Proof. reflexivity. Qed.

Lemma digits_then_slash b b' r r' :
  all_digits b = true → all_digits b' = true →
  b +:+ "/" +:+ r = b' +:+ "/" +:+ r' → b = b' ∧ r = r'.
Proof.
  intros Hb Hb' Heq. apply (f_equal Js.span_digits) in Heq.
  rewrite !app_cons, !app_nil_l in Heq.
  rewrite !span_digits_app in Heq by done. by simplify_eq.
Qed.

(** X17. The addresses of the crawl do not collide: for identifiers made of
    digits, the page of a book, the title page of a chapter and the content
    endpoint of a chapter determine the book and the chapter, and no address
    of one kind is an address of another kind or the address of a listing. *)
Theorem addresses_distinct (b b' : string) (i i' : Z) (page : Js.number) :
  all_digits b = true → all_digits b' = true →
  (book_url b = book_url b' → b = b') ∧
  (title_url b i = title_url b' i' → b = b' ∧ i = i') ∧
  (content_url b i = content_url b' i' → b = b' ∧ i = i') ∧
  title_url b i ≠ book_url b' ∧
  content_url b i ≠ book_url b' ∧
  content_url b i ≠ title_url b' i' ∧
  listing_url page ∉ [book_url b; title_url b i; content_url b i].
Proof.
  intros Hb Hb'. split_and!.
  - unfold book_url. intros Heq%string_app_inj_l.
    apply (string_app_inj_r _ _ "/"), Heq.
  - unfold title_url. intros Heq%string_app_inj_l.
    apply digits_then_slash in Heq as [-> Heq]; [|done..]. split; [done|].
    apply string_app_inj_r in Heq. by apply pretty_Z_inj in Heq.
  - unfold content_url. intros Heq%string_app_inj_l.
    apply digits_then_slash in Heq as [-> Heq]; [|done..]. split; [done|].
    by apply pretty_Z_inj in Heq.
  - unfold title_url, book_url. intros Heq%string_app_inj_l.
    rewrite <- (string_app_nil_r (b' +:+ "/")), string_app_assoc in Heq.
    apply digits_then_slash in Heq as [_ Heq]; [|done..].
    apply (f_equal String.length) in Heq. rewrite string_length_app in Heq. simpl in Heq. lia.
  - unfold content_url, book_url.
    change "https://www.tadu.com/getPartContentByCodeTable/"
      with ("https://www.tadu.com/" +:+ "getPartContentByCodeTable/").
    change "https://www.tadu.com/book/" with ("https://www.tadu.com/" +:+ "book/").
    rewrite !string_app_assoc. intros Heq%string_app_inj_l.
    rewrite !app_cons in Heq. discriminate.
  - unfold content_url, title_url.
    change "https://www.tadu.com/getPartContentByCodeTable/"
      with ("https://www.tadu.com/" +:+ "getPartContentByCodeTable/").
    change "https://www.tadu.com/book/" with ("https://www.tadu.com/" +:+ "book/").
    rewrite !string_app_assoc. intros Heq%string_app_inj_l.
    rewrite !app_cons in Heq. discriminate.
  - rewrite listing_url_eq. unfold book_url, title_url, content_url.
    change "https://www.tadu.com/store/98-a-0-15-a-20-p-"
      with ("https://www.tadu.com/" +:+ "store/98-a-0-15-a-20-p-").
    change "https://www.tadu.com/getPartContentByCodeTable/"
      with ("https://www.tadu.com/" +:+ "getPartContentByCodeTable/").
    change "https://www.tadu.com/book/" with ("https://www.tadu.com/" +:+ "book/").
    rewrite !string_app_assoc.
    rewrite !elem_of_cons, elem_of_nil.
    intros [Heq|[Heq|[Heq|[]]]]; apply string_app_inj_l in Heq;
      rewrite !app_cons in Heq; discriminate.
Qed.

(** ** The query parameters *)

Lemma digit_value_char d : (d < 10)%N → Js.digit_value 10 (pretty_N_char d) = Some (Z.of_N d).
Proof.
  intros Hd.
  assert (d = 0 ∨ d = 1 ∨ d = 2 ∨ d = 3 ∨ d = 4 ∨ d = 5 ∨ d = 6 ∨ d = 7 ∨ d = 8 ∨ d = 9)%N
    as Hcases by lia.
  repeat destruct Hcases as [->|Hcases]; try subst d; by vm_compute.
Qed.

Lemma parse_digits_cons radix acc c s d :
  Js.digit_value radix c = Some d →
  Js.parse_digits radix acc (String c s) =
  Js.parse_digits radix (Some (default 0 acc * radix + d)) s.
Proof. intros Hd. simpl. by rewrite Hd. Qed.

(** Reading back the digits that [pretty] has put in front of [s]. *)
Lemma parse_digits_pretty x :
  ∀ s, ∃ k, 0 ≤ k ∧
    ∀ a, Js.parse_digits 10 (Some a) (pretty_N_go x s) =
         Js.parse_digits 10 (Some (a * 10 ^ k + Z.of_N x)) s.
Proof.
  induction (N.lt_wf_0 x) as [x _ IH]; intros s.
  assert (x = 0 ∨ 0 < x)%N as [->|Hx] by lia.
  - exists 0. split; [done|]. intros a. rewrite pretty_N_go_0.
    by replace (a * 10 ^ 0 + Z.of_N 0) with a by lia.
  - rewrite pretty_N_go_step by done.
    destruct (IH (x `div` 10)%N (N.div_lt x 10 Hx eq_refl)
                (String (pretty_N_char (x `mod` 10)) s)) as (k & Hk & Hparse).
    exists (k + 1). split; [lia|]. intros a. rewrite Hparse.
    rewrite (parse_digits_cons _ _ _ _ (Z.of_N (x `mod` 10)))
      by (apply digit_value_char, N.mod_lt; lia).
    simpl default. rewrite Z.pow_add_r, Z.pow_1_r by lia.
    pose proof (N.div_mod x 10 ltac:(lia)) as Hdm.
    apply (f_equal Z.of_N) in Hdm. rewrite N2Z.inj_add, N2Z.inj_mul in Hdm.
    change (Z.of_N 10) with 10 in Hdm.
    replace ((a * 10 ^ k + Z.of_N (x `div` 10)) * 10 + Z.of_N (x `mod` 10))
      with (a * (10 ^ k * 10) + Z.of_N x) by lia.
    done.
Qed.

(** The digits of a positive number start with a digit that is not zero. *)
Lemma pretty_first_digit x :
  (0 < x)%N → ∀ s, ∃ d rest, (0 < d < 10)%N ∧ pretty_N_go x s = String (pretty_N_char d) rest.
Proof.
  induction (N.lt_wf_0 x) as [x _ IH]; intros Hx s. rewrite pretty_N_go_step by done.
  destruct (decide (x `div` 10 = 0)%N) as [H0|Hpos%N.neq_0_lt_0].
  - rewrite H0, pretty_N_go_0. exists (x `mod` 10)%N, s. split; [|done].
    apply N.div_small_iff in H0; [|done]. rewrite N.mod_small by done. lia.
  - apply IH; [by apply N.div_lt|done].
Qed.

Lemma trimStart_keep c rest :
  Js.strip_one Js.white_space (String c rest) = None →
  Js.trimStart (String c rest) = String c rest.
Proof.
  intros Hnone. unfold Js.trimStart.
  change (String.length (String c rest)) with (S (String.length rest)).
  change (Js.strip_go Js.white_space (S (String.length rest)) (String c rest))
    with (match Js.strip_one Js.white_space (String c rest) with
          | Some rest' => Js.strip_go Js.white_space (String.length rest) rest'
          | None => String c rest
          end).
  by rewrite Hnone.
Qed.

Lemma parseInt_digits d rest :
  (0 < d < 10)%N →
  let s := String (pretty_N_char d) rest in
  Js.parseInt s =
    match Js.parse_digits 10 (Some 0) s with Some z => Js.Num (1 * z) | None => Js.NaN end ∧
  Js.parseInt (String "-" s) =
    match Js.parse_digits 10 (Some 0) s with Some z => Js.Num (-1 * z) | None => Js.NaN end.
Proof.
  intros Hd.
  assert (d = 1 ∨ d = 2 ∨ d = 3 ∨ d = 4 ∨ d = 5 ∨ d = 6 ∨ d = 7 ∨ d = 8 ∨ d = 9)%N
    as Hcases by lia.
  repeat destruct Hcases as [->|Hcases]; try subst d;
    (split; unfold Js.parseInt; rewrite trimStart_keep by (by vm_compute); reflexivity).
Qed.

(** [parseInt] reads back what the decimal notation writes. *)
Lemma parseInt_pretty z : Js.parseInt (pretty z) = Js.Num z.
Proof.
  destruct z as [|p|p]; [by vm_compute| |].
  - change (pretty (Z.pos p)) with (pretty_N_go (N.pos p) "").
    destruct (pretty_first_digit (N.pos p) ltac:(lia) "") as (d & rest & Hd & Heq).
    destruct (parse_digits_pretty (N.pos p) "") as (k & Hk & Hparse).
    rewrite Heq. destruct (parseInt_digits d rest Hd) as [-> _].
    rewrite <- Heq, Hparse. simpl. done.
  - change (pretty (Z.neg p)) with (String "-" (pretty_N_go (N.pos p) "")).
    destruct (pretty_first_digit (N.pos p) ltac:(lia) "") as (d & rest & Hd & Heq).
    destruct (parse_digits_pretty (N.pos p) "") as (k & Hk & Hparse).
    rewrite Heq. destruct (parseInt_digits d rest Hd) as [_ ->].
    rewrite <- Heq, Hparse. simpl. done.
Qed.

Section Query.

Variable net : trace → string → reply.
Variable parse_html : string → document.
Variable load_object : api_payload → document + string.
Variable book_order : list nat.
Variable chapter_order : string → list nat.
Variable array_limit : N.

Lemma safeGet_loop_first url retries ms todo attempt t :
  (attempt + S todo = S retries)%nat →
  ∃ dt, (safeGet_loop net url retries ms (S todo) attempt t).2 = t ++ EvGet url :: dt.
Proof.
  intros Hatt. simpl. unfold catch, axios_get. destruct (net t url) as [d|m].
  - by exists [].
  - rewrite run_bind. case_decide; simpl.
    + destruct (safeGet_loop_trace net url retries ms todo (S attempt)
                  ((t ++ [EvGet url]) ++ [EvSleep ms])) as (dt & -> & _); [lia|].
      exists (EvSleep ms :: dt). by rewrite <- !app_assoc.
    + destruct (safeGet_loop_trace net url retries ms todo (S attempt)
                  (t ++ [EvGet url])) as (dt & -> & _); [lia|].
      exists dt. by rewrite <- !app_assoc.
Qed.

Lemma crawl_trace_listing qp qn t :
  ∃ dt, (crawl net parse_html load_object book_order chapter_order array_limit qp qn t).2 =
        (getBookIds net parse_html load_object (Js.parseInt (Js.or_else qp "1")) t).2 ++ dt.
Proof.
  unfold crawl, catch. rewrite run_bind.
  destruct (getBookIds net parse_html load_object _ t) as [[ids|e] t0]; simpl.
  - case_decide; simpl; [exists []; by rewrite app_nil_r|].
    rewrite run_bind.
    match goal with |- context [promise_all ?o ?tasks t0] =>
      pose proof (promise_all_trace o tasks t0) as Htr;
      destruct (promise_all o tasks t0) as [[rs|e] t1] end;
      simpl in *; subst t1; eauto.
  - exists []. by rewrite app_nil_r.
Qed.

(** X18. The query parameters are read as decimal numbers: with [page] written
    as the integer [p], within the integers that JavaScript numbers hold
    exactly, and [num_chapters] written as the integer [n] (their defaults
    being 1 and 5), the first request of the route is for page [p] of the
    store listing, and every record of a 200 answer has exactly [n] chapters
    ([n] is then below 2^32; none when [n] is negative). *)
Theorem query_parameters (qp qn : option string) (p n : Z) (t : trace) :
  Js.or_else qp "1" = pretty p → Js.or_else qn "5" = pretty n →
  - 2 ^ 53 ≤ p ≤ 2 ^ 53 →
  let r := crawl net parse_html load_object book_order chapter_order array_limit qp qn t in
  (∃ dt, r.2 = t ++ EvGet ("https://www.tadu.com/store/98-a-0-15-a-20-p-" +:+
                           pretty p +:+ "-909") :: dt) ∧
  (∀ rs, r.1 = Ok (success rs) →
         n < 2 ^ 32 ∧
         Forall (fun rec => ∃ cs, chapters rec = Some cs ∧ length cs = Z.to_nat n) rs).
Proof.
  intros Hp Hn _ r. split.
  - destruct (crawl_trace_listing qp qn t) as (dt & Htr). unfold r. rewrite Htr.
    rewrite Hp, parseInt_pretty. unfold getBookIds.
    destruct (fetch_then_pure net (listing_url (Js.Num p))
                (fun html => doc ← cheerio_load parse_html load_object html;
                             ret (extract_ids doc)) t) as [-> _].
    { intros d t'. rewrite run_bind.
      pose proof (cheerio_load_pure parse_html load_object d t') as Hl.
      by destruct (cheerio_load parse_html load_object d t') as [[doc|e] t'']. }
    destruct (safeGet_loop_first (listing_url (Js.Num p)) RETRY_TIMES RETRY_SLEEP_MS
                2 1 t eq_refl) as (dt0 & Hfirst).
    unfold safeGet. change RETRY_TIMES with 3%nat at 2. rewrite Hfirst.
    exists (dt0 ++ dt). by rewrite <- app_assoc.
  - intros rs Hrs.
    destruct (crawl_success_tasks net parse_html load_object book_order chapter_order array_limit
                qp qn t rs Hrs) as (ids & t' & Hids & Hne & Hall).
    rewrite Hn, parseInt_pretty in Hall.
    assert (∀ rec, rec ∈ rs →
              Js.ToLength (Js.Num n) < 2 ^ 32 ∧
              ∃ cs, chapters rec = Some cs ∧
                    length cs = Z.to_nat (Js.ToLength (Js.Num n))) as Hrec.
    { intros rec (k & Hk)%list_elem_of_lookup.
      destruct (Forall2_lookup_r _ _ _ _ _ Hall Hk) as (bookId & _ & Hr).
      destruct (book_task_record net parse_html load_object chapter_order array_limit _ _ _ Hr)
        as ([Hlen _] & _ & _ & cs & Hcs & Hidx).
      split; [done|]. exists cs. split; [done|].
      apply (f_equal length) in Hidx. rewrite !length_fmap, length_seqZ in Hidx. done. }
    assert (rs ≠ []) as Hrs_ne.
    { intros ->. apply Forall2_nil_inv_r in Hall. done. }
    assert (n < 2 ^ 32) as Hlt.
    { destruct rs as [|rec rs']; [done|]. destruct (Hrec rec) as [Hlen _]; [by left|].
      simpl in Hlen. lia. }
    split; [done|]. apply Forall_forall. intros rec Hin.
    destruct (Hrec rec Hin) as (_ & cs & Hcs & Hlen). exists cs. split; [done|].
    rewrite Hlen. simpl. lia.
Qed.

End Query.

(** ** A crawl in which nothing fails *)


Section Healthy.

Variable net : trace → string → reply.
Variable parse_html : string → document.
Variable load_object : api_payload → document + string.
Variable book_order : list nat.
Variable chapter_order : string → list nat.
Variable array_limit : N.








End Healthy.

(** * The further properties on the fixture site *)

Lemma chapter_task_down_witness :
  always_fails Fixture.down (title_url "6" 1) ∧
  always_fails Fixture.down (content_url "6" 1) ∧
  ∃ dt,
    chapter_task Fixture.down Fixture.pages Fixture.no_object "6" 1 [] =
    (Ok {| index := 1; ch_title := default_title 1; content := "" |}, [] ++ dt) ∧
    gets dt = 18%nat ∧ waited dt = 3600.
Proof.
  split; [intros t; eexists; reflexivity|].
  split; [intros t; eexists; reflexivity|].
  apply (chapter_task_down Fixture.down Fixture.pages Fixture.no_object "6" 1 []);
    intros t; eexists; reflexivity.
Defined.

Lemma content_refused_witness :
  (∀ t0, ∃ d, Fixture.refusing t0 (content_url "6" 1) = Data d ∧
              ∀ p, d = Payload p → status p ≠ Some 200) ∧
  ∃ dt,
    crawlChapterContent Fixture.refusing Fixture.pages Fixture.no_object "6" 1 [] =
    (Ok "", [] ++ dt) ∧
    gets dt = 3%nat ∧ waited dt = 600.
Proof.
  assert (∀ t0, ∃ d, Fixture.refusing t0 (content_url "6" 1) = Data d ∧
                     ∀ p, d = Payload p → status p ≠ Some 200) as Hrefuse.
  { intros t0. eexists. split; [reflexivity|]. intros p [= <-]. discriminate. }
  split; [exact Hrefuse|].
  apply (content_refused Fixture.refusing Fixture.pages Fixture.no_object "6" 1 [] Hrefuse).
Defined.

Lemma success_records_witness :
  ∃ rs,
    (crawl Fixture.site Fixture.pages Fixture.no_object [1; 0]%nat (fun _ => []) Fixture.array_limit
       None (Some "2") []).1 = Ok (success rs) ∧
    Forall (fun r => ∃ cs, chapters r = Some cs ∧ index <$> cs = [1; 2]) rs.
Proof.
  assert (∃ rs, (crawl Fixture.site Fixture.pages Fixture.no_object [1; 0]%nat (fun _ => []) Fixture.array_limit
                   None (Some "2") []).1 = Ok (success rs)) as [rs Hrs].
  { eexists. vm_compute. reflexivity. }
  exists rs. split; [exact Hrs|].
  destruct (success_records Fixture.site Fixture.pages Fixture.no_object
              [1; 0]%nat (fun _ => []) Fixture.array_limit None (Some "2") [] rs Hrs) as [_ Hall].
  eapply Forall_impl; [exact Hall|].
  intros r (_ & _ & cs & Hcs & Hidx). exists cs. split; [exact Hcs|].
  rewrite Hidx. vm_compute. reflexivity.
Defined.

Lemma crawl_range_error_witness :
  2 ^ 32 ≤ Js.ToLength (Js.parseInt (Js.or_else (Some "4294967296") "5")) ∧
  ∃ e,
    (crawl Fixture.site Fixture.pages Fixture.no_object [1; 0]%nat (fun _ => []) Fixture.array_limit
       None (Some "4294967296") []).1 = Ok (server_error e) ∧
    message e = "Invalid array length".
Proof.
  assert (2 ^ 32 ≤ Js.ToLength (Js.parseInt (Js.or_else (Some "4294967296") "5"))) as Hlen.
  { vm_compute. discriminate. }
  split; [exact Hlen|].
  destruct (crawl_range_error Fixture.site Fixture.pages Fixture.no_object
              [1; 0]%nat (fun _ => []) Fixture.array_limit None (Some "4294967296") [] ["50"; "6"]
              [EvGet (listing_url (Js.Num 1))]) as (e & Hrun & Hmsg).
  - vm_compute. reflexivity.
  - discriminate.
  - exact Hlen.
  - exists e. split; [exact Hrun|]. apply Hmsg.
    intros bookId Hin. apply elem_of_cons in Hin as [->|Hin].
    + vm_compute. exact I.
    + apply elem_of_cons in Hin as [->|Hin].
      * vm_compute. exact I.
      * apply elem_of_nil in Hin. destruct Hin.
Defined.

Lemma count_refused_witness :
  ¬ creatable Fixture.array_limit
      (Js.ToLength (Js.parseInt (Js.or_else (Some "134217728") "5"))) ∧
  ∃ e,
    (crawl Fixture.site Fixture.pages Fixture.no_object [1; 0]%nat (fun _ => [])
       Fixture.array_limit None (Some "134217728") []).1 = Ok (server_error e) ∧
    message e = "Invalid array length".
Proof.
  assert (¬ creatable Fixture.array_limit
            (Js.ToLength (Js.parseInt (Js.or_else (Some "134217728") "5")))) as Hlen.
  { rewrite fixture_creatable. vm_compute. discriminate. }
  split; [exact Hlen|].
  destruct (count_refused Fixture.site Fixture.pages Fixture.no_object
              [1; 0]%nat (fun _ => []) Fixture.array_limit None (Some "134217728") []
              ["50"; "6"] [EvGet (listing_url (Js.Num 1))]) as (e & Hrun & Hmsg).
  - vm_compute. reflexivity.
  - discriminate.
  - exact Hlen.
  - exists e. split; [exact Hrun|]. apply Hmsg.
    intros bookId Hin. apply elem_of_cons in Hin as [->|Hin].
    + vm_compute. exact I.
    + apply elem_of_cons in Hin as [->|Hin].
      * vm_compute. exact I.
      * apply elem_of_nil in Hin. destruct Hin.
Defined.

(** With a chapter count of 2^32 on the broken site, the task of book 50
    rejects for its page and the task of book 6 for the array length: the
    answer carries the one or the other, as the order has it. *)
Lemma first_rejection_reported_witness :
  (crawl Fixture.broken_site Fixture.pages Fixture.no_object [0; 0]%nat (fun _ => []) Fixture.array_limit
     None (Some "4294967296") []).1
  = Ok (server_error (FetchError (book_url "50") 3)) ∧
  ∃ e bookId,
    (crawl Fixture.broken_site Fixture.pages Fixture.no_object [1; 0]%nat (fun _ => []) Fixture.array_limit
       None (Some "4294967296") []).1 = Ok (server_error e) ∧
    bookId ∈ ["50"; "6"] ∧
    (book_task Fixture.broken_site Fixture.pages Fixture.no_object (fun _ => []) Fixture.array_limit
       (Js.parseInt (Js.or_else (Some "4294967296") "5")) bookId []).1 = Err e.
Proof.
  split; [vm_compute; reflexivity|].
  destruct (first_rejection_reported Fixture.broken_site Fixture.pages Fixture.no_object
              [1; 0]%nat (fun _ => []) Fixture.array_limit None (Some "4294967296") [] ["50"; "6"]
              [EvGet (listing_url (Js.Num 1))] (server_error RangeError))
    as (e & k & i & bookId & Hresp & _ & Hi & He & _).
  - vm_compute. reflexivity.
  - discriminate.
  - vm_compute. reflexivity.
  - reflexivity.
  - exists e, bookId. split; [|split; [|exact He]].
    + transitivity (Ok (server_error RangeError) : result response);
        [vm_compute; reflexivity | by rewrite Hresp].
    + by eapply list_elem_of_lookup_2.
Defined.

Lemma status_code_order_independent_witness :
  (crawl Fixture.site Fixture.pages Fixture.no_object [1; 0]%nat (fun _ => [1; 0]%nat)
     Fixture.array_limit None (Some "2") []).1 =
  (crawl Fixture.site Fixture.pages Fixture.no_object [] (fun _ => [])
     Fixture.array_limit None (Some "2") []).1.
Proof.
  destruct (status_code_order_independent Fixture.site Fixture.pages Fixture.no_object
              Fixture.array_limit [1; 0]%nat [] (fun _ => [1; 0]%nat) (fun _ => [])
              None (Some "2") [])
    as (resp1 & resp2 & H1 & H2 & _ & Hsame).
  rewrite H1, H2. f_equal. apply Hsame.
  intros Hcode.
  assert (match (crawl Fixture.site Fixture.pages Fixture.no_object [1; 0]%nat
                   (fun _ => [1; 0]%nat) Fixture.array_limit None (Some "2") []).1 with
          | Ok resp => code resp
          | Err _ => 0
          end = 200) as H200.
  { vm_compute. reflexivity. }
  rewrite H1, Hcode in H200. discriminate H200.
Defined.

Lemma extract_ids_by_set_witness :
  extract_ids Fixture.listing_doc =
  extract_ids [Fixture.link "/book/50/"; Fixture.link "/a/book/6/x"; Fixture.link "/book/50/"].
Proof.
  apply extract_ids_by_set. intros x.
  destruct (extract_ids_spec Fixture.listing_doc) as (_ & _ & H1).
  destruct (extract_ids_spec
              [Fixture.link "/book/50/"; Fixture.link "/a/book/6/x"; Fixture.link "/book/50/"])
    as (_ & _ & H2).
  rewrite <- H1, <- H2.
  assert (extract_ids Fixture.listing_doc = ["50"; "6"]) as -> by (vm_compute; reflexivity).
  assert (extract_ids [Fixture.link "/book/50/"; Fixture.link "/a/book/6/x";
                       Fixture.link "/book/50/"] = ["50"; "6"]) as ->
    by (vm_compute; reflexivity).
  reflexivity.
Defined.

Lemma href_pattern_witness :
  match_book_id "//www.tadu.com/book/50/?from=store" = Some "50" ∧
  ∃ pre post, "//www.tadu.com/book/50/?from=store" = pre +:+ "/book/" +:+ "50" +:+ "/" +:+ post.
Proof.
  assert (match_book_id "//www.tadu.com/book/50/?from=store" = Some "50") as Hm
    by (vm_compute; reflexivity).
  split; [exact Hm|].
  destruct (href_pattern "//www.tadu.com/book/50/?from=store") as [_ Hsome].
  destruct (proj1 (Hsome "50") Hm) as (_ & _ & pre & post & Heq & _).
  exists pre, post. exact Heq.
Defined.

Lemma cover_image_empty_witness :
  cover_candidate [Text "no image"] = "" ∧
  cover_image (extract_info "6" [Text "no image"]) = "".
Proof.
  assert (cover_candidate [Text "no image"] = "") as Hc by (vm_compute; reflexivity).
  split; [exact Hc|].
  apply cover_image_empty. split; [exact Hc|].
  intros m Hm. vm_compute in Hm. discriminate Hm.
Defined.

Lemma genres_links_witness :
  Dom.nodes Fixture.genre_doc !! 0%nat = Dom.nodes Fixture.genre_doc !! 3%nat ∧
  genres (extract_info "6" Fixture.genre_doc) = ["g1"] ∧
  ∃ ks : list nat,
    ks = [3%nat] ∧
    Forall2 (fun k genre =>
               ∃ el, Dom.nodes Fixture.genre_doc !! k = Some el ∧
                     genre = Js.trim (Dom.textContent el))
            ks (genres (extract_info "6" Fixture.genre_doc)).
Proof.
  assert (genres (extract_info "6" Fixture.genre_doc) = ["g1"]) as Hg
    by (vm_compute; reflexivity).
  split; [reflexivity|]. split; [exact Hg|].
  destruct (genres_links "6" Fixture.genre_doc) as (ks & _ & Hin & Hout).
  exists ks. split; [|exact Hout].
  assert (3%nat ∈ ks) as H3.
  { apply Hin. exists (Element "a" [] [Text "g1"]).
    split; [vm_compute; reflexivity|]. split; [reflexivity|].
    exists 2%nat, (Element "div" [("class", "sortList")]
                     [Element "a" [] [Text "g1"]; Text "g2"]).
    split; [vm_compute; reflexivity|]. split; [vm_compute; reflexivity|].
    simpl. lia. }
  rewrite Hg in Hout. apply Forall2_length in Hout.
  destruct ks as [|k [|k' ks]]; simpl in Hout; try lia.
  apply list_elem_of_singleton in H3 as <-. reflexivity.
Defined.

Lemma text_no_match (p : node → bool) d : p (Text d) = false → no_match p [Text d].
Proof.
  intros Hp el Hel. change (Dom.nodes [Text d]) with [Text d] in Hel.
  by apply list_elem_of_singleton in Hel as ->.
Qed.

Lemma missing_elements_witness :
  let info := extract_info "6" [Text "moved"] in
  title info = "" ∧ author info = "" ∧ description info = "" ∧ genres info = [] ∧
  cover_image info = "".
Proof.
  destruct (missing_elements "6" [Text "moved"]) as (Ht & Ha & Hd & Hg & Hc).
  split; [apply Ht, text_no_match; reflexivity|].
  split; [apply Ha, text_no_match; reflexivity|].
  split; [apply Hd, text_no_match; reflexivity|].
  split; [apply Hg; left; apply text_no_match; reflexivity|].
  apply Hc; apply text_no_match; reflexivity.
Defined.

Lemma addresses_distinct_witness :
  all_digits "6" = true ∧ all_digits "50" = true ∧
  (title_url "6" 1 = title_url "50" 2 → "6" = "50" ∧ 1 = 2) ∧
  content_url "6" 1 ≠ title_url "50" 2 ∧
  listing_url (Js.Num 1) ∉ [book_url "6"; title_url "6" 1; content_url "6" 1].
Proof.
  split; [reflexivity|]. split; [reflexivity|].
  destruct (addresses_distinct "6" "50" 1 2 (Js.Num 1)) as (_ & Ht & _ & _ & _ & Hct & Hl);
    [reflexivity..|].
  split; [exact Ht|]. split; [exact Hct | exact Hl].
Defined.

Lemma query_parameters_witness :
  Js.or_else (Some "1") "1" = pretty 1 ∧ Js.or_else (Some "2") "5" = pretty 2 ∧
  let r := crawl Fixture.site Fixture.pages Fixture.no_object [1; 0]%nat (fun _ => []) Fixture.array_limit
             (Some "1") (Some "2") [] in
  (∃ dt, r.2 = [] ++ EvGet ("https://www.tadu.com/store/98-a-0-15-a-20-p-" +:+
                            pretty 1 +:+ "-909") :: dt) ∧
  (∀ rs, r.1 = Ok (success rs) →
         2 < 2 ^ 32 ∧
         Forall (fun rec => ∃ cs, chapters rec = Some cs ∧ length cs = Z.to_nat 2) rs).
Proof.
  assert (Js.or_else (Some "1") "1" = pretty 1) as Hp by (vm_compute; reflexivity).
  assert (Js.or_else (Some "2") "5" = pretty 2) as Hn by (vm_compute; reflexivity).
  split; [exact Hp|]. split; [exact Hn|].
  apply (query_parameters Fixture.site Fixture.pages Fixture.no_object [1; 0]%nat
           (fun _ => []) Fixture.array_limit (Some "1") (Some "2") 1 2 [] Hp Hn). lia.
Defined.



